(** * The table-function operator of the pipeline engine

    A shallow embedding of
    [be/src/pipeline/exec/table_function_operator.cpp]: the local state
    of the operator, the cursor that walks the Cartesian product of the
    table functions of one child row, and the loop that packs the
    expansion into output blocks.

    The table functions themselves ([vectorized::TableFunction] and its
    subclasses) are an interface here, a type class, because the operator
    only calls their virtual methods.  One implementation of the class,
    following the iteration contract, is given further down and is used
    for the results that depend on what the functions produce. *)

From Stdlib Require Import ZArith Lia.
From stdpp Require Import base numbers list.

Local Open Scope Z_scope.

(** ** Columns and blocks *)

(** A cell of a column.  [Null] is the default value of a column (what
    [insert_default] appends); whether an output column is nullable is a
    field of the operator, [_output_nullable]. *)
Inductive Field : Type :=
  | Null
  | Value (v : Z).

#[global] Instance Field_inhabited : Inhabited Field := populate Null.

#[global] Instance Field_eq_dec : EqDecision Field.
Proof. solve_decision. Defined.

(** A column is the list of its cells. *)
Abbreviation Column := (list Field) (only parsing).

(** [IColumn::size], a [size_t]. *)
Definition size (c : Column) : Z := Z.of_nat (length c).

(** [IColumn::insert_many_defaults(length)]. *)
Definition insert_many_defaults (c : Column) (n : Z) : Column :=
  c ++ replicate (Z.to_nat n) Null.

(** [IColumn::insert_many_from(src, position, length)]: [length] copies
    of the cell of [src] at [position].  Reading past the end of [src]
    has no defined behaviour in the source; the model reads [Null]. *)
Definition insert_many_from (c src : Column) (position n : Z) : Column :=
  c ++ replicate (Z.to_nat n) (src !!! Z.to_nat position).

(** [Block::rows]: the size of the first column, 0 without columns. *)
Definition rows (b : list Column) : Z :=
  match b with
  | [] => 0
  | c :: _ => size c
  end.

(** [Block::clear_column_data]: every column is emptied. *)
Definition clear_column_data (b : list Column) : list Column :=
  map (fun _ => []) b.

(** ** Machine integers

    [batch_size] and the counters are [int], column sizes are [size_t].
    The two conversions the operator relies on are written out. *)

(** Conversion of a signed integer to [size_t] (in a comparison of an
    [int] with a [size_t], and in [size_t] arithmetic). *)
Definition to_size_t (z : Z) : Z := z mod 2 ^ 64.

(** The narrowing cast [(int) x]. *)
Definition to_int (z : Z) : Z := (z + 2 ^ 31) mod 2 ^ 32 - 2 ^ 31.

(** ** Statuses *)

(** A [Status]: [OK], or an error, of which the code is kept. *)
Inductive Status : Type :=
  | OK
  | Error (code : Z).

(** ** The table function interface *)

(** The virtual methods of [vectorized::TableFunction] that the operator
    calls.  [get_value f column max_step] returns the function after the
    call, the column after the call and the [int] the method returns;
    [process_row] takes the row index; [set_nullable] tells the function
    that its column is nullable. *)
Class TableFunction (F : Type) := {
  fn_inhabited :: Inhabited F;
  eos : F -> bool;
  is_outer : F -> bool;
  current_empty : F -> bool;
  forward : F -> F;
  reset : F -> F;
  process_row : F -> Z -> F;
  process_close : F -> F;
  get_value : F -> Column -> Z -> F * Column * Z;
  get_same_many_values : F -> Column -> Z -> Column;
  set_nullable : F -> F
}.

(** What the operator needs from [get_value] and [get_same_many_values]
    for the shape of the output block: [get_value] appends the values it
    reports, no more than it was asked for (one at least may always
    come), and [get_same_many_values] appends as many as it is asked
    for. *)
Class TableFunctionShape (F : Type) `{TableFunction F} : Prop := {
  get_value_count : forall f c m,
    0 <= (get_value f c m).2;
  get_value_max : forall f c m,
    (get_value f c m).2 <= Z.max 1 m;
  get_value_size : forall f c m,
    size (get_value f c m).1.2 = size c + (get_value f c m).2;
  get_same_many_values_size : forall f c n,
    0 <= n -> size (get_same_many_values f c n) = size c + n
}.

(** The calls made on the table functions, in order.  A ghost record:
    the source keeps no such log.  [call_get_value] also records the
    child row the operator is at. *)
Inductive Call : Type :=
  | call_process_row (fn : nat) (row : Z)
  | call_process_close (fn : nat)
  | call_forward (fn : nat)
  | call_reset (fn : nat)
  | call_get_value (fn : nat) (row : Z) (max_step : Z) (ret : Z)
  | call_get_same_many_values (fn : nat) (len : Z)
  | call_set_nullable (fn : nat).

(** ** The operator *)

(** [TableFunctionOperatorX], the part of it the local state reads.
    [_slot_need_copy] is declared in the header and is a parameter.
    [_output_nullable k] is [is_nullable()] of column [k] of the output
    block, a column of the type of output slot [k].  The conjuncts are
    evaluated outside this file: [_conjuncts] says which rows they keep
    and [_conjuncts_status] is the status of their evaluation on a
    block. *)
Record TableFunctionOperatorX : Type := {
  _fn_num : Z;
  _child_slots : nat;
  _slot_need_copy : nat -> bool;
  _conjuncts : list Field -> bool;
  _output_nullable : nat -> bool;
  _conjuncts_status : list Column -> Status
}.

(** The loop at the end of [TableFunctionOperatorX::prepare]. *)
Definition _output_slot_indexs (p : TableFunctionOperatorX) : list nat :=
  List.filter (_slot_need_copy p) (seq 0 (_child_slots p)).

Definition _useless_slot_indexs (p : TableFunctionOperatorX) : list nat :=
  List.filter (fun i => negb (_slot_need_copy p i)) (seq 0 (_child_slots p)).

(** How one pass through the body of the inner loop ends: [break],
    [continue], or falling through to the statements that follow. *)
Inductive Flow : Type :=
  | flow_break
  | flow_continue
  | flow_next.

(** A run on a budget of iterations: [Done] when it came to its end,
    [OutOfFuel] with the state reached when the budget ran out, [Failed]
    with the state reached when the run was left with an error status. *)
Inductive Outcome (A : Type) : Type :=
  | Done (a : A)
  | OutOfFuel (a : A)
  | Failed (code : Z) (a : A).
Arguments Done {A} a.
Arguments OutOfFuel {A} a.
Arguments Failed {A} code a.

(** Where the run was when it came to its end, ran out of budget or was
    left with an error. *)
Definition outcome_value {A : Type} (o : Outcome A) : A :=
  match o with
  | Done a => a
  | OutOfFuel a => a
  | Failed _ a => a
  end.

Section Operator.

Context {F : Type} `{TableFunction F}.

(** [TableFunctionLocalState].  [calls] is the ghost log. *)
Record TableFunctionLocalState : Type := {
  _fns : list F;
  _child_block : list Column;
  _cur_child_offset : Z;
  _current_row_insert_times : Z;
  _child_eos : bool;
  calls : list Call
}.

Definition set_fns (st : TableFunctionLocalState) (fns : list F) :=
  {| _fns := fns; _child_block := _child_block st;
     _cur_child_offset := _cur_child_offset st;
     _current_row_insert_times := _current_row_insert_times st;
     _child_eos := _child_eos st; calls := calls st |}.

Definition set_times (st : TableFunctionLocalState) (n : Z) :=
  {| _fns := _fns st; _child_block := _child_block st;
     _cur_child_offset := _cur_child_offset st;
     _current_row_insert_times := n;
     _child_eos := _child_eos st; calls := calls st |}.

Definition log (st : TableFunctionLocalState) (cs : list Call) :=
  {| _fns := _fns st; _child_block := _child_block st;
     _cur_child_offset := _cur_child_offset st;
     _current_row_insert_times := _current_row_insert_times st;
     _child_eos := _child_eos st; calls := calls st ++ cs |}.

(** [_fns[i]->forward()] and [_fns[i]->reset()]. *)
Definition fn_forward (i : nat) (st : TableFunctionLocalState) :=
  log (set_fns st (alter forward i (_fns st))) [call_forward i].

Definition fn_reset (i : nat) (st : TableFunctionLocalState) :=
  log (set_fns st (alter reset i (_fns st))) [call_reset i].

(** [_fns[i]->set_nullable()]. *)
Definition fn_set_nullable (i : nat) (st : TableFunctionLocalState) :=
  log (set_fns st (alter set_nullable i (_fns st))) [call_set_nullable i].

(** *** [_copy_output_slots] *)

Definition _copy_output_slots (p : TableFunctionOperatorX)
    (st : TableFunctionLocalState) (columns : list Column)
    : TableFunctionLocalState * list Column :=
  if _current_row_insert_times st =? 0 then (st, columns)
  else
    (set_times st 0,
     fold_left
       (fun cols index =>
          alter (fun c => insert_many_from c (_child_block st !!! index)
                            (_cur_child_offset st)
                            (_current_row_insert_times st))
                index cols)
       (_output_slot_indexs p) columns).

(** *** [_find_last_fn_eos_idx] *)

(** The loop [for (i = _fn_num - 1; i >= 0; --i)], entered with
    [i = n - 1]. *)
Fixpoint find_last_fn_eos_loop (p : TableFunctionOperatorX)
    (fns : list F) (n : nat) : Z :=
  match n with
  | O => 0
  | S i =>
      if negb (eos (fns !!! i)) then
        if Z.of_nat i =? _fn_num p - 1 then -1 else Z.of_nat i + 1
      else find_last_fn_eos_loop p fns i
  end.

Definition _find_last_fn_eos_idx (p : TableFunctionOperatorX)
    (st : TableFunctionLocalState) : Z :=
  find_last_fn_eos_loop p (_fns st) (Z.to_nat (_fn_num p)).

(** *** [_roll_table_functions] *)

(** The first loop, [for (; i >= 0; --i)], entered with [i = n - 1];
    the result carries the value of [i] after the loop. *)
Fixpoint roll_forward_loop (st : TableFunctionLocalState) (n : nat)
    : TableFunctionLocalState * Z :=
  match n with
  | O => (st, -1)
  | S i =>
      let st' := fn_forward i st in
      if negb (eos (_fns st' !!! i)) then (st', Z.of_nat i)
      else roll_forward_loop st' i
  end.

(** The second loop, [for (j = i + 1; j < _fn_num; ++j)], with [cnt]
    iterations left. *)
Fixpoint roll_reset_loop (st : TableFunctionLocalState) (j cnt : nat)
    : TableFunctionLocalState :=
  match cnt with
  | O => st
  | S cnt' => roll_reset_loop (fn_reset j st) (S j) cnt'
  end.

(** For [last_eos_idx <= 0] the first loop is not entered and [i] keeps
    its initial value; the operator never calls it so. *)
Definition _roll_table_functions (p : TableFunctionOperatorX)
    (st : TableFunctionLocalState) (last_eos_idx : Z)
    : TableFunctionLocalState * bool :=
  let '(st1, i) :=
    if last_eos_idx <=? 0 then (st, last_eos_idx - 1)
    else roll_forward_loop st (Z.to_nat last_eos_idx) in
  if i =? -1 then (st1, false)
  else (roll_reset_loop st1 (Z.to_nat (i + 1))
          (Z.to_nat (_fn_num p - (i + 1))), true).

(** *** [_is_inner_and_empty] *)

Fixpoint is_inner_and_empty_loop (fns : list F) (i cnt : nat) : bool :=
  match cnt with
  | O => false
  | S cnt' =>
      if negb (is_outer (fns !!! i)) && current_empty (fns !!! i) then true
      else is_inner_and_empty_loop fns (S i) cnt'
  end.

Definition _is_inner_and_empty (p : TableFunctionOperatorX)
    (st : TableFunctionLocalState) : bool :=
  is_inner_and_empty_loop (_fns st) 0 (Z.to_nat (_fn_num p)).

(** *** [process_next_child_row] *)

Definition process_next_child_row (st : TableFunctionLocalState)
    : TableFunctionLocalState :=
  let offset := _cur_child_offset st + 1 in
  if to_size_t offset >=? rows (_child_block st) then
    {| _fns := map process_close (_fns st);
       _child_block := clear_column_data (_child_block st);
       _cur_child_offset := -1;
       _current_row_insert_times := _current_row_insert_times st;
       _child_eos := _child_eos st;
       calls := calls st ++ map call_process_close (seq 0 (length (_fns st))) |}
  else
    {| _fns := map (fun f => process_row f offset) (_fns st);
       _child_block := _child_block st;
       _cur_child_offset := offset;
       _current_row_insert_times := _current_row_insert_times st;
       _child_eos := _child_eos st;
       calls := calls st ++
                map (fun i => call_process_row i offset)
                    (seq 0 (length (_fns st))) |}.

(** *** [get_expanded_block] *)

(** The first statement of the body of the inner loop: the [if] on the
    index returned by [_find_last_fn_eos_idx]. *)
Definition advance (p : TableFunctionOperatorX)
    (st : TableFunctionLocalState) (columns : list Column)
    (skip_child_row : bool)
    : Flow * TableFunctionLocalState * list Column :=
  let idx := _find_last_fn_eos_idx p st in
  if (idx =? 0) || skip_child_row then
    let '(st1, columns1) := _copy_output_slots p st columns in
    let st2 := process_next_child_row st1 in
    if _cur_child_offset st2 =? -1 then (flow_break, st2, columns1)
    else (flow_next, st2, columns1)
  else if (idx <? _fn_num p) && negb (idx =? -1) then
    let '(st1, ok) := _roll_table_functions p st idx in
    if negb ok then (flow_continue, st1, columns)
    else (flow_next, st1, columns)
  else (flow_next, st, columns).

(** The loop [for (i = 0; i < _fn_num - 1; i++)] over the functions
    other than the last one. *)
Fixpoint get_same_many_values_loop (p : TableFunctionOperatorX)
    (st : TableFunctionLocalState) (columns : list Column)
    (repeat_times : Z) (i cnt : nat)
    : TableFunctionLocalState * list Column :=
  match cnt with
  | O => (st, columns)
  | S cnt' =>
      get_same_many_values_loop p
        (log st [call_get_same_many_values i repeat_times])
        (alter (fun c => get_same_many_values (_fns st !!! i) c repeat_times)
               (i + _child_slots p)%nat columns)
        repeat_times (S i) cnt'
  end.

(** The end of the body: [get_value] on the last function, the pending
    count, then [get_same_many_values] on the others. *)
Definition emit (p : TableFunctionOperatorX) (batch_size : Z)
    (st : TableFunctionLocalState) (columns : list Column)
    : TableFunctionLocalState * list Column :=
  let last := Z.to_nat (_fn_num p - 1) in
  let target := (_child_slots p + last)%nat in
  let max_step := batch_size - to_int (size (columns !!! _child_slots p)) in
  let '(f, c, repeat_times) :=
    get_value (_fns st !!! last) (columns !!! target) max_step in
  let st1 :=
    log (set_times (set_fns st (<[last := f]> (_fns st)))
           (_current_row_insert_times st + repeat_times))
        [call_get_value last (_cur_child_offset st) max_step repeat_times] in
  get_same_many_values_loop p st1 (<[target := c]> columns) repeat_times
    0 (Z.to_nat (_fn_num p - 1)).

(** The statements after the first [if]: the test for a function that
    is not outer and has no value, then the emission.  The last component
    is [skip_child_row]. *)
Definition emit_or_skip (p : TableFunctionOperatorX) (batch_size : Z)
    (st : TableFunctionLocalState) (columns : list Column)
    : TableFunctionLocalState * list Column * bool :=
  if _is_inner_and_empty p st then (st, columns, true)
  else (emit p batch_size st columns, false).

(** The body of the inner loop; the last component is [skip_child_row]
    after the pass. *)
Definition inner_body (p : TableFunctionOperatorX) (batch_size : Z)
    (st : TableFunctionLocalState) (columns : list Column)
    (skip_child_row : bool)
    : Flow * (TableFunctionLocalState * list Column * bool) :=
  match advance p st columns skip_child_row with
  | (flow_next, st1, columns1) =>
      (flow_continue, emit_or_skip p batch_size st1 columns1)
  | (fl, st1, columns1) => (fl, (st1, columns1, skip_child_row))
  end.

(** The guard of both loops:
    [columns[p._child_slots.size()]->size() < state->batch_size()]. *)
Definition has_room (p : TableFunctionOperatorX) (batch_size : Z)
    (columns : list Column) : bool :=
  size (columns !!! _child_slots p) <? to_size_t batch_size.

Fixpoint inner_loop (p : TableFunctionOperatorX) (batch_size : Z)
    (fuel : nat) (st : TableFunctionLocalState) (columns : list Column)
    (skip_child_row : bool)
    : Outcome (TableFunctionLocalState * list Column) :=
  match fuel with
  | O => OutOfFuel (st, columns)
  | S fuel' =>
      if has_room p batch_size columns then
        match inner_body p batch_size st columns skip_child_row with
        | (flow_break, (st1, columns1, _)) => Done (st1, columns1)
        | (_, (st1, columns1, skip1)) =>
            inner_loop p batch_size fuel' st1 columns1 skip1
        end
      else Done (st, columns)
  end.

(** The outer loop.  The cancel flag of the query is set from outside,
    so every poll is an input of the call: [cancelled k] is the status
    [RETURN_IF_CANCELLED(state)] sees at poll [k] of the polls still to
    come, [OK] when the query is not cancelled. *)
Fixpoint outer_loop (p : TableFunctionOperatorX) (batch_size : Z)
    (cancelled : nat -> Status) (fuel : nat)
    (st : TableFunctionLocalState) (columns : list Column)
    : Outcome (TableFunctionLocalState * list Column) :=
  match fuel with
  | O => OutOfFuel (st, columns)
  | S fuel' =>
      if has_room p batch_size columns then
        match cancelled 0%nat with
        | Error e => Failed e (st, columns)
        | OK =>
            if rows (_child_block st) =? 0 then Done (st, columns)
            else
              match inner_loop p batch_size fuel' st columns false with
              | Done (st1, columns1) =>
                  outer_loop p batch_size (fun k => cancelled (S k)) fuel'
                    st1 columns1
              | OutOfFuel x => OutOfFuel x
              | Failed e x => Failed e x
              end
        end
      else Done (st, columns)
  end.

(** The padding of the columns nobody reads, after the loops:
    [insert_many_defaults(row_size - columns[index]->size())], a
    subtraction of two [size_t]. *)
Definition pad_useless_slots (p : TableFunctionOperatorX)
    (columns : list Column) : list Column :=
  let row_size := size (columns !!! _child_slots p) in
  fold_left
    (fun cols index =>
       alter (fun c => insert_many_defaults c (to_size_t (row_size - size c)))
             index cols)
    (_useless_slot_indexs p) columns.

(** The statements between the loops and the filter: the last flush of
    the pending count and the padding. *)
Definition flush_and_pad (p : TableFunctionOperatorX)
    (st : TableFunctionLocalState) (columns : list Column)
    : TableFunctionLocalState * list Column :=
  let '(st1, columns1) := _copy_output_slots p st columns in
  (st1, pad_useless_slots p columns1).

(** [get_expanded_block] from the loops up to the filter. *)
Definition assemble (p : TableFunctionOperatorX) (batch_size : Z)
    (cancelled : nat -> Status) (fuel : nat)
    (st : TableFunctionLocalState) (columns : list Column)
    : Outcome (TableFunctionLocalState * list Column) :=
  match outer_loop p batch_size cancelled fuel st columns with
  | Done (st1, columns1) => Done (flush_and_pad p st1 columns1)
  | OutOfFuel x => OutOfFuel x
  | Failed e x => Failed e x
  end.

(** The loop at the head of [get_expanded_block], from [i] on:
    [if (columns[i + p._child_slots.size()]->is_nullable())
     _fns[i]->set_nullable()]. *)
Fixpoint set_nullable_loop (p : TableFunctionOperatorX)
    (st : TableFunctionLocalState) (i cnt : nat) : TableFunctionLocalState :=
  match cnt with
  | O => st
  | S cnt' =>
      set_nullable_loop p
        (if _output_nullable p (i + _child_slots p)%nat
         then fn_set_nullable i st else st)
        (S i) cnt'
  end.

(** Row [j] of a block. *)
Definition block_row (b : list Column) (j : nat) : list Field :=
  map (fun c => c !!! j) b.

(** The cells of a column whose mask bit is set. *)
Fixpoint select (mask : list bool) (c : Column) : Column :=
  match mask, c with
  | m :: mask', x :: c' => if m then x :: select mask' c' else select mask' c'
  | _, _ => []
  end.

(** Modelled from the spec: [VExprContext::filter_block], which is not in
    this file, when the evaluation of the conjuncts succeeds: the rows
    that fail the conjuncts are dropped from every column of the
    assembled block. *)
Definition filter_block (conjuncts : list Field -> bool)
    (b : list Column) : list Column :=
  let mask := map (fun j => conjuncts (block_row b j))
                  (seq 0 (Z.to_nat (rows b))) in
  map (select mask) b.

(** [get_expanded_block]: the local state, the block and what was
    written to [*eos].  The call is [Done] when it returns the status OK,
    and [Failed] when it returns the status of a cancelled query or of a
    failed evaluation of the conjuncts; [*eos] is written on the way to
    OK only.  What a failed evaluation leaves in the block is not
    modelled: the block is the assembled one. *)
Definition get_expanded_block (p : TableFunctionOperatorX) (batch_size : Z)
    (cancelled : nat -> Status) (fuel : nat)
    (st : TableFunctionLocalState) (columns : list Column)
    : Outcome (TableFunctionLocalState * list Column * option bool) :=
  let st0 := set_nullable_loop p st 0 (Z.to_nat (_fn_num p)) in
  match assemble p batch_size cancelled fuel st0 columns with
  | Done (st1, columns1) =>
      match _conjuncts_status p columns1 with
      | Error e => Failed e (st1, columns1, None)
      | OK =>
          Done (st1, filter_block (_conjuncts p) columns1,
                Some (_child_eos st1 && (_cur_child_offset st1 =? -1)))
      end
  | OutOfFuel (st1, columns1) => OutOfFuel (st1, columns1, None)
  | Failed e (st1, columns1) => Failed e (st1, columns1, None)
  end.

(** *** What rolling does to function [j] *)

(** Every function below [k] was forwarded. *)
Definition forwarded (k : nat) (j : nat) (f : F) : F :=
  if (j <? k)%nat then forward f else f.

(** Function [i] was forwarded and stayed short of its end, the
    functions between [i] and [k] were forwarded to their end and then
    reset, the functions from [k] on were reset. *)
Definition rolled (i k : nat) (j : nat) (f : F) : F :=
  if (j <? i)%nat then f
  else if (j =? i)%nat then forward f
  else if (j <? k)%nat then reset (forward f)
  else reset f.

End Operator.

Arguments TableFunctionLocalState F : clear implicits.

(** ** A table function following the iteration contract *)

(** Modelled from the spec: the implementations of
    [vectorized::TableFunction], which are not in this file.  A function
    holds the value set it yields for every row of the block it was
    initialised on, the value set of the row it is bound to, a position in
    that set and the end flag. *)
Record ValueFunction : Type := {
  fn_outer : bool;
  fn_values : list (list Field);
  fn_current : list Field;
  fn_offset : nat;
  fn_eos : bool
}.

Module ValueFunction.

Definition empty (f : ValueFunction) : bool :=
  match fn_current f with
  | [] => true
  | _ :: _ => false
  end.

(** Modelled from the spec: bind, "associate the instance with one input
    row; resets internal emission position; recomputes empty". *)
Definition bind (f : ValueFunction) (row : Z) : ValueFunction :=
  {| fn_outer := fn_outer f; fn_values := fn_values f;
     fn_current := fn_values f !!! Z.to_nat row;
     fn_offset := 0; fn_eos := false |}.

(** Modelled from the spec: close, "release any per-row resources". *)
Definition close (f : ValueFunction) : ValueFunction :=
  {| fn_outer := fn_outer f; fn_values := [];
     fn_current := []; fn_offset := fn_offset f; fn_eos := fn_eos f |}.

(** Modelled from the spec: forward, "advance to the next value; if none
    remain, subsequent eos() reports true". *)
Definition step (f : ValueFunction) (n : nat) : ValueFunction :=
  {| fn_outer := fn_outer f; fn_values := fn_values f;
     fn_current := fn_current f;
     fn_offset := if empty f then fn_offset f else (fn_offset f + n)%nat;
     fn_eos := empty f
               || (length (fn_current f) <=? fn_offset f + n)%nat |}.

(** Modelled from the spec: reset, "return to the first value for the
    currently bound row". *)
Definition rewind (f : ValueFunction) : ValueFunction :=
  {| fn_outer := fn_outer f; fn_values := fn_values f;
     fn_current := fn_current f; fn_offset := 0; fn_eos := false |}.

(** Modelled from the spec: emit, "produce up to max_count consecutive
    values into target_column, returning how many were produced", the
    position moving past them; a function that is empty for the row
    "contributes exactly one null-valued row". *)
Definition emit_count (f : ValueFunction) (max_step : Z) : nat :=
  if empty f then 1%nat
  else Nat.min (Z.to_nat max_step) (length (fn_current f) - fn_offset f).

Definition emit (f : ValueFunction) (c : Column) (max_step : Z)
    : ValueFunction * Column * Z :=
  let n := emit_count f max_step in
  (step f n,
   c ++ (if empty f then [Null]
         else take n (drop (fn_offset f) (fn_current f))),
   Z.of_nat n).

(** Modelled from the spec: emit_repeated, "append the current single
    value repeat_count times"; the null value for an empty function. *)
Definition current_value (f : ValueFunction) : Field :=
  if empty f then Null else fn_current f !!! fn_offset f.

Definition emit_repeated (f : ValueFunction) (c : Column) (n : Z) : Column :=
  c ++ replicate (Z.to_nat n) (current_value f).

(** Modelled from the spec: the contract has no nullability, and the
    values of a function are fields that may be null: telling the
    function that its column is nullable changes nothing. *)
Definition nullable (f : ValueFunction) : ValueFunction := f.

End ValueFunction.

(** What an index past the last function reads; the operator stays
    below [_fn_num]. *)
Definition ValueFunction_default : ValueFunction :=
  {| fn_outer := false; fn_values := []; fn_current := [];
     fn_offset := 0; fn_eos := false |}.

#[global] Instance ValueFunction_TableFunction : TableFunction ValueFunction := {
  fn_inhabited := populate ValueFunction_default;
  eos := fn_eos;
  is_outer := fn_outer;
  current_empty := ValueFunction.empty;
  forward := fun f => ValueFunction.step f 1;
  reset := ValueFunction.rewind;
  process_row := ValueFunction.bind;
  process_close := ValueFunction.close;
  get_value := ValueFunction.emit;
  get_same_many_values := ValueFunction.emit_repeated;
  set_nullable := ValueFunction.nullable
}.

(** ** The expansion the operator is to produce *)

(** The values a function contributes for the row it is bound to: its
    value set, one null for an outer function without values, nothing
    for any other function without values. *)
Definition values_of (f : ValueFunction) : list Field :=
  if ValueFunction.empty f then (if fn_outer f then [Null] else [])
  else fn_current f.

(** How far into [values_of] the function is. *)
Definition position (f : ValueFunction) : nat :=
  if fn_eos f then length (values_of f) else fn_offset f.

(** The Cartesian product of value lists, the last list varying
    fastest. *)
Fixpoint product (vss : list (list Field)) : list (list Field) :=
  match vss with
  | [] => [[]]
  | vs :: rest => flat_map (fun v => map (cons v) (product rest)) vs
  end.

(** The combinations of the bound row that are still to come, from the
    positions of the functions on. *)
Fixpoint remaining (fns : list ValueFunction) : list (list Field) :=
  match fns with
  | [] => [[]]
  | f :: fs =>
      match drop (position f) (values_of f) with
      | [] => []
      | v :: vs =>
          map (cons v) (remaining fs)
          ++ flat_map (fun v' => map (cons v') (product (map values_of fs))) vs
      end
  end.

(** An output row before the pass-through columns are filled in: the
    child row it comes from and the values of the functions. *)
Abbreviation OutRow := (Z * list Field)%type (only parsing).

Definition expansion_of_row (fns : list ValueFunction) (row : nat)
    : list OutRow :=
  map (pair (Z.of_nat row))
      (product (map (fun f => values_of (ValueFunction.bind f (Z.of_nat row)))
                    fns)).

(** The expansion of the child rows after row [offset]. *)
Definition rows_to_come (fns : list ValueFunction) (child : list Column)
    (offset : Z) : list OutRow :=
  flat_map (expansion_of_row fns)
    (seq (Z.to_nat (offset + 1)) (Z.to_nat (rows child - (offset + 1)))).

(** Everything the operator still has to emit for its child block. *)
Definition expansion (st : TableFunctionLocalState ValueFunction)
    : list OutRow :=
  if _cur_child_offset st =? -1 then []
  else
    map (pair (_cur_child_offset st)) (remaining (_fns st))
    ++ rows_to_come (_fns st) (_child_block st) (_cur_child_offset st).

(** The output block that holds the rows [out]: a needed pass-through
    column repeats the cell of the child row, a useless one holds
    defaults, the column of a function holds its values. *)
Definition render_column (p : TableFunctionOperatorX)
    (child : list Column) (out : list OutRow) (k : nat) : Column :=
  if (k <? _child_slots p)%nat then
    if _slot_need_copy p k then
      map (fun o : OutRow => (child !!! k) !!! Z.to_nat o.1) out
    else replicate (length out) Null
  else map (fun o : OutRow => o.2 !!! (k - _child_slots p)%nat) out.

Definition render (p : TableFunctionOperatorX)
    (child : list Column) (out : list OutRow) : list Column :=
  map (render_column p child out)
      (seq 0 (_child_slots p + Z.to_nat (_fn_num p))).

(** Modelled from the spec: the output block a fill call starts from,
    "one column per pass-through slot ... plus one column per TVF",
    without rows. *)
Definition empty_block (p : TableFunctionOperatorX) : list Column :=
  replicate (_child_slots p + Z.to_nat (_fn_num p)) [].

(** Two blocks of the same columns, one after the other. *)
Definition block_app (b1 b2 : list Column) : list Column :=
  zip_with app b1 b2.

(** The factor a function contributes to the number of combinations of
    a row: the size of its value set, 1 for an outer function without
    values, 0 for any other function without values. *)
Definition row_factor (s : nat) (outer : bool) : Z :=
  if (0 <? s)%nat then Z.of_nat s else if outer then 1 else 0.

Definition expected_rows (fns : list ValueFunction) (row : Z) : Z :=
  foldr Z.mul 1
    (map (fun f => row_factor (length (fn_values f !!! Z.to_nat row))
                              (fn_outer f)) fns).

(** The rows [get_value] reported for child row [row], summed over the
    log. *)
Fixpoint rows_emitted (row : Z) (cs : list Call) : Z :=
  match cs with
  | [] => 0
  | call_get_value _ r _ ret :: cs' =>
      (if r =? row then ret else 0) + rows_emitted row cs'
  | _ :: cs' => rows_emitted row cs'
  end.

(** ** States the operator can be in *)

(** A function bound to row [row]: it holds the value set of that row,
    its position is within the set, and the end flag is up exactly at the
    end of a non-empty set. *)
Definition fn_bound (row : Z) (f : ValueFunction) : Prop :=
  fn_current f = (fn_values f !!! Z.to_nat row)
  /\ (fn_offset f <= length (fn_current f))%nat
  /\ (ValueFunction.empty f = false ->
      (fn_eos f = true <-> (length (fn_current f) <= fn_offset f)%nat)).

(** The functions as the loop leaves them between two passes: all but
    the last one short of their end, or every one at its end. *)
Definition cursor_ok (fns : list ValueFunction) : Prop :=
  Forall (fun f => fn_eos f = false) (take (length fns - 1) fns)
  \/ Forall (fun f => fn_eos f = true) fns.

(** [_fn_num] is the number of functions, at least one ([init] and
    [_clone_table_function]). *)
Definition fns_ok {F : Type} `{TableFunction F} (p : TableFunctionOperatorX)
    (st : TableFunctionLocalState F) : Prop :=
  _fn_num p = Z.of_nat (length (_fns st)) /\ 1 <= _fn_num p.

(** No row is bound and the child block is empty. *)
Definition no_row (st : TableFunctionLocalState ValueFunction) : Prop :=
  _cur_child_offset st = -1
  /\ rows (_child_block st) = 0
  /\ _current_row_insert_times st = 0.

(** A row of the child block is bound. *)
Definition row_bound (st : TableFunctionLocalState ValueFunction) : Prop :=
  0 <= _cur_child_offset st < rows (_child_block st)
  /\ Forall (fn_bound (_cur_child_offset st)) (_fns st)
  /\ cursor_ok (_fns st).

(** The operator between two passes of the inner loop. *)
Definition state_ok (p : TableFunctionOperatorX)
    (st : TableFunctionLocalState ValueFunction) : Prop :=
  fns_ok p st
  /\ 0 <= _current_row_insert_times st
  /\ rows (_child_block st) < 2 ^ 63
  /\ (no_row st \/ row_bound st).

(** The operator inside the inner loop: a row is bound. *)
Definition active (p : TableFunctionOperatorX)
    (st : TableFunctionLocalState ValueFunction) : Prop :=
  fns_ok p st
  /\ 0 <= _current_row_insert_times st
  /\ rows (_child_block st) < 2 ^ 63
  /\ row_bound st.

(** A row was just bound: every function is at its first value. *)
Definition fresh (st : TableFunctionLocalState ValueFunction) : Prop :=
  Forall (fun f => fn_eos f = false /\ fn_offset f = 0%nat) (_fns st).

(** Modelled from the spec: the operator is handed a child block, every
    function is initialised on it and the first row is bound
    ([TableFunctionOperatorX::push], declared in the header).  [fns]
    carry the value sets of the block. *)
Definition push (fns : list ValueFunction) (block : list Column)
    (child_eos : bool) : TableFunctionLocalState ValueFunction :=
  let st := {| _fns := fns; _child_block := block; _cur_child_offset := -1;
               _current_row_insert_times := 0; _child_eos := child_eos;
               calls := [] |} in
  if rows block =? 0 then st else process_next_child_row st.

(** ** Sample data *)

Module Sample.

Definition fn (outer : bool) (values : list (list Field)) : ValueFunction :=
  {| fn_outer := outer; fn_values := values; fn_current := [];
     fn_offset := 0; fn_eos := false |}.

Definition operator (n : Z) (slots : nat) (need : nat -> bool)
    : TableFunctionOperatorX :=
  {| _fn_num := n; _child_slots := slots; _slot_need_copy := need;
     _conjuncts := fun _ => true;
     _output_nullable := fun k => Nat.eqb k 3;
     _conjuncts_status := fun _ => OK |}.

(** A query that is not cancelled. *)
Definition running : nat -> Status := fun _ => OK.

(** A query that was cancelled before the call. *)
Definition stopped : nat -> Status := fun _ => Error 1.

(** Two pass-through slots, the first one read downstream. *)
Definition p2 : TableFunctionOperatorX := operator 2 2 (Nat.eqb 0).

(** [p2] with conjuncts whose evaluation fails. *)
Definition p2_failing : TableFunctionOperatorX :=
  {| _fn_num := 2; _child_slots := 2; _slot_need_copy := Nat.eqb 0;
     _conjuncts := fun _ => true;
     _output_nullable := fun k => Nat.eqb k 3;
     _conjuncts_status := fun _ => Error 7 |}.
Definition p1 : TableFunctionOperatorX := operator 1 2 (Nat.eqb 0).

(** A block of two rows. *)
Definition block : list Column :=
  [[Value 100; Value 200]; [Value 7; Value 8]].

(** A: [1,2] then [3]; B: [7,8,9] then nothing, outer. *)
Definition fA : ValueFunction :=
  fn false [[Value 1; Value 2]; [Value 3]].
Definition fB : ValueFunction :=
  fn true [[Value 7; Value 8; Value 9]; []].
(** C: nothing for the first row, not outer. *)
Definition fC : ValueFunction :=
  fn false [[]; [Value 5]].

Definition st_AB : TableFunctionLocalState ValueFunction :=
  push [fA; fB] block true.
Definition st_C : TableFunctionLocalState ValueFunction :=
  push [fC] block true.

End Sample.

(** The [process_close] calls of a log. *)
Definition closes (cs : list Call) : list Call :=
  List.filter (fun c => match c with call_process_close _ => true | _ => false end) cs.

(** ** Reading the log *)

(** A call other than [get_value]. *)
Definition quiet (c : Call) : Prop :=
  match c with
  | call_get_value _ _ _ _ => False
  | _ => True
  end.

(** [process_row] and [process_close], the calls that bind and release
    a row. *)
Definition is_bind_call (c : Call) : bool :=
  match c with
  | call_process_row _ _ | call_process_close _ => true
  | _ => false
  end.

(** A [get_value] call asks for at least one value and for no more than
    [batch_size]. *)
Definition ok_max_step (batch_size : Z) (c : Call) : Prop :=
  match c with
  | call_get_value _ _ max_step _ => 1 <= max_step <= batch_size
  | _ => True
  end.

(** [st'] has the log of [st] and then calls that satisfy [Q]. *)
Definition extends {F : Type} `{TableFunction F} (Q : Call -> Prop)
    (st st' : TableFunctionLocalState F) : Prop :=
  exists new, calls st' = calls st ++ new /\ Forall Q new.

(** ** The shape of the output block *)

(** Every column of a function holds [n] rows, and every needed
    pass-through column holds [n] rows less the pending count. *)
Definition pending_shape {F : Type} `{TableFunction F}
    (p : TableFunctionOperatorX) (st : TableFunctionLocalState F)
    (columns : list Column) (n : Z) : Prop :=
  length columns = (_child_slots p + Z.to_nat (_fn_num p))%nat
  /\ 0 <= _current_row_insert_times st
  /\ (forall i, (i < Z.to_nat (_fn_num p))%nat ->
        size (columns !!! (_child_slots p + i)%nat) = n)
  /\ (forall k, (k < _child_slots p)%nat -> _slot_need_copy p k = true ->
        size (columns !!! k) + _current_row_insert_times st = n).

(** Every column of the block holds [n] rows. *)
Definition rectangular (p : TableFunctionOperatorX)
    (columns : list Column) (n : Z) : Prop :=
  length columns = (_child_slots p + Z.to_nat (_fn_num p))%nat
  /\ forall k, (k < length columns)%nat -> size (columns !!! k) = n.

(** ** The cursor as a position in the product *)

(** The value a function is at. *)
Definition current (f : ValueFunction) : Field :=
  values_of f !!! position f.

(** The function has a value at its position. *)
Definition at_value (f : ValueFunction) : Prop :=
  (position f < length (values_of f))%nat.

(** The combinations that come after all those that start with the
    current values of [pre], [vss] being the value lists of the functions
    after [pre]. *)
Fixpoint later (pre : list ValueFunction) (vss : list (list Field))
    : list (list Field) :=
  match pre with
  | [] => []
  | f :: fs =>
      match drop (position f) (values_of f) with
      | [] => []
      | v :: vs =>
          map (cons v) (later fs vss)
          ++ flat_map
               (fun v' => map (cons v') (product (map values_of fs ++ vss))) vs
      end
  end.

(** The rows of [out] that come from child row [row]. *)
Fixpoint count_row (row : Z) (out : list OutRow) : Z :=
  match out with
  | [] => 0
  | o :: out' => (if o.1 =? row then 1 else 0) + count_row row out'
  end.

(** What of a function decides the expansion of the rows to come: the
    outer flag and the value sets. *)
Definition signature (f : ValueFunction) : bool * list (list Field) :=
  (fn_outer f, fn_values f).

(** The output block under assembly holds the rows [out]: the columns of
    the functions hold their values, a needed pass-through column holds
    the cells of the child rows but for the pending copies of the bound
    row, a useless one holds nothing yet. *)
Definition assembled (p : TableFunctionOperatorX) (child : list Column)
    (st : TableFunctionLocalState ValueFunction) (columns : list Column)
    (out : list OutRow) : Prop :=
  length columns = (_child_slots p + Z.to_nat (_fn_num p))%nat
  /\ (forall i, (i < Z.to_nat (_fn_num p))%nat ->
        columns !!! (_child_slots p + i)%nat
        = map (fun o : OutRow => o.2 !!! i) out)
  /\ (forall k, (k < _child_slots p)%nat -> _slot_need_copy p k = true ->
        columns !!! k
        ++ replicate (Z.to_nat (_current_row_insert_times st))
             ((child !!! k) !!! Z.to_nat (_cur_child_offset st))
        = map (fun o : OutRow => (child !!! k) !!! Z.to_nat o.1) out)
  /\ (forall k, (k < _child_slots p)%nat -> _slot_need_copy p k = false ->
        columns !!! k = []).

(** A bound on the passes the inner loop still makes: two for every
    child row to come, two for every row the block still takes, one for
    a pass that neither emits nor moves on. *)
Definition budget (p : TableFunctionOperatorX) (batch_size : Z)
    (st : TableFunctionLocalState ValueFunction) (columns : list Column)
    (skip_child_row : bool) : nat :=
  (2 * Z.to_nat (rows (_child_block st) - _cur_child_offset st)
   + 2 * Z.to_nat (batch_size - size (columns !!! _child_slots p))
   + (if (_find_last_fn_eos_idx p st =? 0)%Z || skip_child_row
      then 0 else 1))%nat.

(** The cell of output row [o] in column [k] of the output block. *)
Definition output_cell (p : TableFunctionOperatorX) (child : list Column)
    (k : nat) (o : OutRow) : Field :=
  if (k <? _child_slots p)%nat then
    if _slot_need_copy p k then (child !!! k) !!! Z.to_nat o.1 else Null
  else o.2 !!! (k - _child_slots p)%nat.

(** The output row as the conjuncts see it, and whether it stays. *)
Definition output_row (p : TableFunctionOperatorX) (child : list Column)
    (o : OutRow) : list Field :=
  map (fun k => output_cell p child k o)
      (seq 0 (_child_slots p + Z.to_nat (_fn_num p))).

Definition kept (p : TableFunctionOperatorX) (child : list Column)
    (o : OutRow) : bool :=
  _conjuncts p (output_row p child o).

(** Fill calls one after the other, each on an empty block, with a
    capacity and with polls of its own; the state after the last one and
    the blocks handed on, in order.  A call that fails ends the run. *)
Fixpoint fill_calls (p : TableFunctionOperatorX) (fuel : nat)
    (runs : list (Z * (nat -> Status)))
    (st : TableFunctionLocalState ValueFunction)
    : Outcome (TableFunctionLocalState ValueFunction * list (list Column)) :=
  match runs with
  | [] => Done (st, [])
  | (batch_size, cancelled) :: rest =>
      match get_expanded_block p batch_size cancelled fuel st (empty_block p)
      with
      | Done (st1, block, _) =>
          match fill_calls p fuel rest st1 with
          | Done (st2, blocks) => Done (st2, block :: blocks)
          | OutOfFuel (st2, blocks) => OutOfFuel (st2, block :: blocks)
          | Failed e (st2, blocks) => Failed e (st2, block :: blocks)
          end
      | OutOfFuel (st1, _, _) => OutOfFuel (st1, [])
      | Failed e (st1, _, _) => Failed e (st1, [])
      end
  end.

(** A list cut into consecutive segments of the given lengths, as far as
    it goes. *)
Fixpoint segments {A : Type} (sizes : list Z) (l : list A) : list (list A) :=
  match sizes with
  | [] => []
  | n :: rest => take (Z.to_nat n) l :: segments rest (drop (Z.to_nat n) l)
  end.

(** ** Setting the operator up *)

(** *** [_prepare_output_slot_ids] *)

(** The first loop: the largest of the slot ids ([SlotId] is an [int]),
    [-1] without ids. *)
Definition max_slot_id (ids : list Z) : Z :=
  fold_left (fun max_id slot_id => if slot_id >? max_id then slot_id else max_id)
    ids (-1).

(** [std::vector<bool>(max_id + 1, false)], then the second loop,
    [_output_slot_ids[slot_id] = true].  [max_id + 1] is computed in
    [SlotId] and converted to the [size_t] the constructor takes; past
    the largest [int] the sum has no defined behaviour in the source, and
    the model wraps.  A write at a negative index has no defined
    behaviour either; the model leaves the vector as it is. *)
Definition _prepare_output_slot_ids (ids : list Z) : list bool :=
  fold_left
    (fun v slot_id => if slot_id <? 0 then v else <[Z.to_nat slot_id := true]> v)
    ids
    (replicate (Z.to_nat (to_size_t (to_int (max_slot_id ids + 1)))) false).

(** *** Calls that can fail *)

(** A call that returns a [Status] and hands its result over in an
    out-parameter: the result under [OK], the error otherwise. *)
Inductive Fallible (A : Type) : Type :=
  | Success (a : A)
  | Failure (code : Z).
Arguments Success {A} a.
Arguments Failure {A} code.

(** [VExpr::create_expr_tree], on the expressions [TExpr] of the plan
    node; it is not in this file. *)
Class ExprTreeFactory (TExpr Ctx : Type) := {
  create_expr_tree : TExpr -> Fallible Ctx
}.

(** What setup calls on expression contexts [Ctx] and table functions
    [F] outside this file: [VExprContext::clone],
    [TableFunctionFactory::get_fn] on the function of the root of a
    context, [TableFunction::set_expr_context] and
    [TableFunction::open], which returns a status and may change the
    function. *)
Class TableFunctionFactory (Ctx F : Type) := {
  clone : Ctx -> Fallible Ctx;
  get_fn : Ctx -> Fallible F;
  set_expr_context : F -> Ctx -> F;
  fn_open : F -> Status * F
}.

(** The function made for a context: the one [get_fn] finds, with the
    context set. *)
Definition made_for {Ctx F : Type} `{TableFunctionFactory Ctx F}
    (c : Ctx) (f : F) : Prop :=
  exists f0, get_fn c = Success f0 /\ f = set_expr_context f0 c.

(** *** [TableFunctionOperatorX::init] *)

Module OperatorX.

(** The members of [TableFunctionOperatorX] that [init] writes. *)
Record State (Ctx F : Type) : Type := {
  _vfn_ctxs : list Ctx;
  _fns : list F;
  _fn_num : Z;
  _output_slot_ids : list bool
}.
Arguments _vfn_ctxs {Ctx F} s.
Arguments _fns {Ctx F} s.
Arguments _fn_num {Ctx F} s.
Arguments _output_slot_ids {Ctx F} s.

(** The loop over [fnCallExprList]; the context is pushed before the
    function is looked up. *)
Fixpoint init_loop {TExpr Ctx F : Type} `{ExprTreeFactory TExpr Ctx}
    `{TableFunctionFactory Ctx F} (exprs : list TExpr) (op : State Ctx F)
    : Status * State Ctx F :=
  match exprs with
  | [] => (OK, op)
  | texpr :: rest =>
      match create_expr_tree texpr with
      | Failure e => (Error e, op)
      | Success ctx =>
          let op1 :=
            {| _vfn_ctxs := _vfn_ctxs op ++ [ctx]; _fns := _fns op;
               _fn_num := _fn_num op;
               _output_slot_ids := _output_slot_ids op |} in
          match get_fn ctx with
          | Failure e => (Error e, op1)
          | Success fn =>
              init_loop rest
                {| _vfn_ctxs := _vfn_ctxs op1;
                   _fns := _fns op1 ++ [set_expr_context fn ctx];
                   _fn_num := _fn_num op1;
                   _output_slot_ids := _output_slot_ids op1 |}
          end
      end
  end.

(** [init].  [base] is the status of [Base::init]; [exprs] and [ids] are
    [fnCallExprList] and [outputSlotIds] of the plan node.
    [cast_set<int>] is the conversion to [int] behind a range check that
    is not in this file; the model converts. *)
Definition init {TExpr Ctx F : Type} `{ExprTreeFactory TExpr Ctx}
    `{TableFunctionFactory Ctx F} (base : Status) (exprs : list TExpr)
    (ids : list Z) (op : State Ctx F) : Status * State Ctx F :=
  match base with
  | Error e => (Error e, op)
  | OK =>
      match init_loop exprs op with
      | (Error e, op1) => (Error e, op1)
      | (OK, op1) =>
          (OK,
           {| _vfn_ctxs := _vfn_ctxs op1; _fns := _fns op1;
              _fn_num := to_int (Z.of_nat (length (_fns op1)));
              _output_slot_ids := _prepare_output_slot_ids ids |})
      end
  end.

End OperatorX.

(** *** [_clone_table_function] and [open] of the local state *)

Section LocalSetup.

Context {Ctx F : Type} `{TableFunctionFactory Ctx F}.

Definition set_offset (st : TableFunctionLocalState F) (offset : Z) :=
  {| _fns := _fns st; _child_block := _child_block st;
     _cur_child_offset := offset;
     _current_row_insert_times := _current_row_insert_times st;
     _child_eos := _child_eos st; calls := calls st |}.

(** [_vfn_ctxs.resize(n)]: the contexts are shared pointers, null when
    the vector grows. *)
Definition resize_ctxs (n : nat) (ctxs : list (option Ctx))
    : list (option Ctx) :=
  take n ctxs ++ replicate (n - length ctxs) None.

(** The loop of [_clone_table_function] from index [i] on, [parent]
    being the contexts of the operator from [i] on.  What a clone that
    fails leaves in its out-parameter is not modelled: the slot keeps its
    value. *)
Fixpoint clone_loop (parent : list Ctx) (i : nat)
    (ctxs : list (option Ctx)) (fns : list F)
    : Status * (list (option Ctx) * list F) :=
  match parent with
  | [] => (OK, (ctxs, fns))
  | c :: rest =>
      match clone c with
      | Failure e => (Error e, (ctxs, fns))
      | Success c' =>
          let ctxs1 := <[i := Some c']> ctxs in
          match get_fn c' with
          | Failure e => (Error e, (ctxs1, fns))
          | Success fn =>
              clone_loop rest (S i) ctxs1 (fns ++ [set_expr_context fn c'])
          end
      end
  end.

(** [_clone_table_function]; [parent_ctxs] is [p._vfn_ctxs], [ctxs] the
    [_vfn_ctxs] of the local state. *)
Definition _clone_table_function (parent_ctxs : list Ctx)
    (ctxs : list (option Ctx)) (st : TableFunctionLocalState F)
    : Status * (list (option Ctx) * TableFunctionLocalState F) :=
  match clone_loop parent_ctxs 0 (resize_ctxs (length parent_ctxs) ctxs)
          (_fns st) with
  | (s, (ctxs1, fns1)) => (s, (ctxs1, set_fns st fns1))
  end.

(** The loop [for (auto* fn : _fns) RETURN_IF_ERROR(fn->open())]. *)
Fixpoint open_loop (fns : list F) : Status * list F :=
  match fns with
  | [] => (OK, [])
  | fn :: rest =>
      match fn_open fn with
      | (Error e, fn') => (Error e, fn' :: rest)
      | (OK, fn') =>
          match open_loop rest with
          | (s, rest') => (s, fn' :: rest')
          end
      end
  end.

(** [open]; [base] is the status of [PipelineXLocalState<>::open]. *)
Definition open (base : Status) (parent_ctxs : list Ctx)
    (ctxs : list (option Ctx)) (st : TableFunctionLocalState F)
    : Status * (list (option Ctx) * TableFunctionLocalState F) :=
  match base with
  | Error e => (Error e, (ctxs, st))
  | OK =>
      match _clone_table_function parent_ctxs ctxs st with
      | (Error e, r) => (Error e, r)
      | (OK, (ctxs1, st1)) =>
          match open_loop (_fns st1) with
          | (Error e, fns') => (Error e, (ctxs1, set_fns st1 fns'))
          | (OK, fns') => (OK, (ctxs1, set_offset (set_fns st1 fns') (-1)))
          end
      end
  end.

End LocalSetup.

(** A factory for the samples: expressions and contexts are numbers, a
    negative expression has no tree, context 0 has no table function, and
    context [n] clones to [n + 10]. *)
Module SampleFactory.

#[global] Instance trees : ExprTreeFactory Z Z := {
  create_expr_tree := fun t => if t <? 0 then Failure 1 else Success t
}.

#[global] Instance functions : TableFunctionFactory Z ValueFunction := {
  clone := fun c => Success (c + 10);
  get_fn := fun c =>
    if c mod 10 =? 0 then Failure 2 else Success (Sample.fn false []);
  set_expr_context := fun f c => Sample.fn (fn_outer f) [[Value c]];
  fn_open := fun f => (OK, f)
}.

Definition operator0 : OperatorX.State Z ValueFunction :=
  {| OperatorX._vfn_ctxs := []; OperatorX._fns := [];
     OperatorX._fn_num := 0; OperatorX._output_slot_ids := [] |}.

Definition local0 : TableFunctionLocalState ValueFunction :=
  {| _fns := []; _child_block := []; _cur_child_offset := 0;
     _current_row_insert_times := 0; _child_eos := false; calls := [] |}.

End SampleFactory.

(** ** The functions the calls go to *)

(** With [n] functions: [get_value] goes to the last one,
    [get_same_many_values] to one of the others, every other call to one
    of the [n]. *)
Definition call_in_range (n : nat) (c : Call) : Prop :=
  match c with
  | call_get_value fn _ _ _ => S fn = n
  | call_get_same_many_values fn _ => (S fn < n)%nat
  | call_process_row fn _ | call_process_close fn
  | call_forward fn | call_reset fn | call_set_nullable fn => (fn < n)%nat
  end.

(** * Properties *)

(** Closes goals between concrete numbers. *)
Ltac arith := vm_compute; first [reflexivity | discriminate | lia | done].

Section OperatorFacts.

Context {F : Type} `{TableFunction F}.

(** *** The scan for the last function at its end *)

Lemma find_last_fn_eos_loop_spec p (fns : list F) (n : nat) :
  (find_last_fn_eos_loop p fns n = 0
   /\ forall j, (j < n)%nat -> eos (fns !!! j) = true)
  \/ exists m, (m < n)%nat
       /\ eos (fns !!! m) = false
       /\ (forall j, (m < j < n)%nat -> eos (fns !!! j) = true)
       /\ find_last_fn_eos_loop p fns n
          = if Z.of_nat m =? _fn_num p - 1 then -1 else Z.of_nat m + 1.
Proof.
  induction n as [|i IH]; simpl.
  - left. split; [done | intros j Hj; lia].
  - destruct (eos (fns !!! i)) eqn:Hi; simpl.
    + destruct IH as [[Hr Hall] | (m & Hm & Hem & Hall & Hr)].
      * left. split; [done |]. intros j Hj.
        destruct (decide (j = i)) as [-> | Hne]; [done | apply Hall; lia].
      * right. exists m. split; [lia |]. split; [done |]. split; [| done].
        intros j Hj.
        destruct (decide (j = i)) as [-> | Hne]; [done | apply Hall; lia].
    + right. exists i. split; [lia |]. split; [done |]. split; [| done].
      intros j Hj; lia.
Qed.

(** C2. [_find_last_fn_eos_idx] over [_fn_num >= 1] functions: -1 when
    the last function is not at its end, 0 when every function is at its
    end, and [k] with [0 < k < _fn_num] exactly when the functions [k] to
    [_fn_num - 1] are at their end and function [k - 1] is not. *)
Theorem find_last_fn_eos_idx_spec p (st : TableFunctionLocalState F) :
  fns_ok p st ->
  (eos (_fns st !!! Z.to_nat (_fn_num p - 1)) = false ->
   _find_last_fn_eos_idx p st = -1)
  /\ ((forall j, 0 <= j < _fn_num p -> eos (_fns st !!! Z.to_nat j) = true) ->
      _find_last_fn_eos_idx p st = 0)
  /\ (forall k, 0 < k < _fn_num p ->
      (_find_last_fn_eos_idx p st = k
       <-> (forall j, k <= j < _fn_num p -> eos (_fns st !!! Z.to_nat j) = true)
           /\ eos (_fns st !!! Z.to_nat (k - 1)) = false)).
Proof.
  intros [Hn Hpos]. unfold _find_last_fn_eos_idx.
  destruct (find_last_fn_eos_loop_spec p (_fns st) (Z.to_nat (_fn_num p)))
    as [[Hr Hall] | (m & Hm & Hem & Hall & Hr)]; rewrite Hr.
  - split; [| split].
    + intros Hlast. rewrite Hall in Hlast by lia. done.
    + done.
    + intros k Hk. split; [lia |]. intros [_ Hk1].
      rewrite Hall in Hk1 by lia. done.
  - split; [| split].
    + intros Hlast.
      destruct (Z.eqb_spec (Z.of_nat m) (_fn_num p - 1)) as [_ | Hne]; [done |].
      rewrite (Hall (Z.to_nat (_fn_num p - 1))) in Hlast by lia. done.
    + intros Hall'. specialize (Hall' (Z.of_nat m)).
      rewrite Nat2Z.id, Hem in Hall'. discriminate Hall'. lia.
    + intros k Hk.
      destruct (Z.eqb_spec (Z.of_nat m) (_fn_num p - 1)) as [Hlast | Hne].
      * split; [lia |]. intros [Hge _].
        specialize (Hge (Z.of_nat m)). rewrite Nat2Z.id, Hem in Hge.
        discriminate Hge. lia.
      * split.
        -- intros <-. split.
           ++ intros j Hj. apply Hall. lia.
           ++ replace (Z.to_nat (Z.of_nat m + 1 - 1)) with m by lia. done.
        -- intros [Hge Hk1].
           destruct (Z_lt_le_dec (Z.of_nat m) (k - 1)) as [Hlt | Hle].
           ++ rewrite Hall in Hk1 by lia. done.
           ++ destruct (Z.eq_dec (Z.of_nat m) (k - 1)) as [Heq | Hneq]; [lia |].
              specialize (Hge (Z.of_nat m)). rewrite Nat2Z.id, Hem in Hge.
              discriminate Hge. lia.
Qed.

(** *** Rolling *)

Lemma roll_forward_loop_spec (st : TableFunctionLocalState F) (n : nat) :
  (n <= length (_fns st))%nat ->
  let st' := (roll_forward_loop st n).1 in
  let i := (roll_forward_loop st n).2 in
  -1 <= i < Z.of_nat n
  /\ (forall j, _fns st' !! j
        = if bool_decide (i <= Z.of_nat j < Z.of_nat n)
          then forward <$> _fns st !! j else _fns st !! j)
  /\ (forall j, i < Z.of_nat j < Z.of_nat n ->
        eos (forward (_fns st !!! j)) = true)
  /\ (0 <= i -> eos (forward (_fns st !!! Z.to_nat i)) = false)
  /\ calls st' = calls st
       ++ map call_forward (rev (seq (Z.to_nat i) (n - Z.to_nat i)))
  /\ _child_block st' = _child_block st
  /\ _cur_child_offset st' = _cur_child_offset st
  /\ _current_row_insert_times st' = _current_row_insert_times st
  /\ _child_eos st' = _child_eos st.
Proof.
  revert st. induction n as [|i IH]; intros st Hlen; simpl.
  - split; [lia |]. split.
    { intros j. rewrite bool_decide_eq_false_2 by lia. done. }
    split; [intros j Hj; lia |]. split; [lia |].
    rewrite app_nil_r. done.
  - assert (Hi : alter forward i (_fns st) !!! i = forward (_fns st !!! i)).
    { apply list_lookup_total_alter_eq. lia. }
    destruct (eos (alter forward i (_fns st) !!! i)) eqn:He; simpl.
    + specialize (IH (fn_forward i st)).
      destruct (roll_forward_loop (fn_forward i st) i) as [st' r] eqn:Hloop.
      simpl in *. rewrite length_alter in IH.
      destruct IH as (Hr & Hfns & Hall & Hfound & Hcalls & Hframe); [lia |].
      split; [lia |]. split.
      { intros j. rewrite Hfns.
        destruct (decide (j = i)) as [-> | Hne].
        - rewrite bool_decide_eq_false_2 by lia.
          rewrite bool_decide_eq_true_2 by lia.
          apply list_lookup_alter_eq.
        - rewrite list_lookup_alter_ne by done.
          repeat case_bool_decide; (done || lia). }
      split.
      { intros j Hj. destruct (decide (j = i)) as [-> | Hne].
        - by rewrite <- Hi.
        - rewrite <- (Hall j) by lia.
          by rewrite list_lookup_total_alter_ne. }
      split.
      { intros Hr0. rewrite <- Hfound by done.
        rewrite list_lookup_total_alter_ne by lia. done. }
      split; [| done].
      rewrite Hcalls, <- app_assoc. f_equal.
      replace (S i - Z.to_nat r)%nat with (i - Z.to_nat r + 1)%nat by lia.
      rewrite seq_app, rev_app_distr.
      replace (Z.to_nat r + (i - Z.to_nat r))%nat with i by lia.
      done.
    + split; [lia |]. split.
      { intros j. destruct (decide (j = i)) as [-> | Hne].
        - rewrite bool_decide_eq_true_2 by lia. apply list_lookup_alter_eq.
        - rewrite bool_decide_eq_false_2 by lia.
          by apply list_lookup_alter_ne. }
      split; [intros j Hj; lia |]. split.
      { intros _. rewrite Nat2Z.id, <- Hi. done. }
      split; [| done].
      rewrite Nat2Z.id. replace (S i - i)%nat with 1%nat by lia. done.
Qed.

Lemma roll_reset_loop_spec (st : TableFunctionLocalState F) (j0 cnt : nat) :
  let st' := roll_reset_loop st j0 cnt in
  (forall j, _fns st' !! j
     = if bool_decide (j0 <= j < j0 + cnt)%nat
       then reset <$> _fns st !! j else _fns st !! j)
  /\ calls st' = calls st ++ map call_reset (seq j0 cnt)
  /\ _child_block st' = _child_block st
  /\ _cur_child_offset st' = _cur_child_offset st
  /\ _current_row_insert_times st' = _current_row_insert_times st
  /\ _child_eos st' = _child_eos st.
Proof.
  revert st j0. induction cnt as [|cnt IH]; intros st j0; simpl.
  - split.
    { intros j. rewrite bool_decide_eq_false_2 by lia. done. }
    rewrite app_nil_r. done.
  - destruct (IH (fn_reset j0 st) (S j0)) as (Hfns & Hcalls & Hframe).
    split.
    { intros j. rewrite Hfns. simpl.
      destruct (decide (j = j0)) as [-> | Hne].
      - rewrite bool_decide_eq_false_2 by lia.
        rewrite bool_decide_eq_true_2 by lia.
        apply list_lookup_alter_eq.
      - rewrite list_lookup_alter_ne by done.
        repeat case_bool_decide; (done || lia). }
    split; [| done].
    rewrite Hcalls. simpl. rewrite <- app_assoc. done.
Qed.

(** The two outcomes of a roll. *)
Lemma roll_table_functions_cases p (st : TableFunctionLocalState F) (k : Z) :
  fns_ok p st ->
  0 < k < _fn_num p ->
  let st' := (_roll_table_functions p st k).1 in
  let ok := (_roll_table_functions p st k).2 in
  ((forall j, (j < Z.to_nat k)%nat -> eos (forward (_fns st !!! j)) = true)
   /\ ok = false
   /\ _fns st' = imap (forwarded (Z.to_nat k)) (_fns st)
   /\ calls st' = calls st ++ map call_forward (rev (seq 0 (Z.to_nat k))))
  \/ (exists i : nat,
        (i < Z.to_nat k)%nat
        /\ eos (forward (_fns st !!! i)) = false
        /\ (forall j, (i < j < Z.to_nat k)%nat ->
              eos (forward (_fns st !!! j)) = true)
        /\ ok = true
        /\ _fns st' = imap (rolled i (Z.to_nat k)) (_fns st)
        /\ calls st' = calls st
             ++ map call_forward (rev (seq i (Z.to_nat k - i)))
             ++ map call_reset (seq (S i) (length (_fns st) - S i))).
Proof.
  intros [Hn Hpos] Hk. unfold _roll_table_functions.
  destruct (Z.leb_spec k 0) as [Hle | _]; [lia |].
  pose proof (roll_forward_loop_spec st (Z.to_nat k)) as Hloop.
  destruct (roll_forward_loop st (Z.to_nat k)) as [st1 i] eqn:Heq.
  simpl in Hloop.
  destruct Hloop as (Hi & Hfns & Hall & Hfound & Hcalls & _); [lia |].
  destruct (Z.eqb_spec i (-1)) as [-> | Hne]; simpl.
  - left. split.
    { intros j Hj. apply Hall. lia. }
    split; [done |]. split; [| by rewrite Hcalls, Nat.sub_0_r].
    apply list_eq. intros j. rewrite Hfns, list_lookup_imap.
    unfold forwarded.
    destruct (Nat.ltb_spec j (Z.to_nat k)).
    + rewrite bool_decide_eq_true_2 by lia. done.
    + rewrite bool_decide_eq_false_2 by lia. by destruct (_ !! j).
  - right. exists (Z.to_nat i). split; [lia |].
    split; [apply Hfound; lia |]. split.
    { intros j Hj. apply Hall. lia. }
    split; [done |].
    destruct (roll_reset_loop_spec st1 (Z.to_nat (i + 1))
                (Z.to_nat (_fn_num p - (i + 1)))) as (Hfns' & Hcalls' & _).
    split.
    + apply list_eq. intros j. rewrite Hfns', Hfns, list_lookup_imap.
      unfold rolled.
      destruct (Nat.ltb_spec j (Z.to_nat i)); [| destruct (Nat.eqb_spec j (Z.to_nat i));
        [| destruct (Nat.ltb_spec j (Z.to_nat k))]];
        repeat case_bool_decide; try lia; destruct (_fns st !! j) eqn:Hj; try done.
      apply lookup_lt_Some in Hj. lia.
    + rewrite Hcalls', Hcalls, <- app_assoc.
      replace (Z.to_nat (i + 1)) with (S (Z.to_nat i)) by lia.
      replace (Z.to_nat (_fn_num p - (i + 1)))
        with (length (_fns st) - S (Z.to_nat i))%nat by lia.
      done.
Qed.

(** C3. [_roll_table_functions] at a pivot [k], [0 < k < _fn_num]:
    function [k - 1] is forwarded and, as long as the forwarded function
    is at its end, the next lower one is.  When every function down to 0
    ends up at its end the result is false and no function was reset;
    otherwise the loop stops at the first [i] whose function is not at
    its end after forwarding, every function above [i] is reset, and the
    result is true. *)
Theorem roll_table_functions_spec p (st : TableFunctionLocalState F) (k : Z) :
  fns_ok p st ->
  0 < k < _fn_num p ->
  let st' := (_roll_table_functions p st k).1 in
  let ok := (_roll_table_functions p st k).2 in
  ((forall j, (j < Z.to_nat k)%nat -> eos (forward (_fns st !!! j)) = true)
   /\ ok = false
   /\ _fns st' = imap (forwarded (Z.to_nat k)) (_fns st)
   /\ calls st' = calls st ++ map call_forward (rev (seq 0 (Z.to_nat k))))
  \/ (exists i : nat,
        (i < Z.to_nat k)%nat
        /\ eos (forward (_fns st !!! i)) = false
        /\ (forall j, (i < j < Z.to_nat k)%nat ->
              eos (forward (_fns st !!! j)) = true)
        /\ ok = true
        /\ _fns st' = imap (rolled i (Z.to_nat k)) (_fns st)
        /\ calls st' = calls st
             ++ map call_forward (rev (seq i (Z.to_nat k - i)))
             ++ map call_reset (seq (S i) (length (_fns st) - S i))).
Proof. apply roll_table_functions_cases. Qed.

End OperatorFacts.

Lemma find_last_fn_eos_idx_spec_witness :
  fns_ok Sample.p2 Sample.st_AB
  /\ (eos (_fns Sample.st_AB !!! Z.to_nat (_fn_num Sample.p2 - 1)) = false ->
      _find_last_fn_eos_idx Sample.p2 Sample.st_AB = -1).
Proof.
  assert (Hok : fns_ok Sample.p2 Sample.st_AB) by (split; arith).
  split; [exact Hok |].
  exact (proj1 (find_last_fn_eos_idx_spec Sample.p2 Sample.st_AB Hok)).
Defined.

Lemma roll_table_functions_spec_witness :
  fns_ok Sample.p2 Sample.st_AB
  /\ 0 < 1 < _fn_num Sample.p2
  /\ (_roll_table_functions Sample.p2 Sample.st_AB 1).2 = true.
Proof.
  assert (Hok : fns_ok Sample.p2 Sample.st_AB) by (split; arith).
  assert (Hk : 0 < 1 < _fn_num Sample.p2) by (split; arith).
  split; [exact Hok |]. split; [exact Hk |].
  destruct (roll_table_functions_spec Sample.p2 Sample.st_AB 1 Hok Hk)
    as [(_ & Hfalse & _) | (i & _ & _ & _ & Htrue & _)].
  - vm_compute in Hfalse. discriminate Hfalse.
  - exact Htrue.
Defined.

(** *** Updating several columns *)

Lemma fold_alter_length {A} (g : nat -> A -> A) (idxs : list nat) (l : list A) :
  length (fold_left (fun cols i => alter (g i) i cols) idxs l) = length l.
Proof.
  revert l. induction idxs as [|i idxs IH]; intros l; simpl; [done |].
  by rewrite IH, length_alter.
Qed.

Lemma fold_alter_lookup {A} (g : nat -> A -> A) (idxs : list nat)
    (l : list A) (k : nat) :
  NoDup idxs ->
  fold_left (fun cols i => alter (g i) i cols) idxs l !! k
  = if decide (k ∈ idxs) then g k <$> l !! k else l !! k.
Proof.
  revert l. induction idxs as [|i idxs IH]; intros l Hnd; cbn [fold_left].
  - destruct (decide (k ∈ [])) as [Hin | _]; [| done].
    by apply elem_of_nil in Hin.
  - pose proof (NoDup_cons_1_1 _ _ Hnd) as Hi.
    apply NoDup_cons_1_2 in Hnd. rewrite IH by done.
    destruct (decide (k = i)) as [-> | Hne].
    + destruct (decide (i ∈ idxs)); [done |].
      destruct (decide (i ∈ i :: idxs)) as [_ | Hnin].
      * apply list_lookup_alter_eq.
      * exfalso. apply Hnin, list_elem_of_here.
    + rewrite list_lookup_alter_ne by done.
      destruct (decide (k ∈ idxs)) as [Hin | Hnin];
        destruct (decide (k ∈ i :: idxs)) as [Hin' | Hnin']; try done.
      * exfalso. by apply Hnin', list_elem_of_further.
      * apply elem_of_cons in Hin' as [? | ?]; done.
Qed.

Lemma fold_alter_lookup_total `{Inhabited A} (g : nat -> A -> A)
    (idxs : list nat) (l : list A) (k : nat) :
  NoDup idxs -> (k < length l)%nat ->
  fold_left (fun cols i => alter (g i) i cols) idxs l !!! k
  = if decide (k ∈ idxs) then g k (l !!! k) else l !!! k.
Proof.
  intros Hnd Hk. destruct (lookup_lt_is_Some_2 l k Hk) as [x Hx].
  rewrite (list_lookup_total_correct l k x Hx).
  apply list_lookup_total_correct.
  rewrite fold_alter_lookup, Hx by done. by destruct (decide _).
Qed.

Lemma slot_indexs_spec (f : nat -> bool) (n k : nat) :
  k ∈ List.filter f (seq 0 n) <-> (k < n)%nat /\ f k = true.
Proof.
  rewrite list_elem_of_In, filter_In, in_seq.
  split; intros [? ?]; split; (lia || done).
Qed.

Lemma slot_indexs_NoDup (f : nat -> bool) (n : nat) :
  NoDup (List.filter f (seq 0 n)).
Proof.
  apply NoDup_ListNoDup, List.NoDup_filter, List.seq_NoDup.
Qed.

Lemma to_size_t_small (z : Z) : 0 <= z < 2 ^ 64 -> to_size_t z = z.
Proof. intros Hz. unfold to_size_t. by apply Z.mod_small. Qed.

Lemma to_int_small (z : Z) : 0 <= z < 2 ^ 31 -> to_int z = z.
Proof.
  intros Hz. unfold to_int. rewrite Z.mod_small; lia.
Qed.

Section FlushFacts.

Context {F : Type} `{TableFunction F}.

(** *** The flush of the pending count *)

Lemma copy_output_slots_frame p (st : TableFunctionLocalState F) columns :
  let st' := (_copy_output_slots p st columns).1 in
  _fns st' = _fns st
  /\ _child_block st' = _child_block st
  /\ _cur_child_offset st' = _cur_child_offset st
  /\ _current_row_insert_times st' = 0
  /\ _child_eos st' = _child_eos st
  /\ calls st' = calls st.
Proof.
  unfold _copy_output_slots.
  destruct (Z.eqb_spec (_current_row_insert_times st) 0); simpl; done.
Qed.

Lemma copy_output_slots_length p (st : TableFunctionLocalState F) columns :
  length (_copy_output_slots p st columns).2 = length columns.
Proof.
  unfold _copy_output_slots.
  destruct (Z.eqb_spec (_current_row_insert_times st) 0); simpl; [done |].
  apply fold_alter_length.
Qed.

(** After the flush a needed column holds the pending copies of the
    cell of the bound row, any other column is as before. *)
Lemma copy_output_slots_lookup p (st : TableFunctionLocalState F) columns k :
  (k < length columns)%nat ->
  (_copy_output_slots p st columns).2 !!! k
  = if decide ((k < _child_slots p)%nat /\ _slot_need_copy p k = true)
    then insert_many_from (columns !!! k) (_child_block st !!! k)
           (_cur_child_offset st) (_current_row_insert_times st)
    else columns !!! k.
Proof.
  intros Hk. unfold _copy_output_slots.
  destruct (Z.eqb_spec (_current_row_insert_times st) 0) as [Hz | Hnz]; simpl.
  - destruct (decide _); [| done].
    unfold insert_many_from. rewrite Hz. simpl. by rewrite app_nil_r.
  - rewrite (fold_alter_lookup_total
               (fun i c => insert_many_from c (_child_block st !!! i)
                             (_cur_child_offset st)
                             (_current_row_insert_times st)))
      by (done || apply slot_indexs_NoDup).
    unfold _output_slot_indexs.
    destruct (decide (k ∈ _)) as [Hin | Hnin];
      rewrite slot_indexs_spec in *; destruct (decide _); done.
Qed.

(** C10. [_copy_output_slots] leaves the state and every column as they
    are when the pending count is zero, and leaves the pending count at
    zero; a second flush right after a first one changes nothing. *)
Theorem copy_output_slots_idempotent p (st : TableFunctionLocalState F)
    (columns : list Column) :
  (_current_row_insert_times st = 0 ->
   _copy_output_slots p st columns = (st, columns))
  /\ _current_row_insert_times (_copy_output_slots p st columns).1 = 0
  /\ _copy_output_slots p (_copy_output_slots p st columns).1
                          (_copy_output_slots p st columns).2
     = _copy_output_slots p st columns.
Proof.
  assert (Hzero : forall (s : TableFunctionLocalState F) c,
            _current_row_insert_times s = 0 -> _copy_output_slots p s c = (s, c)).
  { intros s c Hs. unfold _copy_output_slots. by rewrite Hs. }
  assert (Hafter : _current_row_insert_times (_copy_output_slots p st columns).1 = 0)
    by apply copy_output_slots_frame.
  split; [apply Hzero |]. split; [exact Hafter |].
  rewrite (Hzero _ _ Hafter). by destruct (_copy_output_slots p st columns).
Qed.

(** *** Moving to the next child row *)

Lemma process_next_child_row_length (st : TableFunctionLocalState F) :
  length (_fns (process_next_child_row st)) = length (_fns st).
Proof.
  unfold process_next_child_row.
  destruct (_ >=? _); simpl; by rewrite length_map.
Qed.

(** C7, as the code has it.  [process_next_child_row] calls
    [process_close] on every function exactly when the row it leaves is
    the last row of the child block; when another row follows, it binds
    every function to that row with [process_row] and closes nothing. *)
Theorem process_next_child_row_calls (st : TableFunctionLocalState F) :
  -1 <= _cur_child_offset st < 2 ^ 63 ->
  let st' := process_next_child_row st in
  let next := _cur_child_offset st + 1 in
  (rows (_child_block st) <= next ->
   _cur_child_offset st' = -1
   /\ _fns st' = map process_close (_fns st)
   /\ _child_block st' = clear_column_data (_child_block st)
   /\ calls st' = calls st
        ++ map call_process_close (seq 0 (length (_fns st))))
  /\ (next < rows (_child_block st) ->
      _cur_child_offset st' = next
      /\ _fns st' = map (fun f => process_row f next) (_fns st)
      /\ _child_block st' = _child_block st
      /\ calls st' = calls st
           ++ map (fun i => call_process_row i next)
                  (seq 0 (length (_fns st)))).
Proof.
  intros Hoff. unfold process_next_child_row.
  rewrite to_size_t_small by lia.
  destruct (Z.geb_spec (_cur_child_offset st + 1) (rows (_child_block st)));
    simpl; split; intros; (lia || done).
Qed.

End FlushFacts.

(** C7 fails as stated: the operator leaves row 0 of a block of two rows
    for row 1 and closes no function. *)
Lemma process_next_child_row_no_close :
  _cur_child_offset Sample.st_AB = 0
  /\ _cur_child_offset (process_next_child_row Sample.st_AB) = 1
  /\ closes (calls (process_next_child_row Sample.st_AB)) = [].
Proof. repeat split. Qed.

Lemma process_next_child_row_calls_witness :
  -1 <= _cur_child_offset Sample.st_AB < 2 ^ 63
  /\ (_cur_child_offset Sample.st_AB + 1 < rows (_child_block Sample.st_AB) ->
      _cur_child_offset (process_next_child_row Sample.st_AB)
      = _cur_child_offset Sample.st_AB + 1).
Proof.
  assert (Hoff : -1 <= _cur_child_offset Sample.st_AB < 2 ^ 63) by (split; arith).
  split; [exact Hoff |]. intros Hnext.
  exact (proj1 (proj2 (process_next_child_row_calls Sample.st_AB Hoff) Hnext)).
Defined.

(** *** Growth of the log *)

Section LogFacts.

Context {F : Type} `{TableFunction F}.

Implicit Types st : TableFunctionLocalState F.

Lemma extends_refl Q st : extends Q st st.
Proof. exists []. by rewrite app_nil_r. Qed.

Lemma extends_same Q st st' : calls st' = calls st -> extends Q st st'.
Proof. intros Hc. exists []. by rewrite app_nil_r. Qed.

Lemma extends_trans Q st1 st2 st3 :
  extends Q st1 st2 -> extends Q st2 st3 -> extends Q st1 st3.
Proof.
  intros (n1 & H1 & Q1) (n2 & H2 & Q2). exists (n1 ++ n2).
  split; [by rewrite H2, H1, app_assoc | by apply Forall_app].
Qed.

Lemma extends_weaken (Q Q' : Call -> Prop) st st' :
  (forall c, Q c -> Q' c) -> extends Q st st' -> extends Q' st st'.
Proof.
  intros HQ (new & Hc & Hnew). exists new. split; [done |].
  eapply Forall_impl; eauto.
Qed.

Lemma quiet_ok_max_step bs c : quiet c -> ok_max_step bs c.
Proof. by destruct c. Qed.

Lemma roll_table_functions_frame p st k :
  let st' := (_roll_table_functions p st k).1 in
  _child_block st' = _child_block st
  /\ _cur_child_offset st' = _cur_child_offset st
  /\ _current_row_insert_times st' = _current_row_insert_times st
  /\ _child_eos st' = _child_eos st
  /\ length (_fns st') = length (_fns st)
  /\ extends quiet st st'.
Proof.
  unfold _roll_table_functions.
  assert (Hfwd : forall n s,
    let s' := (roll_forward_loop s n).1 in
    _child_block s' = _child_block s
    /\ _cur_child_offset s' = _cur_child_offset s
    /\ _current_row_insert_times s' = _current_row_insert_times s
    /\ _child_eos s' = _child_eos s
    /\ length (_fns s') = length (_fns s)
    /\ extends quiet s s').
  { induction n as [|i IH]; intros s; simpl.
    - repeat split; try done. apply extends_refl.
    - assert (Hstep : extends quiet s (fn_forward i s)).
      { exists [call_forward i]. split; [done |]. by repeat constructor. }
      destruct (eos _); simpl.
      + destruct (IH (fn_forward i s)) as (? & ? & ? & ? & Hl & Hx).
        simpl in Hl. rewrite length_alter in Hl.
        repeat split; try done. by eapply extends_trans.
      + rewrite length_alter. by repeat split. }
  assert (Hrst : forall cnt j s,
    let s' := roll_reset_loop s j cnt in
    _child_block s' = _child_block s
    /\ _cur_child_offset s' = _cur_child_offset s
    /\ _current_row_insert_times s' = _current_row_insert_times s
    /\ _child_eos s' = _child_eos s
    /\ length (_fns s') = length (_fns s)
    /\ extends quiet s s').
  { induction cnt as [|cnt IH]; intros j s; simpl.
    - repeat split; try done. apply extends_refl.
    - destruct (IH (S j) (fn_reset j s)) as (? & ? & ? & ? & Hl & Hx).
      simpl in Hl. rewrite length_alter in Hl.
      repeat split; try done.
      eapply extends_trans; [| exact Hx].
      exists [call_reset j]. split; [done |]. by repeat constructor. }
  destruct (k <=? 0).
  - destruct (k - 1 =? -1); simpl.
    + repeat split; try done. apply extends_refl.
    + apply Hrst.
  - specialize (Hfwd (Z.to_nat k) st).
    destruct (roll_forward_loop st (Z.to_nat k)) as [st1 i]. simpl in Hfwd.
    destruct Hfwd as (? & ? & ? & ? & Hl & Hx).
    destruct (i =? -1); simpl; [done |].
    destruct (Hrst (Z.to_nat (_fn_num p - (i + 1))) (Z.to_nat (i + 1)) st1)
      as (? & ? & ? & ? & Hl' & Hx').
    repeat split; try congruence. by eapply extends_trans.
Qed.

Lemma process_next_child_row_frame st :
  let st' := process_next_child_row st in
  _current_row_insert_times st' = _current_row_insert_times st
  /\ _child_eos st' = _child_eos st
  /\ length (_fns st') = length (_fns st)
  /\ extends (fun c => is_bind_call c = true) st st'.
Proof.
  unfold process_next_child_row. destruct (_ >=? _); simpl;
    rewrite length_map; repeat split; eexists; (split; [done |]);
    apply Forall_forall; intros c Hc;
    apply list_elem_of_fmap in Hc as (i & -> & _); done.
Qed.

Lemma process_next_child_row_quiet st :
  extends quiet st (process_next_child_row st).
Proof.
  eapply extends_weaken; [| apply process_next_child_row_frame].
  by intros [].
Qed.

(** *** The test for an inner function without values *)

Lemma is_inner_and_empty_loop_spec (fns : list F) (i cnt : nat) :
  is_inner_and_empty_loop fns i cnt = true
  <-> exists j, (i <= j < i + cnt)%nat
        /\ is_outer (fns !!! j) = false /\ current_empty (fns !!! j) = true.
Proof.
  revert i. induction cnt as [|cnt IH]; intros i; simpl.
  - split; [done | intros (j & Hj & _); lia].
  - destruct (is_outer (fns !!! i)) eqn:Ho; simpl.
    + rewrite IH. split; intros (j & Hj & Hj1 & Hj2); exists j.
      * split; [lia | done].
      * split; [| done]. destruct (decide (j = i)) as [-> | ?]; [congruence | lia].
    + destruct (current_empty (fns !!! i)) eqn:Hc.
      * split; [| done]. intros _. exists i. split; [lia | done].
      * rewrite IH. split; intros (j & Hj & Hj1 & Hj2); exists j.
        -- split; [lia | done].
        -- split; [| done].
           destruct (decide (j = i)) as [-> | ?]; [congruence | lia].
Qed.

Lemma is_inner_and_empty_spec p st :
  fns_ok p st ->
  _is_inner_and_empty p st = true
  <-> exists j, (j < length (_fns st))%nat
        /\ is_outer (_fns st !!! j) = false
        /\ current_empty (_fns st !!! j) = true.
Proof.
  intros [Hn _]. unfold _is_inner_and_empty.
  rewrite is_inner_and_empty_loop_spec.
  split; intros (j & Hj & Hrest); exists j; (split; [lia | done]).
Qed.

End LogFacts.

(** *** Invariants of the loops *)

Section LoopFacts.

Context {F : Type} `{TableFunction F}.

Implicit Types st : TableFunctionLocalState F.

(** What holds before the loops and is kept by every pass through the
    body that the guard lets in holds wherever the loops stop. *)
Lemma inner_loop_invariant p bs
    (I : TableFunctionLocalState F -> list Column -> Prop) :
  (forall st columns skip,
     I st columns -> has_room p bs columns = true ->
     I (inner_body p bs st columns skip).2.1.1
       (inner_body p bs st columns skip).2.1.2) ->
  forall fuel st columns skip,
    I st columns ->
    I (outcome_value (inner_loop p bs fuel st columns skip)).1
      (outcome_value (inner_loop p bs fuel st columns skip)).2.
Proof.
  intros Hbody. induction fuel as [|fuel IH]; intros st columns skip HI; simpl.
  - done.
  - destruct (has_room p bs columns) eqn:Hroom; [| done].
    specialize (Hbody st columns skip HI Hroom).
    destruct (inner_body p bs st columns skip) as [fl [[st1 c1] skip1]].
    simpl in Hbody. destruct fl; simpl; auto.
Qed.

Lemma outer_loop_invariant p bs
    (I : TableFunctionLocalState F -> list Column -> Prop) :
  (forall st columns skip,
     I st columns -> has_room p bs columns = true ->
     I (inner_body p bs st columns skip).2.1.1
       (inner_body p bs st columns skip).2.1.2) ->
  forall fuel cancelled st columns,
    I st columns ->
    I (outcome_value (outer_loop p bs cancelled fuel st columns)).1
      (outcome_value (outer_loop p bs cancelled fuel st columns)).2.
Proof.
  intros Hbody.
  induction fuel as [|fuel IH]; intros cancelled st columns HI; simpl.
  - done.
  - destruct (has_room p bs columns); [| done].
    destruct (cancelled 0%nat); [| done].
    destruct (rows (_child_block st) =? 0); [done |].
    pose proof (inner_loop_invariant p bs I Hbody fuel st columns false HI) as Hin.
    destruct (inner_loop p bs fuel st columns false)
      as [[st1 c1] | [st1 c1] | e [st1 c1]];
      simpl in *; auto.
Qed.

(** The inner loop has no error to return. *)
Lemma inner_loop_not_failed p bs fuel :
  forall st columns skip e x,
    inner_loop p bs fuel st columns skip <> Failed e x.
Proof.
  induction fuel as [|fuel IH]; intros st columns skip e x; simpl; [done |].
  destruct (has_room p bs columns); [| done].
  destruct (inner_body p bs st columns skip) as [fl [[st1 c1] skip1]].
  destruct fl; done.
Qed.

(** *** The calls of one pass *)

Lemma copy_output_slots_other p st columns k :
  (_child_slots p <= k)%nat ->
  (_copy_output_slots p st columns).2 !!! k = columns !!! k.
Proof.
  intros Hk. unfold _copy_output_slots.
  destruct (_ =? 0); simpl; [done |].
  rewrite !list_lookup_total_alt.
  rewrite (fold_alter_lookup
             (fun i c => insert_many_from c (_child_block st !!! i)
                           (_cur_child_offset st)
                           (_current_row_insert_times st)))
    by apply slot_indexs_NoDup.
  destruct (decide _) as [Hin | _]; [| done].
  apply slot_indexs_spec in Hin. lia.
Qed.

Lemma advance_frame p st columns skip :
  let r := advance p st columns skip in
  extends quiet st r.1.2
  /\ length (_fns r.1.2) = length (_fns st)
  /\ length r.2 = length columns
  /\ forall k, (_child_slots p <= k)%nat -> r.2 !!! k = columns !!! k.
Proof.
  unfold advance.
  destruct ((_find_last_fn_eos_idx p st =? 0) || skip).
  - pose proof (copy_output_slots_frame p st columns) as (Hf & _ & _ & _ & _ & Hc).
    pose proof (copy_output_slots_length p st columns) as Hlen.
    pose proof (copy_output_slots_other p st columns) as Hother.
    destruct (_copy_output_slots p st columns) as [st1 c1]. simpl in *.
    pose proof (process_next_child_row_frame st1) as (_ & _ & Hl & _).
    pose proof (process_next_child_row_quiet st1) as Hq.
    assert (extends quiet st (process_next_child_row st1)).
    { eapply extends_trans; [by apply extends_same | done]. }
    destruct (_ =? -1); simpl; repeat split; (done || congruence).
  - destruct (_ && _).
    + pose proof (roll_table_functions_frame p st (_find_last_fn_eos_idx p st))
        as (_ & _ & _ & _ & Hl & Hq).
      destruct (_roll_table_functions p st _) as [st1 ok]. simpl in *.
      destruct ok; simpl; done.
    + simpl. repeat split; try done. apply extends_refl.
Qed.

Lemma get_same_many_values_loop_spec p st columns n i cnt :
  let r := get_same_many_values_loop p st columns n i cnt in
  _fns r.1 = _fns st
  /\ _child_block r.1 = _child_block st
  /\ _cur_child_offset r.1 = _cur_child_offset st
  /\ _current_row_insert_times r.1 = _current_row_insert_times st
  /\ _child_eos r.1 = _child_eos st
  /\ calls r.1 = calls st
       ++ map (fun j => call_get_same_many_values j n) (seq i cnt)
  /\ forall k, r.2 !! k
       = if bool_decide (i + _child_slots p <= k < i + cnt + _child_slots p)%nat
         then (fun c => get_same_many_values
                          (_fns st !!! (k - _child_slots p)%nat) c n)
              <$> columns !! k
         else columns !! k.
Proof.
  revert st columns i. induction cnt as [|cnt IH]; intros st columns i; simpl.
  - rewrite app_nil_r. repeat split; try done.
    intros k. rewrite bool_decide_eq_false_2 by lia. done.
  - destruct (IH (log st [call_get_same_many_values i n])
                (alter (fun c => get_same_many_values (_fns st !!! i) c n)
                       (i + _child_slots p)%nat columns) (S i))
      as (Hf & Hb & Ho & Ht & He & Hc & Hk).
    simpl in *. repeat split; try done.
    + rewrite Hc, <- app_assoc. done.
    + intros k. rewrite Hk.
      destruct (decide (k = (i + _child_slots p)%nat)) as [-> | Hne].
      * rewrite bool_decide_eq_false_2 by lia.
        rewrite bool_decide_eq_true_2 by lia.
        rewrite list_lookup_alter_eq.
        replace (i + _child_slots p - _child_slots p)%nat with i by lia. done.
      * rewrite list_lookup_alter_ne by done.
        repeat case_bool_decide; (done || lia).
Qed.

(** The calls of [emit]: one [get_value] on the last function, asked for
    the room left in the block, then [get_same_many_values] calls. *)
Lemma emit_calls p bs st columns :
  let last := Z.to_nat (_fn_num p - 1) in
  let max_step := bs - to_int (size (columns !!! _child_slots p)) in
  let ret := (get_value (_fns st !!! last)
                (columns !!! (_child_slots p + last)%nat) max_step).2 in
  calls (emit p bs st columns).1
  = calls st
    ++ call_get_value last (_cur_child_offset st) max_step ret
       :: map (fun j => call_get_same_many_values j ret) (seq 0 last).
Proof.
  unfold emit. simpl.
  destruct (get_value _ _ _) as [[f c] ret] eqn:Hgv. simpl.
  match goal with |- calls (get_same_many_values_loop ?p ?s ?c ?n ?i ?k).1 = _ =>
    destruct (get_same_many_values_loop_spec p s c n i k)
      as (_ & _ & _ & _ & _ & Hc & _) end.
  rewrite Hc. simpl. by rewrite <- app_assoc.
Qed.

Lemma inner_loop_unfold p bs fuel st columns skip :
  inner_loop p bs (S fuel) st columns skip
  = if has_room p bs columns then
      match inner_body p bs st columns skip with
      | (flow_break, (st1, columns1, _)) => Done (st1, columns1)
      | (_, (st1, columns1, skip1)) => inner_loop p bs fuel st1 columns1 skip1
      end
    else Done (st, columns).
Proof. done. Qed.

(** C4. A pass of the inner loop that reaches the test with the
    functions in state [st1]: when some function is not outer and has no
    value for the bound row, the pass ends there, with [skip_child_row]
    raised and state, log and columns as they were ([get_value] and
    [get_same_many_values] are not called).  The pass that follows, which
    the loop enters with the flag raised, flushes and leaves the row
    whatever [_find_last_fn_eos_idx] returns: when another row follows
    it binds every function to that row with [process_row] and goes on
    to the test for that row, otherwise it closes every function and the
    loop ends; the log gains these calls only, so no [forward] and no
    [reset].  A function without values that is outer does not trigger
    this: when every function without values is outer, the pass goes on
    to [get_value] on the last function and leaves the flag down. *)
Theorem inner_and_empty_skips p bs fuel st (columns : list Column) skip
    st1 (c1 : list Column) :
  fns_ok p st ->
  has_room p bs columns = true ->
  advance p st columns skip = (flow_next, st1, c1) ->
  -1 <= _cur_child_offset st1 < 2 ^ 63 ->
  let next := _cur_child_offset st1 + 1 in
  let flushed := (_copy_output_slots p st1 c1).2 in
  let bound :=
    {| _fns := map (fun f => process_row f next) (_fns st1);
       _child_block := _child_block st1;
       _cur_child_offset := next;
       _current_row_insert_times := 0;
       _child_eos := _child_eos st1;
       calls := calls st1
                ++ map (fun i => call_process_row i next)
                       (seq 0 (length (_fns st1))) |} in
  let closed :=
    {| _fns := map process_close (_fns st1);
       _child_block := clear_column_data (_child_block st1);
       _cur_child_offset := -1;
       _current_row_insert_times := 0;
       _child_eos := _child_eos st1;
       calls := calls st1
                ++ map call_process_close (seq 0 (length (_fns st1))) |} in
  ((exists i, (i < length (_fns st1))%nat
      /\ is_outer (_fns st1 !!! i) = false
      /\ current_empty (_fns st1 !!! i) = true) ->
   inner_body p bs st columns skip = (flow_continue, (st1, c1, true))
   /\ inner_body p bs st1 c1 true
      = (if next <? rows (_child_block st1)
         then (flow_continue, emit_or_skip p bs bound flushed)
         else (flow_break, (closed, flushed, true)))
   /\ inner_loop p bs (S (S fuel)) st columns skip
      = (if next <? rows (_child_block st1)
         then let r := emit_or_skip p bs bound flushed in
              inner_loop p bs fuel r.1.1 r.1.2 r.2
         else Done (closed, flushed)))
  /\ ((forall i, (i < length (_fns st1))%nat ->
         current_empty (_fns st1 !!! i) = true ->
         is_outer (_fns st1 !!! i) = true) ->
      let last := Z.to_nat (_fn_num p - 1) in
      let max_step := bs - to_int (size (c1 !!! _child_slots p)) in
      let ret := (get_value (_fns st1 !!! last)
                    (c1 !!! (_child_slots p + last)%nat) max_step).2 in
      inner_body p bs st columns skip
      = (flow_continue, (emit p bs st1 c1, false))
      /\ inner_loop p bs (S fuel) st columns skip
         = inner_loop p bs fuel (emit p bs st1 c1).1 (emit p bs st1 c1).2
             false
      /\ calls (emit p bs st1 c1).1
         = calls st1
           ++ call_get_value last (_cur_child_offset st1) max_step ret
              :: map (fun j => call_get_same_many_values j ret) (seq 0 last)).
Proof.
  intros Hok Hroom Hadv Hoff next flushed bound closed.
  pose proof (advance_frame p st columns skip) as (_ & Hl & _ & Hcol).
  cbv zeta in Hl, Hcol. rewrite Hadv in Hl, Hcol. simpl in Hl, Hcol.
  assert (Hok1 : fns_ok p st1).
  { destruct Hok as [Hn Hpos]. split; [lia | done]. }
  assert (Hroom1 : has_room p bs c1 = true).
  { unfold has_room in *. by rewrite Hcol. }
  split.
  - intros Hex. apply (is_inner_and_empty_spec p st1 Hok1) in Hex.
    assert (Hfirst : inner_body p bs st columns skip
                     = (flow_continue, (st1, c1, true))).
    { unfold inner_body. rewrite Hadv. unfold emit_or_skip. by rewrite Hex. }
    assert (Hsecond : inner_body p bs st1 c1 true
      = (if next <? rows (_child_block st1)
         then (flow_continue, emit_or_skip p bs bound flushed)
         else (flow_break, (closed, flushed, true)))).
    { unfold inner_body, advance. rewrite orb_true_r.
      pose proof (copy_output_slots_frame p st1 c1)
        as (Hf & Hb & Ho & Ht & He & Hc).
      subst flushed bound closed.
      destruct (_copy_output_slots p st1 c1) as [s2 c2]. simpl in *.
      unfold process_next_child_row. rewrite Hf, Hb, Ho, Ht, He, Hc.
      rewrite to_size_t_small by (subst next; lia).
      fold next.
      destruct (Z.geb_spec next (rows (_child_block st1)));
        destruct (Z.ltb_spec next (rows (_child_block st1))); try lia.
      - done.
      - cbn [_cur_child_offset].
        destruct (Z.eqb_spec next (-1)) as [? | _]; [subst next; lia |].
        done. }
    split; [done |]. split; [done |].
    rewrite inner_loop_unfold, Hroom, Hfirst. cbv beta iota.
    rewrite inner_loop_unfold, Hroom1, Hsecond.
    destruct (next <? rows (_child_block st1)); [| done].
    cbv zeta. by destruct (emit_or_skip p bs bound flushed) as [[s c] sk].
  - intros Hall last max_step ret.
    assert (Hno : _is_inner_and_empty p st1 = false).
    { destruct (_is_inner_and_empty p st1) eqn:He; [| done].
      apply (is_inner_and_empty_spec p st1 Hok1) in He as (j & Hj & Ho & Hc).
      rewrite Hall in Ho by done. done. }
    assert (Hfirst : inner_body p bs st columns skip
                     = (flow_continue, (emit p bs st1 c1, false))).
    { unfold inner_body. rewrite Hadv. unfold emit_or_skip. by rewrite Hno. }
    split; [done |]. split; [| exact (emit_calls p bs st1 c1)].
    rewrite inner_loop_unfold, Hroom, Hfirst.
    by destruct (emit p bs st1 c1) as [s c].
Qed.

Lemma emit_length p bs st columns :
  length (_fns (emit p bs st columns).1) = length (_fns st)
  /\ length (emit p bs st columns).2 = length columns.
Proof.
  unfold emit. simpl.
  destruct (get_value _ _ _) as [[f c] ret] eqn:Hgv. simpl.
  match goal with |- context [get_same_many_values_loop ?p ?s ?c ?n ?i ?k] =>
    destruct (get_same_many_values_loop_spec p s c n i k)
      as (Hf & _ & _ & _ & _ & _ & Hk) end.
  rewrite Hf. simpl. rewrite length_insert. split; [done |].
  match goal with |- length ?l = _ =>
    assert (Hlen : forall k, is_Some (l !! k)
                             <-> is_Some (<[(_child_slots p + Z.to_nat (_fn_num p - 1))%nat := c]> columns !! k)) end.
  { intros k. rewrite Hk. case_bool_decide; [| done].
    by rewrite fmap_is_Some. }
  rewrite <- (length_insert columns (_child_slots p + Z.to_nat (_fn_num p - 1)) c).
  apply Nat.le_antisymm; apply Nat.nlt_ge; intros Hlt.
  - destruct (lookup_lt_is_Some_2 _ _ Hlt) as [x Hx].
    assert (Hs : is_Some (<[(_child_slots p + Z.to_nat (_fn_num p - 1))%nat := c]> columns
                          !! length (<[(_child_slots p + Z.to_nat (_fn_num p - 1))%nat := c]> columns)))
      by (apply Hlen; eauto).
    apply lookup_lt_is_Some_1 in Hs. lia.
  - destruct (lookup_lt_is_Some_2 _ _ Hlt) as [x Hx].
    match goal with H : ?l !! length ?l' = Some x |- _ =>
      assert (Hs : is_Some (l' !! length l')) by (apply Hlen; eauto) end.
    apply lookup_lt_is_Some_1 in Hs. lia.
Qed.

Lemma inner_body_calls p bs st columns skip :
  0 <= bs < 2 ^ 31 ->
  has_room p bs columns = true ->
  extends (ok_max_step bs) st (inner_body p bs st columns skip).2.1.1.
Proof.
  intros Hbs Hroom. unfold inner_body.
  pose proof (advance_frame p st columns skip) as (Hq & _ & _ & Hcol).
  destruct (advance p st columns skip) as [[fl st1] c1]. simpl in *.
  assert (Hq' : extends (ok_max_step bs) st st1).
  { eapply extends_weaken; [apply quiet_ok_max_step | done]. }
  destruct fl; simpl; try done.
  unfold emit_or_skip. destruct (_is_inner_and_empty p st1); simpl; [done |].
  eapply extends_trans; [exact Hq' |].
  eexists. split; [apply emit_calls |].
  constructor.
  - simpl. rewrite Hcol by lia.
    unfold has_room in Hroom. apply Z.ltb_lt in Hroom.
    rewrite to_size_t_small in Hroom by lia.
    rewrite to_int_small; unfold size in *; lia.
  - apply Forall_forall. intros c Hc.
    apply list_elem_of_fmap in Hc as (j & -> & _). done.
Qed.

(** *** The head and the tail of the call *)

(** The loop at the head of the call tells functions that their column
    is nullable and does nothing else. *)
Lemma set_nullable_loop_spec p st (i cnt : nat) :
  let s := set_nullable_loop p st i cnt in
  _child_block s = _child_block st
  /\ _cur_child_offset s = _cur_child_offset st
  /\ _current_row_insert_times s = _current_row_insert_times st
  /\ _child_eos s = _child_eos st
  /\ length (_fns s) = length (_fns st)
  /\ calls s
     = calls st
       ++ map call_set_nullable
            (List.filter (fun j => _output_nullable p (j + _child_slots p)%nat)
               (seq i cnt)).
Proof.
  revert st i. induction cnt as [|cnt IH]; intros st i; simpl.
  - by rewrite app_nil_r.
  - destruct (IH (if _output_nullable p (i + _child_slots p)%nat
                  then fn_set_nullable i st else st) (S i))
      as (Hb & Ho & Ht & He & Hl & Hc).
    rewrite Hb, Ho, Ht, He, Hl, Hc.
    destruct (_output_nullable p (i + _child_slots p)%nat); simpl.
    + rewrite length_alter, <- app_assoc. done.
    + done.
Qed.

Lemma set_nullable_loop_extends (Q : Call -> Prop) p st :
  (forall j, (j < Z.to_nat (_fn_num p))%nat -> Q (call_set_nullable j)) ->
  extends Q st (set_nullable_loop p st 0 (Z.to_nat (_fn_num p))).
Proof.
  intros HQ.
  destruct (set_nullable_loop_spec p st 0 (Z.to_nat (_fn_num p)))
    as (_ & _ & _ & _ & _ & Hc).
  eexists. split; [exact Hc |].
  apply Forall_forall. intros c Hc'.
  apply list_elem_of_fmap in Hc' as (j & -> & Hj).
  apply list_elem_of_In, filter_In in Hj as [Hj _].
  apply in_seq in Hj. apply HQ. lia.
Qed.

(** The state the call ends in, however it ends, is the state the loops
    end in, but for the pending count. *)
Lemma get_expanded_block_state p bs cancelled fuel st (columns : list Column) :
  let st0 := set_nullable_loop p st 0 (Z.to_nat (_fn_num p)) in
  let r := outcome_value (outer_loop p bs cancelled fuel st0 columns) in
  let g := outcome_value (get_expanded_block p bs cancelled fuel st columns) in
  _fns g.1.1 = _fns r.1
  /\ _child_block g.1.1 = _child_block r.1
  /\ _cur_child_offset g.1.1 = _cur_child_offset r.1
  /\ _child_eos g.1.1 = _child_eos r.1
  /\ calls g.1.1 = calls r.1
  /\ length g.1.2 = length r.2.
Proof.
  cbv zeta. unfold get_expanded_block, assemble.
  destruct (outer_loop p bs cancelled fuel _ columns)
    as [[st1 c1] | [st1 c1] | e [st1 c1]]; simpl; [| done | done].
  unfold flush_and_pad.
  pose proof (copy_output_slots_frame p st1 c1) as (Hf & Hb & Ho & _ & He & Hc).
  pose proof (copy_output_slots_length p st1 c1) as Hlen.
  destruct (_copy_output_slots p st1 c1) as [st2 c2]. simpl in *.
  assert (Hpad : length (pad_useless_slots p c2) = length c1).
  { unfold pad_useless_slots. by rewrite fold_alter_length. }
  destruct (_conjuncts_status p (pad_useless_slots p c2)); simpl;
    [unfold filter_block; rewrite length_map |]; done.
Qed.

Lemma extends_calls (Q : Call -> Prop) st st1 st2 :
  calls st2 = calls st1 -> extends Q st st1 -> extends Q st st2.
Proof. intros Hc (new & Hnew & HQ). exists new. by rewrite Hc. Qed.

(** C9. Every [get_value] call of [get_expanded_block], however far the
    loops get, asks for [max_step = batch_size - (int) size] with
    [1 <= max_step <= batch_size]: the guard has the size below the
    capacity, so the cast to [int] is exact. *)
Theorem get_value_max_step_bounds p bs cancelled fuel st
    (columns : list Column) :
  0 <= bs < 2 ^ 31 ->
  extends (ok_max_step bs) st
    (outcome_value (get_expanded_block p bs cancelled fuel st columns)).1.1.
Proof.
  intros Hbs.
  pose proof (get_expanded_block_state p bs cancelled fuel st columns)
    as (_ & _ & _ & _ & Hcalls & _).
  cbv zeta in Hcalls. eapply extends_calls; [exact Hcalls |].
  set (st0 := set_nullable_loop p st 0 (Z.to_nat (_fn_num p))).
  assert (Hhead : extends (ok_max_step bs) st st0)
    by (by apply set_nullable_loop_extends).
  pose proof (outer_loop_invariant p bs
                (fun s _ => extends (ok_max_step bs) st s)) as Hloop.
  exact (Hloop
    (fun s c skip Hs Hroom =>
       extends_trans _ _ _ _ Hs (inner_body_calls p bs s c skip Hbs Hroom))
    fuel cancelled st0 columns Hhead).
Qed.

End LoopFacts.

(** On the sample, the only function has no value for row 0 and is
    not outer: the first pass raises the flag and calls nothing, the
    second binds row 1, and the first [get_value] is for row 1. *)
Lemma inner_and_empty_skips_witness :
  fns_ok Sample.p1 Sample.st_C
  /\ has_room Sample.p1 10 (empty_block Sample.p1) = true
  /\ advance Sample.p1 Sample.st_C (empty_block Sample.p1) false
     = (flow_next, Sample.st_C, empty_block Sample.p1)
  /\ -1 <= _cur_child_offset Sample.st_C < 2 ^ 63
  /\ inner_body Sample.p1 10 Sample.st_C (empty_block Sample.p1) false
     = (flow_continue, (Sample.st_C, empty_block Sample.p1, true))
  /\ calls (outcome_value
              (inner_loop Sample.p1 10 2 Sample.st_C (empty_block Sample.p1)
                 false)).1
     = [call_process_row 0 0; call_process_row 0 1; call_get_value 0 1 10 1].
Proof.
  assert (Hok : fns_ok Sample.p1 Sample.st_C) by (split; arith).
  assert (Hoff : -1 <= _cur_child_offset Sample.st_C < 2 ^ 63)
    by (split; arith).
  split; [exact Hok |]. split; [reflexivity |]. split; [reflexivity |].
  split; [exact Hoff |].
  pose proof (inner_and_empty_skips Sample.p1 10 0 Sample.st_C
                (empty_block Sample.p1) false Sample.st_C
                (empty_block Sample.p1) Hok eq_refl eq_refl Hoff) as Hskip.
  cbv zeta in Hskip.
  destruct Hskip as [Hskip _].
  destruct Hskip as (Hfirst & _ & Hloop).
  { exists 0%nat. split; [vm_compute; lia |]. split; reflexivity. }
  split; [exact Hfirst |].
  rewrite Hloop. reflexivity.
Defined.


Lemma get_value_max_step_bounds_witness :
  0 <= 4 < 2 ^ 31
  /\ extends (ok_max_step 4) Sample.st_AB
       (outcome_value
          (get_expanded_block Sample.p2 4 Sample.running 10 Sample.st_AB
             (empty_block Sample.p2))).1.1.
Proof.
  assert (Hbs : 0 <= 4 < 2 ^ 31) by (split; arith).
  split; [exact Hbs |].
  exact (get_value_max_step_bounds Sample.p2 4 Sample.running 10 Sample.st_AB
           (empty_block Sample.p2) Hbs).
Defined.

(** *** The shape of the block through a pass *)

Section ShapeFacts.

Context {F : Type} `{TableFunctionShape F}.

Implicit Types st : TableFunctionLocalState F.

Lemma size_insert_many_from c src pos n :
  0 <= n -> size (insert_many_from c src pos n) = size c + n.
Proof.
  intros Hn. unfold size, insert_many_from.
  rewrite length_app, length_replicate. lia.
Qed.

Lemma emit_spec p bs st columns :
  length columns = (_child_slots p + Z.to_nat (_fn_num p))%nat ->
  1 <= _fn_num p ->
  let last := Z.to_nat (_fn_num p - 1) in
  let max_step := bs - to_int (size (columns !!! _child_slots p)) in
  let gv := get_value (_fns st !!! last)
              (columns !!! (_child_slots p + last)%nat) max_step in
  let r := emit p bs st columns in
  _current_row_insert_times r.1 = _current_row_insert_times st + gv.2
  /\ _child_block r.1 = _child_block st
  /\ _cur_child_offset r.1 = _cur_child_offset st
  /\ _child_eos r.1 = _child_eos st
  /\ _fns r.1 = <[last := gv.1.1]> (_fns st)
  /\ (forall k, (k < _child_slots p)%nat -> r.2 !!! k = columns !!! k)
  /\ r.2 !!! (_child_slots p + last)%nat = gv.1.2
  /\ (forall i, (i < last)%nat ->
        r.2 !!! (_child_slots p + i)%nat
        = get_same_many_values (_fns st !!! i)
            (columns !!! (_child_slots p + i)%nat) gv.2).
Proof.
  intros Hlen Hn last max_step gv r. subst r. unfold emit.
  fold last. fold max_step. fold gv.
  destruct gv as [[f c] ret] eqn:Hgv. simpl.
  match goal with |- context [get_same_many_values_loop ?p ?s ?c ?n ?i ?k] =>
    destruct (get_same_many_values_loop_spec p s c n i k)
      as (Hf & Hb & Ho & Ht & He & _ & Hk) end.
  simpl in *. rewrite Hf, Hb, Ho, Ht, He.
  repeat split; try done.
  - intros k Hk'. rewrite !list_lookup_total_alt, Hk.
    rewrite bool_decide_eq_false_2 by lia.
    rewrite list_lookup_insert_ne by lia. done.
  - rewrite !list_lookup_total_alt, Hk.
    rewrite bool_decide_eq_false_2 by lia.
    rewrite list_lookup_insert_eq by lia. done.
  - intros i Hi. rewrite !list_lookup_total_alt, Hk.
    rewrite bool_decide_eq_true_2 by lia.
    rewrite (list_lookup_insert_ne columns) by lia.
    destruct (lookup_lt_is_Some_2 columns (_child_slots p + i)) as [x Hx]; [lia |].
    rewrite Hx. simpl. f_equal.
    replace (_child_slots p + i - _child_slots p)%nat with i by lia.
    rewrite list_lookup_total_insert_ne by lia.
    by rewrite list_lookup_total_alt.
Qed.

Lemma emit_shape p bs st columns n :
  1 <= _fn_num p ->
  pending_shape p st columns n ->
  let last := Z.to_nat (_fn_num p - 1) in
  let max_step := bs - to_int (size (columns !!! _child_slots p)) in
  let ret := (get_value (_fns st !!! last)
                (columns !!! (_child_slots p + last)%nat) max_step).2 in
  pending_shape p (emit p bs st columns).1 (emit p bs st columns).2 (n + ret)
  /\ 0 <= ret <= Z.max 1 max_step.
Proof.
  intros Hn (Hlen & Htimes & Hfn & Hneed) last max_step ret.
  destruct (emit_spec p bs st columns Hlen Hn)
    as (Ht & _ & _ & _ & _ & Hlow & Hlast & Hmid).
  fold last in Ht, Hlast, Hmid. fold max_step in Ht, Hlast, Hmid.
  fold ret in Ht, Hmid.
  assert (Hret : 0 <= ret) by apply get_value_count.
  split; [| split; [done | apply get_value_max]].
  split; [by rewrite (proj2 (emit_length p bs st columns)) |].
  split; [lia |]. split.
  - intros i Hi. destruct (decide (i = last)) as [-> | Hne].
    + rewrite Hlast, get_value_size. fold ret. rewrite Hfn by lia. done.
    + rewrite Hmid by lia.
      rewrite get_same_many_values_size by done. rewrite Hfn by lia. done.
  - intros k Hk Hneedk. rewrite Hlow, Ht by done.
    specialize (Hneed k Hk Hneedk). lia.
Qed.

Lemma advance_shape p st columns skip n :
  pending_shape p st columns n ->
  let r := advance p st columns skip in
  pending_shape p r.1.2 r.2 n
  /\ forall k, (k < _child_slots p)%nat -> _slot_need_copy p k = false ->
       r.2 !!! k = columns !!! k.
Proof.
  intros (Hlen & Htimes & Hfn & Hneed). unfold advance.
  destruct ((_find_last_fn_eos_idx p st =? 0) || skip).
  - pose proof (copy_output_slots_frame p st columns) as (_ & _ & _ & Ht & _).
    pose proof (copy_output_slots_length p st columns) as Hlen'.
    pose proof (copy_output_slots_lookup p st columns) as Hlook.
    destruct (_copy_output_slots p st columns) as [st1 c1]. simpl in *.
    pose proof (process_next_child_row_frame st1) as (Ht' & _).
    assert (Hshape : pending_shape p (process_next_child_row st1) c1 n).
    { split; [congruence |]. split; [lia |]. split.
      - intros i Hi. rewrite Hlook by lia.
        rewrite decide_False by lia. by apply Hfn.
      - intros k Hk Hneedk. rewrite Hlook by lia.
        rewrite decide_True by done.
        rewrite size_insert_many_from by done.
        rewrite Ht', Ht. specialize (Hneed k Hk Hneedk). lia. }
    assert (Huseless : forall k, (k < _child_slots p)%nat ->
              _slot_need_copy p k = false -> c1 !!! k = columns !!! k).
    { intros k Hk Hno. rewrite Hlook by lia.
      rewrite decide_False; [done |]. intros [_ Hyes]. congruence. }
    destruct (_ =? -1); simpl; done.
  - destruct (_ && _).
    + pose proof (roll_table_functions_frame p st (_find_last_fn_eos_idx p st))
        as (_ & _ & Ht & _).
      destruct (_roll_table_functions p st _) as [st1 ok]. simpl in *.
      assert (pending_shape p st1 columns n).
      { split; [done |]. split; [lia |]. split; [done |].
        intros k Hk Hneedk. rewrite Ht. by apply Hneed. }
      destruct ok; simpl; done.
    + simpl. done.
Qed.

(** One pass keeps the shape; the row count does not shrink, and stays
    within the capacity when the guard let the pass in. *)
Lemma inner_body_shape p bs st columns skip n :
  1 <= _fn_num p ->
  pending_shape p st columns n ->
  let r := inner_body p bs st columns skip in
  exists n',
    pending_shape p r.2.1.1 r.2.1.2 n'
    /\ n <= n'
    /\ (0 <= bs < 2 ^ 31 -> has_room p bs columns = true -> n' <= bs)
    /\ forall k, (k < _child_slots p)%nat -> _slot_need_copy p k = false ->
         r.2.1.2 !!! k = columns !!! k.
Proof.
  intros Hn Hshape. unfold inner_body.
  pose proof (advance_shape p st columns skip n Hshape) as [Hs Hu].
  pose proof (advance_frame p st columns skip) as (_ & _ & _ & Hcol).
  assert (Hroom : 0 <= bs < 2 ^ 31 -> has_room p bs columns = true -> n < bs).
  { intros Hbs Hroom. unfold has_room in Hroom. apply Z.ltb_lt in Hroom.
    rewrite to_size_t_small in Hroom by lia.
    destruct Hshape as (_ & _ & Hfn & _).
    specialize (Hfn 0%nat). rewrite Nat.add_0_r in Hfn.
    rewrite Hfn in Hroom by lia. done. }
  destruct (advance p st columns skip) as [[fl st1] c1]. simpl in *.
  assert (Hkeep : exists n',
    pending_shape p st1 c1 n' /\ n <= n'
    /\ (0 <= bs < 2 ^ 31 -> has_room p bs columns = true -> n' <= bs)
    /\ forall k, (k < _child_slots p)%nat -> _slot_need_copy p k = false ->
         c1 !!! k = columns !!! k).
  { exists n. split; [done |]. split; [lia |]. split; [| done].
    intros Hbs Hr. specialize (Hroom Hbs Hr). lia. }
  destruct fl; simpl; try done.
  unfold emit_or_skip. destruct (_is_inner_and_empty p st1); simpl; [done |].
  pose proof (emit_shape p bs st1 c1 n Hn Hs) as [Hs' Hret].
  destruct (emit_spec p bs st1 c1 (proj1 Hs) Hn) as (_ & _ & _ & _ & _ & Hlow & _).
  eexists. split; [exact Hs' |]. split; [lia |]. split.
  - intros Hbs Hr. specialize (Hroom Hbs Hr).
    rewrite (Hcol (_child_slots p)) in Hret by lia.
    assert (Hsz : size (columns !!! _child_slots p) = n).
    { destruct Hshape as (_ & _ & Hfn & _).
      specialize (Hfn 0%nat). rewrite Nat.add_0_r in Hfn. apply Hfn. lia. }
    assert (Hn0 : 0 <= n) by (rewrite <- Hsz; unfold size; lia).
    rewrite Hsz in Hret. rewrite to_int_small in Hret by lia.
    rewrite (Hcol (_child_slots p)) by lia.
    rewrite Hsz, to_int_small by lia. lia.
  - intros k Hk Hno. rewrite Hlow by done. by apply Hu.
Qed.

(** C6, as the code has it.  Wherever the loops of a fill call stand,
    the columns of the functions hold the same number of rows and every
    needed pass-through column holds that number less the pending count;
    after the flush the needed columns hold that number too. *)
Theorem pending_shape_kept p bs cancelled fuel st (columns : list Column)
    (n : Z) :
  1 <= _fn_num p ->
  pending_shape p st columns n ->
  let r := outcome_value (outer_loop p bs cancelled fuel st columns) in
  exists n',
    pending_shape p r.1 r.2 n'
    /\ pending_shape p (_copy_output_slots p r.1 r.2).1
         (_copy_output_slots p r.1 r.2).2 n'
    /\ _current_row_insert_times (_copy_output_slots p r.1 r.2).1 = 0.
Proof.
  intros Hn Hshape.
  pose proof (outer_loop_invariant p bs
                (fun s c => exists n', pending_shape p s c n')) as Hloop.
  destruct (Hloop
    (fun s c skip Hs Hroom =>
       match Hs with
       | ex_intro _ m Hm =>
           match inner_body_shape p bs s c skip m Hn Hm with
           | ex_intro _ m' (conj Hm' _) => ex_intro _ m' Hm'
           end
       end)
    fuel cancelled st columns (ex_intro _ n Hshape)) as [n' Hn'].
  simpl. exists n'. split; [done |].
  set (r := outcome_value (outer_loop p bs cancelled fuel st columns)) in *.
  pose proof (copy_output_slots_frame p r.1 r.2) as (_ & _ & _ & Ht & _).
  split; [| done].
  destruct Hn' as (Hlen & Htimes & Hfn & Hneed).
  pose proof (copy_output_slots_lookup p r.1 r.2) as Hlook.
  split; [by rewrite copy_output_slots_length |].
  split; [lia |]. split.
  - intros i Hi. rewrite Hlook by lia. rewrite decide_False by lia. by apply Hfn.
  - intros k Hk Hneedk. rewrite Hlook by lia. rewrite decide_True by done.
    rewrite size_insert_many_from by done. rewrite Ht.
    specialize (Hneed k Hk Hneedk). lia.
Qed.

End ShapeFacts.

#[global] Instance ValueFunction_shape : TableFunctionShape ValueFunction.
Proof.
  split.
  - intros f c m. simpl. lia.
  - intros f c m. simpl. unfold ValueFunction.emit_count.
    destruct (ValueFunction.empty f); lia.
  - intros f c m. simpl. unfold size, ValueFunction.emit_count.
    rewrite length_app.
    destruct (ValueFunction.empty f); simpl; [lia |].
    rewrite length_take, length_drop. lia.
  - intros f c n Hn. simpl. unfold size, ValueFunction.emit_repeated.
    rewrite length_app, length_replicate. lia.
Qed.

(** C6 fails as stated: after the first pass over the sample block the
    column of the last function holds three rows and the needed
    pass-through column none, three copies being pending. *)
Lemma needed_column_lags :
  let r := inner_body Sample.p2 10 Sample.st_AB (empty_block Sample.p2) false in
  _slot_need_copy Sample.p2 0 = true
  /\ size (r.2.1.2 !!! 3%nat) = 3
  /\ size (r.2.1.2 !!! 0%nat) = 0
  /\ _current_row_insert_times r.2.1.1 = 3.
Proof. repeat split. Qed.

Lemma pending_shape_kept_witness :
  1 <= _fn_num Sample.p2
  /\ pending_shape Sample.p2 Sample.st_AB (empty_block Sample.p2) 0
  /\ exists n',
       pending_shape Sample.p2
         (outcome_value (outer_loop Sample.p2 4 Sample.running 10 Sample.st_AB
                           (empty_block Sample.p2))).1
         (outcome_value (outer_loop Sample.p2 4 Sample.running 10 Sample.st_AB
                           (empty_block Sample.p2))).2 n'.
Proof.
  assert (Hn : 1 <= _fn_num Sample.p2) by arith.
  assert (Hs : pending_shape Sample.p2 Sample.st_AB (empty_block Sample.p2) 0).
  { split; [reflexivity |]. split; [arith |]. split.
    - intros i Hi. change (i < 2)%nat in Hi.
      destruct i as [|[|i]]; [reflexivity | reflexivity | lia].
    - intros k Hk _. change (k < 2)%nat in Hk.
      destruct k as [|[|k]]; [reflexivity | reflexivity | lia]. }
  split; [exact Hn |]. split; [exact Hs |].
  destruct (pending_shape_kept Sample.p2 4 Sample.running 10 Sample.st_AB
              (empty_block Sample.p2) 0 Hn Hs) as (n' & Hn' & _).
  exists n'. exact Hn'.
Defined.

(** *** The padding of the columns nobody reads *)

Section PaddingFacts.

Context {F : Type} `{TableFunctionShape F}.

Implicit Types st : TableFunctionLocalState F.

Lemma pad_useless_slots_length p columns :
  length (pad_useless_slots p columns) = length columns.
Proof. unfold pad_useless_slots. apply fold_alter_length. Qed.

Lemma pad_useless_slots_lookup p columns k :
  (k < length columns)%nat ->
  pad_useless_slots p columns !!! k
  = if decide ((k < _child_slots p)%nat /\ _slot_need_copy p k = false)
    then insert_many_defaults (columns !!! k)
           (to_size_t (size (columns !!! _child_slots p) - size (columns !!! k)))
    else columns !!! k.
Proof.
  intros Hk. unfold pad_useless_slots.
  rewrite (fold_alter_lookup_total
             (fun _ c => insert_many_defaults c
                (to_size_t (size (columns !!! _child_slots p) - size c))))
    by (done || apply slot_indexs_NoDup).
  unfold _useless_slot_indexs.
  destruct (decide (k ∈ _)) as [Hin | Hnin]; rewrite slot_indexs_spec in *.
  - rewrite decide_True; [done |]. destruct Hin as [? Hneg].
    split; [done |]. by apply negb_true_iff.
  - rewrite decide_False; [done |]. intros [? Hno]. apply Hnin.
    split; [done |]. by apply negb_true_iff.
Qed.

(** C8. After the loops of a fill call on a block whose columns all held
    [n0] rows, however far the loops got, the flush and the padding leave
    every column with the same number [n] of rows, and a useless
    pass-through column is what it was followed by [n - n0] defaults:
    nothing of the child block is copied into it. *)
Theorem useless_slots_padded p bs cancelled fuel st (columns : list Column)
    (n0 : Z) :
  1 <= _fn_num p ->
  0 <= bs < 2 ^ 31 ->
  rectangular p columns n0 ->
  _current_row_insert_times st = 0 ->
  let r := outcome_value (outer_loop p bs cancelled fuel st columns) in
  let r' := flush_and_pad p r.1 r.2 in
  exists n,
    n0 <= n
    /\ rectangular p r'.2 n
    /\ forall k, (k < _child_slots p)%nat -> _slot_need_copy p k = false ->
         r'.2 !!! k = columns !!! k ++ replicate (Z.to_nat (n - n0)) Null.
Proof.
  intros Hn Hbs [Hlen Hrect] Htimes.
  assert (Hn0 : 0 <= n0).
  { rewrite <- (Hrect (_child_slots p)) by lia. unfold size. lia. }
  pose proof (outer_loop_invariant p bs
    (fun s c => exists n,
       pending_shape p s c n /\ n0 <= n <= Z.max n0 bs
       /\ forall k, (k < _child_slots p)%nat -> _slot_need_copy p k = false ->
            c !!! k = columns !!! k)) as Hloop.
  destruct (Hloop) with (fuel := fuel) (cancelled := cancelled) (st := st)
                        (columns := columns)
    as (n & Hshape & Hbound & Huseless).
  { intros s c skip (m & Hm & Hmb & Hmu) Hroom.
    destruct (inner_body_shape p bs s c skip m Hn Hm) as (m' & Hm' & Hle & Hcap & Hu).
    exists m'. split; [done |]. split.
    - specialize (Hcap Hbs Hroom). lia.
    - intros k Hk Hno. rewrite Hu by done. by apply Hmu. }
  { exists n0. split; [| split; [lia | done]].
    split; [done |]. split; [lia |]. split.
    - intros i Hi. apply Hrect. lia.
    - intros k Hk _. rewrite Htimes, Z.add_0_r. apply Hrect. lia. }
  simpl. set (r := outcome_value (outer_loop p bs cancelled fuel st columns)) in *.
  exists n. split; [lia |].
  destruct Hshape as (Hlen' & Ht & Hfn & Hneed).
  unfold flush_and_pad.
  pose proof (copy_output_slots_frame p r.1 r.2) as (_ & _ & _ & Ht0 & _).
  pose proof (copy_output_slots_length p r.1 r.2) as Hlen2.
  pose proof (copy_output_slots_lookup p r.1 r.2) as Hlook.
  destruct (_copy_output_slots p r.1 r.2) as [st2 c2]. simpl in *.
  assert (Hrow : size (c2 !!! _child_slots p) = n).
  { rewrite Hlook by lia. rewrite decide_False by lia.
    specialize (Hfn 0%nat). rewrite Nat.add_0_r in Hfn. apply Hfn. lia. }
  assert (Hpad : forall k, (k < _child_slots p)%nat ->
            _slot_need_copy p k = false ->
            pad_useless_slots p c2 !!! k
            = columns !!! k ++ replicate (Z.to_nat (n - n0)) Null).
  { intros k Hk Hno. rewrite pad_useless_slots_lookup by lia.
    rewrite decide_True by done. rewrite Hrow.
    rewrite Hlook by lia.
    rewrite decide_False by (intros [_ Hyes]; congruence).
    rewrite Huseless by done. rewrite Hrect by lia.
    rewrite to_size_t_small by lia. done. }
  split; [| done].
  split; [by rewrite pad_useless_slots_length, Hlen2 |].
  intros k Hk. rewrite pad_useless_slots_length in Hk.
  destruct (decide ((k < _child_slots p)%nat /\ _slot_need_copy p k = false))
    as [[Hk' Hno] | Hother].
  - rewrite Hpad by done.
    assert (Hc : size (columns !!! k) = n0) by (apply Hrect; lia).
    unfold size in *. rewrite length_app, length_replicate. lia.
  - rewrite pad_useless_slots_lookup by lia. rewrite decide_False by done.
    rewrite Hlook by lia.
    destruct (decide ((k < _child_slots p)%nat /\ _slot_need_copy p k = true))
      as [[Hk' Hyes] | Hfn'].
    + rewrite size_insert_many_from by done.
      by apply Hneed.
    + assert (Hge : (_child_slots p <= k)%nat).
      { destruct (_slot_need_copy p k) eqn:Hneedk; lia. }
      replace k with (_child_slots p + (k - _child_slots p))%nat by lia.
      apply Hfn. lia.
Qed.

End PaddingFacts.

Lemma useless_slots_padded_witness :
  1 <= _fn_num Sample.p2
  /\ 0 <= 4 < 2 ^ 31
  /\ rectangular Sample.p2 (empty_block Sample.p2) 0
  /\ _current_row_insert_times Sample.st_AB = 0
  /\ exists n,
       rectangular Sample.p2
         (flush_and_pad Sample.p2
            (outcome_value (outer_loop Sample.p2 4 Sample.running 10 Sample.st_AB
                              (empty_block Sample.p2))).1
            (outcome_value (outer_loop Sample.p2 4 Sample.running 10 Sample.st_AB
                              (empty_block Sample.p2))).2).2 n.
Proof.
  assert (Hn : 1 <= _fn_num Sample.p2) by arith.
  assert (Hbs : 0 <= 4 < 2 ^ 31) by (split; arith).
  assert (Hr : rectangular Sample.p2 (empty_block Sample.p2) 0).
  { split; [reflexivity |]. intros k Hk. change (k < 4)%nat in Hk.
    destruct k as [|[|[|[|k]]]]; reflexivity. }
  assert (Ht : _current_row_insert_times Sample.st_AB = 0) by reflexivity.
  split; [exact Hn |]. split; [exact Hbs |]. split; [exact Hr |].
  split; [exact Ht |].
  destruct (useless_slots_padded Sample.p2 4 Sample.running 10 Sample.st_AB
              (empty_block Sample.p2) 0 Hn Hbs Hr Ht) as (n & _ & Hrect & _).
  exists n. exact Hrect.
Defined.

(** *** Products and what remains of them *)

Lemma flat_map_nil_fun {A B} (f : A -> list B) (l : list A) :
  (forall x, f x = []) -> flat_map f l = [].
Proof.
  intros Hf. induction l as [|x l IH]; simpl; [done |]. by rewrite Hf, IH.
Qed.

Lemma product_nil_in (vss : list (list Field)) :
  [] ∈ vss -> product vss = [].
Proof.
  induction vss as [|vs vss IH]; intros Hin.
  - by apply elem_of_nil in Hin.
  - apply elem_of_cons in Hin as [<- | Hin]; simpl; [done |].
    apply flat_map_nil_fun. intros v. by rewrite IH.
Qed.

Lemma product_length (vss : list (list Field)) :
  Z.of_nat (length (product vss))
  = foldr Z.mul 1 (map (fun vs => Z.of_nat (length vs)) vss).
Proof.
  induction vss as [|vs vss IH]; simpl; [done |].
  rewrite <- IH. clear IH.
  induction vs as [|v vs IHvs]; simpl; [lia |].
  rewrite length_app, length_map. lia.
Qed.

(** From the first values on, everything remains. *)
Lemma remaining_fresh (fns : list ValueFunction) :
  Forall (fun f => position f = 0%nat) fns ->
  remaining fns = product (map values_of fns).
Proof.
  induction fns as [|f fns IH]; intros Hall; simpl; [done |].
  apply Forall_cons in Hall as [Hf Hall].
  rewrite Hf, drop_0, IH by done.
  by destruct (values_of f).
Qed.

(** A function past its last value leaves nothing. *)
Lemma remaining_exhausted (f : ValueFunction) (fns : list ValueFunction) :
  (length (values_of f) <= position f)%nat -> remaining (f :: fns) = [].
Proof. intros Hf. simpl. by rewrite drop_ge. Qed.

(** When nothing remains below the first function, what remains are the
    combinations of its later values. *)
Lemma remaining_carry (f : ValueFunction) (fns : list ValueFunction) :
  remaining fns = [] ->
  remaining (f :: fns)
  = flat_map (fun v => map (cons v) (product (map values_of fns)))
      (drop (S (position f)) (values_of f)).
Proof.
  intros Hfns. simpl. rewrite Hfns.
  destruct (drop (position f) (values_of f)) as [|v vs] eqn:Hd.
  - rewrite <- (Nat.add_1_r (position f)), <- drop_drop, Hd. done.
  - rewrite <- (Nat.add_1_r (position f)), <- drop_drop, Hd. simpl.
    by rewrite drop_0.
Qed.

(** When everything remains below the first function, what remains are
    the combinations of its values from the current one on. *)
Lemma remaining_restart (f : ValueFunction) (fns : list ValueFunction) :
  remaining fns = product (map values_of fns) ->
  remaining (f :: fns)
  = flat_map (fun v => map (cons v) (product (map values_of fns)))
      (drop (position f) (values_of f)).
Proof.
  intros Hfns. simpl. rewrite Hfns.
  by destruct (drop (position f) (values_of f)).
Qed.

(** Functions at their last value above functions that leave nothing
    leave nothing. *)
Lemma remaining_all_last (pre suf : list ValueFunction) :
  Forall (fun f => drop (S (position f)) (values_of f) = []) pre ->
  remaining suf = [] ->
  remaining (pre ++ suf) = [].
Proof.
  intros Hpre Hsuf. induction pre as [|f pre IH]; [done |].
  apply Forall_cons in Hpre as [Hf Hpre].
  rewrite <- app_comm_cons, remaining_carry by auto. by rewrite Hf.
Qed.

(** A function that is not outer and has no value leaves nothing. *)
Lemma remaining_no_values (fns : list ValueFunction) :
  [] ∈ map values_of fns -> remaining fns = [].
Proof.
  induction fns as [|f fns IH]; intros Hin; simpl in *.
  - by apply elem_of_nil in Hin.
  - apply elem_of_cons in Hin as [Hf | Hin].
    + rewrite <- Hf. by rewrite drop_nil.
    + rewrite IH, product_nil_in by done.
      destruct (drop _ _); [done |]. simpl.
      apply flat_map_nil_fun. by intros.
Qed.

(** Below functions that are at a value, what remains are the current
    values followed by what remains of the others, and then the later
    combinations. *)
Lemma remaining_app (pre suf : list ValueFunction) :
  Forall at_value pre ->
  remaining (pre ++ suf)
  = map (app (map current pre)) (remaining suf)
    ++ later pre (map values_of suf).
Proof.
  intros Hpre. induction pre as [|f pre IH]; simpl.
  - rewrite app_nil_r. by rewrite map_id.
  - apply Forall_cons in Hpre as [Hf Hpre]. rewrite IH by done.
    rewrite map_app.
    destruct (drop (position f) (values_of f)) as [|v vs] eqn:Hd.
    + apply (f_equal length) in Hd. rewrite length_drop in Hd.
      unfold at_value in Hf. simpl in Hd. lia.
    + assert (Hv : current f = v).
      { unfold current. apply list_lookup_total_correct.
        rewrite <- (Nat.add_0_r (position f)), <- lookup_drop, Hd. done. }
      rewrite Hv, map_app, map_map, <- app_assoc. done.
Qed.

Lemma remaining_single (f : ValueFunction) :
  remaining [f] = map (fun v => [v]) (drop (position f) (values_of f)).
Proof.
  simpl. destruct (drop _ _) as [|v vs]; [done |]. reflexivity.
Qed.

(** *** Counting rows by child row *)

Lemma count_row_app (row : Z) (out1 out2 : list OutRow) :
  count_row row (out1 ++ out2) = count_row row out1 + count_row row out2.
Proof. induction out1 as [|o out1 IH]; simpl; lia. Qed.

Lemma count_row_pair (row r : Z) (l : list (list Field)) :
  count_row row (map (pair r) l)
  = if r =? row then Z.of_nat (length l) else 0.
Proof.
  induction l as [|x l IH]; simpl.
  - by destruct (r =? row).
  - rewrite IH. destruct (r =? row); lia.
Qed.

Lemma count_row_nonneg (row : Z) (out : list OutRow) : 0 <= count_row row out.
Proof. induction out as [|o out IH]; simpl; [lia |]. destruct (_ =? _); lia. Qed.

Lemma rows_emitted_app (row : Z) (cs1 cs2 : list Call) :
  rows_emitted row (cs1 ++ cs2) = rows_emitted row cs1 + rows_emitted row cs2.
Proof.
  induction cs1 as [|c cs1 IH]; simpl; [lia |]. destruct c; lia.
Qed.

Lemma rows_emitted_quiet (row : Z) (cs : list Call) :
  Forall quiet cs -> rows_emitted row cs = 0.
Proof.
  induction 1 as [|c cs Hc _ IH]; simpl; [done |]. by destruct c.
Qed.

(** *** The contract-following function *)

Module ValueFunctionFacts.

Import ValueFunction.

Lemma empty_length (f : ValueFunction) :
  empty f = true <-> length (fn_current f) = 0%nat.
Proof. unfold empty. destruct (fn_current f); simpl; split; (done || lia). Qed.

Lemma values_of_nil (f : ValueFunction) :
  values_of f = [] <-> fn_outer f = false /\ empty f = true.
Proof.
  unfold values_of, empty.
  destruct (fn_current f), (fn_outer f); simpl; split; try done; by intros [? ?].
Qed.

Lemma values_of_step (f : ValueFunction) (n : nat) :
  values_of (step f n) = values_of f.
Proof. done. Qed.

Lemma values_of_rewind (f : ValueFunction) :
  values_of (rewind f) = values_of f.
Proof. done. Qed.

Lemma values_of_bind_step (f : ValueFunction) (n : nat) (row : Z) :
  values_of (bind (step f n) row) = values_of (bind f row).
Proof. done. Qed.

Lemma values_of_bind_rewind (f : ValueFunction) (row : Z) :
  values_of (bind (rewind f) row) = values_of (bind f row).
Proof. done. Qed.

Lemma values_of_bind_bind (f : ValueFunction) (row row' : Z) :
  values_of (bind (bind f row') row) = values_of (bind f row).
Proof. done. Qed.

Lemma position_rewind (f : ValueFunction) : position (rewind f) = 0%nat.
Proof. done. Qed.

Lemma position_bind (f : ValueFunction) (row : Z) :
  position (bind f row) = 0%nat.
Proof. done. Qed.

Lemma fn_bound_bind (f : ValueFunction) (row : Z) : fn_bound row (bind f row).
Proof.
  split; [done |]. split; [simpl; lia |]. intros Hne. simpl.
  split; [done |]. intros Hlen.
  apply not_true_iff_false in Hne. exfalso. apply Hne.
  apply empty_length. simpl in *. lia.
Qed.

Lemma fn_bound_rewind (f : ValueFunction) (row : Z) :
  fn_bound row f -> fn_bound row (rewind f).
Proof.
  intros (Hcur & Hoff & Heos). split; [done |]. split; [simpl; lia |].
  intros Hne. simpl. split; [done |]. intros Hlen.
  apply not_true_iff_false in Hne. exfalso. apply Hne.
  apply empty_length. simpl in *. lia.
Qed.

Lemma fn_bound_step (f : ValueFunction) (row : Z) (n : nat) :
  fn_bound row f ->
  (fn_offset f + n <= length (fn_current f))%nat \/ empty f = true ->
  fn_bound row (step f n).
Proof.
  intros (Hcur & Hoff & Heos) Hn. split; [done |]. simpl.
  destruct (empty f) eqn:He; simpl.
  - split; [done |]. intros Hne. change (empty f = false) in Hne. congruence.
  - destruct Hn as [Hn | ?]; [| done]. split; [done |]. intros _.
    apply Nat.leb_le.
Qed.

(** The position of a bound function: its offset, unless it has no
    value. *)
Lemma position_bound (f : ValueFunction) (row : Z) :
  fn_bound row f -> empty f = false -> position f = fn_offset f.
Proof.
  intros (_ & Hoff & Heos) He. specialize (Heos He).
  unfold position, values_of. rewrite He.
  destruct (fn_eos f); [| done]. destruct Heos as [Heos _].
  specialize (Heos eq_refl). lia.
Qed.

Lemma position_le (f : ValueFunction) (row : Z) :
  fn_bound row f -> (position f <= length (values_of f))%nat.
Proof.
  intros Hb. destruct (empty f) eqn:He.
  - unfold position. destruct (fn_eos f); [done |].
    destruct Hb as (_ & Hoff & _). apply empty_length in He. lia.
  - rewrite (position_bound f row Hb He).
    unfold values_of. rewrite He. by destruct Hb as (_ & Hoff & _).
Qed.

Lemma not_eos_at_value (f : ValueFunction) (row : Z) :
  fn_bound row f -> fn_eos f = false -> values_of f <> [] -> at_value f.
Proof.
  intros Hb Heos Hvals. unfold at_value.
  destruct (empty f) eqn:He.
  - unfold position. rewrite Heos.
    destruct Hb as (_ & Hoff & _). apply empty_length in He.
    destruct (values_of f); [done | simpl; lia].
  - rewrite (position_bound f row Hb He).
    destruct Hb as (_ & Hoff & Hflag). specialize (Hflag He).
    unfold values_of. rewrite He.
    destruct (decide (length (fn_current f) <= fn_offset f)%nat) as [Hle | ?]; [| lia].
    apply Hflag in Hle. congruence.
Qed.

Lemma eos_position (f : ValueFunction) :
  fn_eos f = true -> position f = length (values_of f).
Proof. intros Heos. unfold position. by rewrite Heos. Qed.

(** Forwarding moves the position by one, as far as the values go. *)
Lemma drop_position_step (f : ValueFunction) (row : Z) :
  fn_bound row f -> fn_eos f = false ->
  drop (position (step f 1)) (values_of f)
  = drop (S (position f)) (values_of f).
Proof.
  intros Hb Heos. destruct (empty f) eqn:He.
  - rewrite !drop_ge; [done | |].
    + unfold values_of. rewrite He. destruct (fn_outer f); simpl; lia.
    + unfold position at 1. simpl. rewrite He. simpl. done.
  - rewrite (position_bound f row Hb He).
    unfold position. simpl. rewrite He. simpl.
    destruct (Nat.leb_spec (length (fn_current f)) (fn_offset f + 1)) as [Hle | Hlt].
    + rewrite !drop_ge; [done | |].
      * unfold values_of. rewrite He. lia.
      * change (values_of (step f 1)) with (values_of f). lia.
    + by rewrite Nat.add_1_r.
Qed.

(** A function forwarded to its end was at its last value. *)
Lemma eos_step_last (f : ValueFunction) (row : Z) :
  fn_bound row f -> fn_eos (step f 1) = true ->
  drop (S (position f)) (values_of f) = [].
Proof.
  intros Hb Heos. apply drop_ge. destruct (empty f) eqn:He.
  - unfold values_of. rewrite He. destruct (fn_outer f); simpl; lia.
  - rewrite (position_bound f row Hb He). simpl in Heos. rewrite He in Heos.
    simpl in Heos. apply Nat.leb_le in Heos.
    unfold values_of. rewrite He. lia.
Qed.

Lemma current_value_current (f : ValueFunction) (row : Z) :
  fn_bound row f -> fn_eos f = false -> at_value f ->
  current_value f = current f.
Proof.
  intros Hb Heos Hat. unfold current_value, current.
  destruct (empty f) eqn:He.
  - unfold at_value in Hat. unfold position in *. rewrite Heos in *.
    destruct Hb as (_ & Hoff & _). apply empty_length in He.
    replace (fn_offset f) with 0%nat by lia.
    unfold values_of in *. unfold empty in *.
    destruct (fn_current f); [| done].
    destruct (fn_outer f); simpl in *; [done | lia].
  - rewrite (position_bound f row Hb He). unfold values_of. by rewrite He.
Qed.

(** What [get_value] appends and reports for a function at a value:
    the next values, at least one and no more than asked for. *)
Lemma get_value_spec (f : ValueFunction) (row : Z) (c : list Field) (max_step : Z) :
  fn_bound row f -> fn_eos f = false -> at_value f -> 1 <= max_step ->
  let n := emit_count f max_step in
  (1 <= n)%nat
  /\ Z.of_nat n <= max_step
  /\ (position f + n <= length (values_of f))%nat
  /\ emit f c max_step
     = (step f n, c ++ take n (drop (position f) (values_of f)), Z.of_nat n)
  /\ position (step f n) = (position f + n)%nat
  /\ fn_bound row (step f n).
Proof.
  intros Hb Heos Hat Hmax. unfold emit, emit_count.
  destruct (empty f) eqn:He.
  - assert (Hpos : position f = 0%nat).
    { unfold position. rewrite Heos. destruct Hb as (_ & Hoff & _).
      apply empty_length in He. lia. }
    assert (Hvals : values_of f = [Null]).
    { unfold at_value in Hat. unfold values_of in *. rewrite He in *.
      destruct (fn_outer f); [done | simpl in Hat; lia]. }
    rewrite Hpos, Hvals. simpl.
    split; [lia |]. split; [lia |]. split; [lia |]. split; [done |].
    split; [| apply fn_bound_step; auto].
    unfold position. simpl. rewrite He. simpl.
    change (values_of (step f 1)) with (values_of f). by rewrite Hvals.
  - pose proof (position_bound f row Hb He) as Hpos.
    assert (Hvals : values_of f = fn_current f).
    { unfold values_of. by rewrite He. }
    unfold at_value in Hat. rewrite Hpos, Hvals in *.
    set (n := Nat.min (Z.to_nat max_step) (length (fn_current f) - fn_offset f)).
    assert (Hn : (1 <= n)%nat) by lia.
    split; [done |]. split; [lia |]. split; [lia |]. split; [done |].
    assert (Hb' : fn_bound row (step f n)) by (apply fn_bound_step; [done | lia]).
    split; [| done].
    rewrite (position_bound (step f n) row Hb' He). simpl. by rewrite He.
Qed.

End ValueFunctionFacts.

(** *** Rolling keeps what remains *)

Lemma values_of_imap (g : nat -> ValueFunction -> ValueFunction)
    (fns : list ValueFunction) :
  (forall j f, values_of (g j f) = values_of f) ->
  map values_of (imap g fns) = map values_of fns.
Proof.
  revert g. induction fns as [|f fns IH]; intros g Hg; simpl; [done |].
  rewrite Hg, IH; [done |]. intros j f'. apply Hg.
Qed.

Lemma signature_imap (g : nat -> ValueFunction -> ValueFunction)
    (fns : list ValueFunction) :
  (forall j f, signature (g j f) = signature f) ->
  map signature (imap g fns) = map signature fns.
Proof.
  revert g. induction fns as [|f fns IH]; intros g Hg; simpl; [done |].
  rewrite Hg, IH; [done |]. intros j f'. apply Hg.
Qed.

Lemma position_imap_fresh (g : nat -> ValueFunction -> ValueFunction)
    (fns : list ValueFunction) :
  (forall j f, position (g j f) = 0%nat) ->
  Forall (fun f => position f = 0%nat) (imap g fns).
Proof.
  revert g. induction fns as [|f fns IH]; intros g Hg; simpl; [done |].
  constructor; [apply Hg |]. apply IH. intros j f'. apply Hg.
Qed.

Lemma rolled_values_of (i k j : nat) (f : ValueFunction) :
  values_of (rolled i k j f) = values_of f.
Proof.
  unfold rolled.
  destruct (j <? i)%nat; [done |]. destruct (j =? i)%nat; [done |].
  by destruct (j <? k)%nat.
Qed.

Lemma rolled_signature (i k j : nat) (f : ValueFunction) :
  signature (rolled i k j f) = signature f.
Proof.
  unfold rolled.
  destruct (j <? i)%nat; [done |]. destruct (j =? i)%nat; [done |].
  by destruct (j <? k)%nat.
Qed.

Lemma forwarded_signature (k j : nat) (f : ValueFunction) :
  signature (forwarded k j f) = signature f.
Proof. unfold forwarded. by destruct (j <? k)%nat. Qed.

(** Nothing remains when the functions from [m] on are at their last
    value or past it, and one of them is past it. *)
Lemma remaining_spent (row : Z) (fns : list ValueFunction) (k : nat) :
  (k < length fns)%nat ->
  Forall (fn_bound row) fns ->
  (forall j, (j < k)%nat -> fn_eos (ValueFunction.step (fns !!! j) 1) = true) ->
  fn_eos (fns !!! k) = true ->
  remaining fns = [].
Proof.
  intros Hk Hb Hlast Heos.
  rewrite <- (take_drop k fns). apply remaining_all_last.
  - apply Forall_lookup. intros j f Hj.
    pose proof (lookup_lt_Some _ _ _ Hj) as Hlt.
    rewrite length_take in Hlt.
    rewrite lookup_take_lt in Hj by lia.
    assert (Hf : fns !!! j = f) by by apply list_lookup_total_correct.
    apply (ValueFunctionFacts.eos_step_last f row).
    + by eapply (proj1 (Forall_lookup _ _) Hb).
    + rewrite <- Hf. apply Hlast. lia.
  - destruct (drop k fns) as [|f rest] eqn:Hd.
    + apply (f_equal length) in Hd. rewrite length_drop in Hd. simpl in Hd. lia.
    + assert (Hf : fns !!! k = f).
      { apply list_lookup_total_correct.
        rewrite <- (Nat.add_0_r k), <- lookup_drop, Hd. done. }
      apply remaining_exhausted. rewrite <- Hf.
      by rewrite ValueFunctionFacts.eos_position.
Qed.

(** A roll that stops at function [i] leaves what remains as it was:
    the combinations under the next value of [i]. *)
Lemma remaining_rolled (row : Z) (fns : list ValueFunction) (i k : nat) :
  (i < k < length fns)%nat ->
  Forall (fn_bound row) fns ->
  fn_eos (fns !!! i) = false ->
  (forall j, (i < j < k)%nat ->
     fn_eos (ValueFunction.step (fns !!! j) 1) = true) ->
  fn_eos (fns !!! k) = true ->
  remaining (imap (rolled i k) fns) = remaining fns.
Proof.
  revert i k. induction fns as [|f fns IH]; intros i k Hik Hb Hi Hmid Hk.
  { simpl in Hik. lia. }
  apply Forall_cons in Hb as [Hf Hb]. rewrite imap_cons.
  destruct i as [|i].
  - change (rolled 0 k 0 f) with (ValueFunction.step f 1).
    assert (Hfresh : remaining (imap (rolled 0 k ∘ S) fns)
                     = product (map values_of (imap (rolled 0 k ∘ S) fns))).
    { apply remaining_fresh, position_imap_fresh. intros j g.
      unfold compose, rolled. simpl. by destruct (_ <? _)%nat. }
    rewrite (remaining_restart _ _ Hfresh).
    rewrite values_of_imap by (intros; apply rolled_values_of).
    rewrite ValueFunctionFacts.values_of_step.
    rewrite (ValueFunctionFacts.drop_position_step f row) by done.
    symmetry. apply remaining_carry.
    destruct k as [|k]; [lia |].
    apply (remaining_spent row fns k); [simpl in Hik; lia | done | |].
    + intros j Hj. apply (Hmid (S j)). lia.
    + exact Hk.
  - change (rolled (S i) k 0 f) with f.
    destruct k as [|k]; [lia |].
    assert (Hext : imap (rolled (S i) (S k) ∘ S) fns = imap (rolled i k) fns).
    { apply imap_ext. intros j g _. done. }
    rewrite Hext. simpl.
    rewrite IH, values_of_imap; try done.
    + intros; apply rolled_values_of.
    + simpl in Hik. lia.
    + intros j Hj. apply (Hmid (S j)). lia.
Qed.

(** *** The cursor between two passes *)

Lemma fns_split (fns : list ValueFunction) :
  (1 <= length fns)%nat ->
  fns = take (length fns - 1) fns ++ [fns !!! (length fns - 1)%nat].
Proof.
  intros Hn.
  destruct (lookup_lt_is_Some_2 fns (length fns - 1)) as [l Hl]; [lia |].
  rewrite (list_lookup_total_correct _ _ _ Hl).
  rewrite <- (take_S_r _ _ _ Hl).
  replace (S (length fns - 1)) with (length fns) by lia.
  by rewrite take_ge.
Qed.

(** What the scan finds on such a cursor: every function at its end
    (0), the last function short of its end (-1), or the last function
    alone at its end (its index). *)
Lemma find_last_fn_eos_idx_cursor p (st : TableFunctionLocalState ValueFunction) :
  fns_ok p st -> cursor_ok (_fns st) ->
  (_find_last_fn_eos_idx p st = 0
   /\ Forall (fun f => fn_eos f = true) (_fns st))
  \/ (_find_last_fn_eos_idx p st = -1
      /\ Forall (fun f => fn_eos f = false) (_fns st))
  \/ (_find_last_fn_eos_idx p st = _fn_num p - 1
      /\ 2 <= _fn_num p
      /\ Forall (fun f => fn_eos f = false)
           (take (length (_fns st) - 1) (_fns st))
      /\ fn_eos (_fns st !!! (length (_fns st) - 1)%nat) = true).
Proof.
  intros [Hn Hpos] Hcur. unfold _find_last_fn_eos_idx.
  destruct (find_last_fn_eos_loop_spec p (_fns st) (Z.to_nat (_fn_num p)))
    as [[Hr Hall] | (m & Hm & Hem & Hall & Hr)]; rewrite Hr.
  - left. split; [done |]. apply Forall_lookup. intros j f Hj.
    rewrite <- (list_lookup_total_correct _ _ _ Hj). apply Hall.
    apply lookup_lt_Some in Hj. lia.
  - right. simpl in Hem, Hall.
    destruct Hcur as [Hfront | Hend].
    2:{ destruct (lookup_lt_is_Some_2 (_fns st) m) as [f Hf]; [lia |].
        rewrite (list_lookup_total_correct _ _ _ Hf) in Hem.
        rewrite (proj1 (Forall_lookup _ _) Hend m f Hf) in Hem. done. }
    assert (Hfront' : forall j, (j < length (_fns st) - 1)%nat ->
              fn_eos (_fns st !!! j) = false).
    { intros j Hj.
      destruct (lookup_lt_is_Some_2 (_fns st) j) as [f Hf]; [lia |].
      rewrite (list_lookup_total_correct _ _ _ Hf).
      apply (proj1 (Forall_lookup _ _) Hfront j f).
      by rewrite lookup_take_lt. }
    destruct (Z.eqb_spec (Z.of_nat m) (_fn_num p - 1)) as [Hlast | Hnot].
    + left. split; [done |].
      apply Forall_lookup. intros j f Hj.
      rewrite <- (list_lookup_total_correct _ _ _ Hj).
      pose proof (lookup_lt_Some _ _ _ Hj) as Hlt.
      destruct (decide (j = m)) as [-> | Hne]; [done |].
      apply Hfront'. lia.
    + right.
      assert (Hm' : m = (length (_fns st) - 2)%nat).
      { destruct (decide (m < length (_fns st) - 2)%nat) as [Hlt | ?]; [| lia].
        specialize (Hfront' (S m)). rewrite Hall in Hfront' by lia.
        discriminate Hfront'. lia. }
      split; [lia |]. split; [lia |]. split; [done |].
      apply Hall. lia.
Qed.

(** *** The expansion from one state to the next *)

Section ExpansionFacts.

Implicit Types st : TableFunctionLocalState ValueFunction.

Lemma expansion_of_row_signature (fns fns' : list ValueFunction) (row : nat) :
  map signature fns = map signature fns' ->
  expansion_of_row fns row = expansion_of_row fns' row.
Proof.
  intros Hs. unfold expansion_of_row. do 2 f_equal.
  revert fns' Hs. induction fns as [|f fns IH]; intros [|f' fns'] Hs;
    simpl in *; try done.
  injection Hs as Ho Hv Hs. f_equal; [| by apply IH].
  unfold values_of, ValueFunction.empty. simpl. by rewrite Ho, Hv.
Qed.

Lemma rows_to_come_signature (fns fns' : list ValueFunction) child offset :
  map signature fns = map signature fns' ->
  rows_to_come fns child offset = rows_to_come fns' child offset.
Proof.
  intros Hs. unfold rows_to_come. apply flat_map_ext. intros row.
  by apply expansion_of_row_signature.
Qed.

Lemma expansion_active st :
  0 <= _cur_child_offset st ->
  expansion st
  = map (pair (_cur_child_offset st)) (remaining (_fns st))
    ++ rows_to_come (_fns st) (_child_block st) (_cur_child_offset st).
Proof.
  intros Hoff. unfold expansion.
  destruct (Z.eqb_spec (_cur_child_offset st) (-1)); [lia | done].
Qed.

Lemma expansion_no_row st : _cur_child_offset st = -1 -> expansion st = [].
Proof. intros Hoff. unfold expansion. by rewrite Hoff. Qed.

Lemma rows_to_come_end (fns : list ValueFunction) child offset :
  rows child <= offset + 1 -> rows_to_come fns child offset = [].
Proof.
  intros Hend. unfold rows_to_come.
  replace (Z.to_nat (rows child - (offset + 1))) with 0%nat by lia. done.
Qed.

Lemma rows_to_come_next (fns : list ValueFunction) child offset :
  0 <= offset + 1 < rows child ->
  rows_to_come fns child offset
  = expansion_of_row fns (Z.to_nat (offset + 1))
    ++ rows_to_come fns child (offset + 1).
Proof.
  intros Hnext. unfold rows_to_come.
  replace (Z.to_nat (rows child - (offset + 1)))
    with (S (Z.to_nat (rows child - (offset + 1 + 1)))) by lia.
  simpl. do 3 f_equal. lia.
Qed.

Lemma rows_clear_column_data (b : list Column) : rows (clear_column_data b) = 0.
Proof. by destruct b. Qed.

Lemma Forall_imap (P : ValueFunction -> Prop)
    (g : nat -> ValueFunction -> ValueFunction) (fns : list ValueFunction) :
  (forall j f, fns !! j = Some f -> P (g j f)) -> Forall P (imap g fns).
Proof.
  intros Hg. apply Forall_lookup. intros j f' Hj.
  rewrite list_lookup_imap in Hj.
  destruct (fns !! j) as [f|] eqn:Hf; simpl in Hj; [| done].
  injection Hj as <-. by apply Hg.
Qed.

(** The flush and the move to the next child row, when nothing remains
    of the bound row: what is to come is unchanged, the block holds the
    same rows with nothing pending, and either the child block is used up
    or its next row is bound with every function at its first value. *)
Lemma next_row_spec p (B : list Column) st (columns : list Column)
    (out : list OutRow) :
  active p st ->
  _child_block st = B ->
  assembled p B st columns out ->
  remaining (_fns st) = [] ->
  let fl := _copy_output_slots p st columns in
  let st' := process_next_child_row fl.1 in
  expansion st' = expansion st
  /\ assembled p B st' fl.2 out
  /\ extends quiet st st'
  /\ fl.2 !!! _child_slots p = columns !!! _child_slots p
  /\ ((_cur_child_offset st' = -1 /\ state_ok p st')
      \/ (_cur_child_offset st' = _cur_child_offset st + 1
          /\ active p st'
          /\ _child_block st' = B
          /\ Forall (fun f => fn_eos f = false) (_fns st'))).
Proof.
  intros (Hok & Htimes & Hrows & Hoff & Hbound & Hcur) HB Hasm Hrem.
  pose proof (copy_output_slots_frame p st columns)
    as (Hf & Hb & Ho & Ht & He & Hc).
  pose proof (copy_output_slots_length p st columns) as Hlen.
  pose proof (copy_output_slots_lookup p st columns) as Hlook.
  pose proof (copy_output_slots_other p st columns (_child_slots p)) as Hkeep.
  destruct (_copy_output_slots p st columns) as [st1 c1]. simpl in *.
  assert (Hq : extends quiet st (process_next_child_row st1)).
  { eapply extends_trans; [by apply extends_same |].
    apply process_next_child_row_quiet. }
  assert (Hasm' : forall st',
    _current_row_insert_times st' = 0 -> assembled p B st' c1 out).
  { intros st' Ht'. destruct Hasm as (Hl & Hfn & Hneed & Huse).
    split; [congruence |]. split; [| split].
    - intros i Hi. rewrite Hlook by lia. rewrite decide_False by lia. by apply Hfn.
    - intros k Hk Hneedk. rewrite Hlook by lia.
      rewrite decide_True by done. rewrite Ht'. simpl. rewrite app_nil_r.
      unfold insert_many_from. rewrite HB. by apply Hneed.
    - intros k Hk Hno. rewrite Hlook by lia.
      rewrite decide_False by (intros [_ ?]; congruence). by apply Huse. }
  rewrite (expansion_active st) by lia. rewrite Hrem. simpl.
  remember (process_next_child_row st1) as st' eqn:Hst'.
  unfold process_next_child_row in Hst'.
  rewrite Ho, Hb in Hst'. rewrite to_size_t_small in Hst' by lia.
  destruct (Z.geb_spec (_cur_child_offset st + 1) (rows (_child_block st)))
    as [Hend | Hnext]; subst st'.
  - split.
    { rewrite expansion_no_row by done. by rewrite rows_to_come_end. }
    split; [by apply Hasm' |]. split; [done |]. split; [by apply Hkeep |].
    left. split; [done |].
    destruct Hok as [Hn Hpos].
    split; [split; [simpl; rewrite length_map; congruence | done] |].
    simpl. rewrite rows_clear_column_data.
    split; [lia |]. split; [lia |]. left.
    split; [done |]. split; [apply rows_clear_column_data | simpl; lia].
  - assert (Hfresh : Forall (fun f => position f = 0%nat)
              (map (fun f => ValueFunction.bind f (_cur_child_offset st + 1))
                   (_fns st1))).
    { apply Forall_fmap, Forall_true. done. }
    split.
    { rewrite expansion_active by (simpl; lia). simpl.
      rewrite (remaining_fresh _ Hfresh).
      rewrite (rows_to_come_next (_fns st)) by lia.
      rewrite Hf. f_equal.
      - unfold expansion_of_row. rewrite Z2Nat.id by lia.
        by rewrite map_map.
      - apply rows_to_come_signature. rewrite map_map. done. }
    split; [by apply Hasm' |]. split; [done |]. split; [by apply Hkeep |].
    right. split; [done |].
    destruct Hok as [Hn Hpos].
    assert (Hnoeos : Forall (fun f => fn_eos f = false)
              (map (fun f => ValueFunction.bind f (_cur_child_offset st + 1))
                   (_fns st1))).
    { apply Forall_fmap, Forall_true. done. }
    split; [| split; [simpl; congruence | done]].
    split; [split; [simpl; rewrite length_map; congruence | done] |].
    simpl. split; [lia |]. split; [lia |].
    split; [simpl; lia |]. simpl. split.
    + apply Forall_fmap, Forall_true. intros f.
      apply ValueFunctionFacts.fn_bound_bind.
    + left. by apply Forall_take.
Qed.

Lemma fn_bound_forward (f : ValueFunction) (row : Z) :
  fn_bound row f -> fn_eos f = false ->
  fn_bound row (ValueFunction.step f 1).
Proof.
  intros Hb Heos. apply ValueFunctionFacts.fn_bound_step; [done |].
  destruct (ValueFunction.empty f) eqn:He; [by right | left].
  destruct Hb as (_ & Hoff & Hflag). specialize (Hflag He).
  destruct (decide (length (fn_current f) <= fn_offset f)%nat) as [Hle | ?]; [| lia].
  apply Hflag in Hle. congruence.
Qed.

Lemma Forall_lookup_total (P : ValueFunction -> Prop) (fns : list ValueFunction) :
  Forall P fns <-> forall j, (j < length fns)%nat -> P (fns !!! j).
Proof.
  rewrite Forall_lookup. split.
  - intros HP j Hj. destruct (lookup_lt_is_Some_2 fns j Hj) as [f Hf].
    rewrite (list_lookup_total_correct _ _ _ Hf). by eapply HP.
  - intros HP j f Hf. rewrite <- (list_lookup_total_correct _ _ _ Hf).
    apply HP. by eapply lookup_lt_Some.
Qed.

(** A roll on a cursor whose last function alone is at its end: what is
    to come is unchanged; either some function moved to its next value
    and every function is short of its end, or every function is at its
    end. *)
Lemma roll_state_spec p st :
  active p st ->
  2 <= _fn_num p ->
  Forall (fun f => fn_eos f = false) (take (length (_fns st) - 1) (_fns st)) ->
  fn_eos (_fns st !!! (length (_fns st) - 1)%nat) = true ->
  let r := _roll_table_functions p st (_fn_num p - 1) in
  expansion r.1 = expansion st
  /\ extends quiet st r.1
  /\ _child_block r.1 = _child_block st
  /\ _cur_child_offset r.1 = _cur_child_offset st
  /\ _current_row_insert_times r.1 = _current_row_insert_times st
  /\ active p r.1
  /\ (r.2 = false -> Forall (fun f => fn_eos f = true) (_fns r.1))
  /\ (r.2 = true -> Forall (fun f => fn_eos f = false) (_fns r.1)).
Proof.
  intros (Hok & Htimes & Hrows & Hoff & Hbound & Hcur) Hn2 Hfront Hlast.
  pose proof (roll_table_functions_frame p st (_fn_num p - 1))
    as (Hb & Ho & Ht & _ & Hlen & Hq).
  pose proof Hok as [Hn Hpos].
  assert (Hk : Z.to_nat (_fn_num p - 1) = (length (_fns st) - 1)%nat) by lia.
  assert (Hrange : 0 < _fn_num p - 1 < _fn_num p) by lia.
  pose proof (roll_table_functions_cases p st (_fn_num p - 1) Hok Hrange)
    as Hcases.
  rewrite Hk in Hcases.
  assert (Hfront' : forall j, (j < length (_fns st) - 1)%nat ->
            fn_eos (_fns st !!! j) = false).
  { intros j Hj.
    destruct (lookup_lt_is_Some_2 (_fns st) j) as [f Hf]; [lia |].
    rewrite (list_lookup_total_correct _ _ _ Hf).
    apply (proj1 (Forall_lookup _ _) Hfront j f). by rewrite lookup_take_lt. }
  pose proof (proj1 (Forall_lookup_total _ _) Hbound) as Hbound'.
  destruct (_roll_table_functions p st (_fn_num p - 1)) as [st1 ok].
  simpl in *.
  assert (Hgoal : remaining (_fns st1) = remaining (_fns st)
            /\ map signature (_fns st1) = map signature (_fns st)
            /\ Forall (fn_bound (_cur_child_offset st)) (_fns st1)
            /\ (ok = false -> Forall (fun f => fn_eos f = true) (_fns st1))
            /\ (ok = true -> Forall (fun f => fn_eos f = false) (_fns st1))).
  { destruct Hcases as [(Hall & -> & Hfns & _)
                       | (i & Hi & Hstop & Hmid & -> & Hfns & _)].
    - assert (Hb1 : Forall (fn_bound (_cur_child_offset st)) (_fns st1)).
      { rewrite Hfns. apply Forall_imap. intros j f Hj.
        pose proof (lookup_lt_Some _ _ _ Hj) as Hlt.
        pose proof (list_lookup_total_correct _ _ _ Hj) as Hjf.
        unfold forwarded. destruct (Nat.ltb_spec j (length (_fns st) - 1)).
        + apply fn_bound_forward; rewrite <- Hjf; auto.
        + rewrite <- Hjf. auto. }
      assert (He1 : Forall (fun f => fn_eos f = true) (_fns st1)).
      { rewrite Hfns. apply Forall_imap. intros j f Hj.
        pose proof (lookup_lt_Some _ _ _ Hj) as Hlt.
        pose proof (list_lookup_total_correct _ _ _ Hj) as Hjf.
        unfold forwarded. destruct (Nat.ltb_spec j (length (_fns st) - 1)).
        + rewrite <- Hjf. by apply Hall.
        + rewrite <- Hjf. replace j with (length (_fns st) - 1)%nat by lia. done. }
      split; [| split; [| split; [done | split; [done | done]]]].
      + rewrite (remaining_spent (_cur_child_offset st) (_fns st)
                   (length (_fns st) - 1)); [| lia | done | done | done].
        apply (remaining_spent (_cur_child_offset st) (_fns st1) 0);
          [lia | done | intros j Hj; lia |].
        apply (proj1 (Forall_lookup_total _ _) He1). lia.
      + rewrite Hfns. apply signature_imap. intros. apply forwarded_signature.
    - split; [| split; [| split; [| split; [done |]]]].
      + rewrite Hfns.
        apply (remaining_rolled (_cur_child_offset st)); auto; lia.
      + rewrite Hfns. apply signature_imap. intros. apply rolled_signature.
      + rewrite Hfns. apply Forall_imap. intros j f Hj.
        pose proof (lookup_lt_Some _ _ _ Hj) as Hlt.
        pose proof (list_lookup_total_correct _ _ _ Hj) as Hjf.
        unfold rolled. rewrite <- Hjf.
        destruct (Nat.ltb_spec j i); [auto |].
        destruct (Nat.eqb_spec j i).
        { apply fn_bound_forward; auto. apply Hfront'. lia. }
        destruct (Nat.ltb_spec j (length (_fns st) - 1)).
        * apply ValueFunctionFacts.fn_bound_rewind, fn_bound_forward; auto.
        * apply ValueFunctionFacts.fn_bound_rewind. auto.
      + intros _. rewrite Hfns. apply Forall_imap. intros j f Hj.
        pose proof (lookup_lt_Some _ _ _ Hj) as Hlt.
        pose proof (list_lookup_total_correct _ _ _ Hj) as Hjf.
        unfold rolled. rewrite <- Hjf.
        destruct (Nat.ltb_spec j i); [apply Hfront'; lia |].
        destruct (Nat.eqb_spec j i) as [-> | ?]; [done |].
        by destruct (Nat.ltb_spec j (length (_fns st) - 1)). }
  destruct Hgoal as (Hrem & Hsig & Hb1 & Hfalse & Htrue).
  split.
  { rewrite !expansion_active by lia. rewrite Ho, Hb, Hrem.
    f_equal. by apply rows_to_come_signature. }
  split; [done |]. split; [done |]. split; [done |]. split; [done |].
  split; [| done].
  split; [split; [congruence | done] |].
  split; [lia |]. split; [by rewrite Hb |].
  split; [by rewrite Ho, Hb |]. split; [by rewrite Ho |].
  destruct ok; [left; apply Forall_take | right]; auto.
Qed.

Lemma map_const_replicate {A B} (x : B) (l : list A) :
  map (fun _ => x) l = replicate (length l) x.
Proof. induction l as [|a l IH]; simpl; [done | by rewrite IH]. Qed.

Lemma values_nonempty p st :
  fns_ok p st -> _is_inner_and_empty p st = false ->
  forall j, (j < length (_fns st))%nat -> values_of (_fns st !!! j) <> [].
Proof.
  intros Hok Hne j Hj Hnil.
  apply ValueFunctionFacts.values_of_nil in Hnil as [Ho He].
  apply not_true_iff_false in Hne. apply Hne.
  apply (is_inner_and_empty_spec p st Hok). by exists j.
Qed.

(** The emission on a cursor whose functions are all at a value: the
    next combinations of the bound row, as many as the last function
    still has under the current values of the others and the block has
    room for, at least one, go to the block; they are taken off what is
    to come. *)
Lemma emit_state_spec p bs (B : list Column) st (columns : list Column)
    (out : list OutRow) :
  active p st ->
  _child_block st = B ->
  Forall (fun f => fn_eos f = false) (_fns st) ->
  _is_inner_and_empty p st = false ->
  assembled p B st columns out ->
  0 <= bs < 2 ^ 31 ->
  Z.of_nat (length out) < bs ->
  let r := emit p bs st columns in
  exists E1 : list OutRow,
    expansion st = E1 ++ expansion r.1
    /\ (1 <= length E1)%nat
    /\ Z.of_nat (length out + length E1) <= bs
    /\ assembled p B r.1 r.2 (out ++ E1)
    /\ active p r.1
    /\ _child_block r.1 = B
    /\ _cur_child_offset r.1 = _cur_child_offset st
    /\ forall row, rows_emitted row (calls r.1)
                   = rows_emitted row (calls st) + count_row row E1.
Proof.
  intros (Hok & Htimes & Hrows & Hoff & Hbound & Hcur) HB Hnoeos Hinner
    (Hlen & Hfn & Hneed & Huse) Hbs Hroom.
  pose proof Hok as [Hn Hpos].
  set (last := (length (_fns st) - 1)%nat).
  assert (Hlast : Z.to_nat (_fn_num p - 1) = last) by (unfold last; lia).
  set (pre := take last (_fns st)).
  set (l := _fns st !!! last).
  assert (Hsplit : _fns st = pre ++ [l]) by (apply fns_split; lia).
  assert (Hprelen : length pre = last).
  { unfold pre. rewrite length_take. unfold last. lia. }
  pose proof (proj1 (Forall_lookup_total _ _) Hbound) as Hbound'.
  pose proof (proj1 (Forall_lookup_total _ _) Hnoeos) as Hnoeos'.
  pose proof (values_nonempty p st Hok Hinner) as Hvals.
  assert (Hat : forall j, (j < length (_fns st))%nat -> at_value (_fns st !!! j)).
  { intros j Hj.
    apply (ValueFunctionFacts.not_eos_at_value _ (_cur_child_offset st)); auto. }
  assert (Hatpre : Forall at_value pre).
  { apply Forall_lookup_total. intros j Hj. unfold pre.
    rewrite lookup_total_take_lt by lia. apply Hat. unfold last in *. lia. }
  assert (Hsize : size (columns !!! _child_slots p) = Z.of_nat (length out)).
  { specialize (Hfn 0%nat). rewrite Nat.add_0_r in Hfn.
    rewrite Hfn by lia. unfold size. by rewrite length_map. }
  set (max_step := bs - to_int (size (columns !!! _child_slots p))).
  assert (Hmax : max_step = bs - Z.of_nat (length out)).
  { unfold max_step. rewrite Hsize, to_int_small by lia. done. }
  destruct (ValueFunctionFacts.get_value_spec l (_cur_child_offset st)
              (columns !!! (_child_slots p + last)%nat) max_step)
    as (Hn1 & Hnmax & Hnlen & Hemit & Hposn & Hboundn);
    [apply Hbound'; unfold last; lia | apply Hnoeos'; unfold last; lia
    | apply Hat; unfold last; lia | lia |].
  set (n := ValueFunction.emit_count l max_step) in *.
  set (D := drop (position l) (values_of l)).
  assert (HDlen : (n <= length D)%nat).
  { unfold D. rewrite length_drop. lia. }
  pose proof (emit_spec p bs st columns Hlen Hpos)
    as (Ht & Hcb & Hco & _ & Hfns & Hlow & Hclast & Hcmid).
  pose proof (emit_calls p bs st columns) as Hcalls. cbv zeta in Hcalls.
  pose proof (emit_length p bs st columns) as [_ Hlen'].
  rewrite Hlast in Ht, Hfns, Hclast, Hcmid, Hcalls.
  fold max_step in Ht, Hfns, Hclast, Hcmid, Hcalls. fold l in Ht, Hfns, Hclast, Hcalls.
  change (get_value l (columns !!! (_child_slots p + last)%nat) max_step)
    with (ValueFunction.emit l (columns !!! (_child_slots p + last)%nat) max_step)
    in Ht, Hfns, Hclast, Hcmid, Hcalls.
  rewrite Hemit in Ht, Hfns, Hclast, Hcalls. simpl in Ht, Hfns, Hclast, Hcalls.
  set (r := emit p bs st columns) in *.
  set (l' := ValueFunction.step l n) in *.
  assert (Hfns' : _fns r.1 = pre ++ [l']).
  { rewrite Hfns, Hsplit at 1.
    rewrite insert_app_r_alt by lia.
    replace (last - length pre)%nat with 0%nat by lia. done. }
  set (g := fun v : Field => map current pre ++ [v]).
  assert (Hrem : remaining (_fns st)
                 = map g (take n D) ++ remaining (_fns r.1)).
  { rewrite Hfns', Hsplit at 1.
    rewrite !remaining_app by done. rewrite !remaining_single.
    change (values_of l') with (values_of l). rewrite Hposn.
    rewrite <- drop_drop. fold D.
    rewrite !map_map. fold g. simpl.
    rewrite app_assoc, <- map_app, take_drop. done. }
  exists (map (pair (_cur_child_offset st)) (map g (take n D))).
  assert (HE1len : length (map (pair (_cur_child_offset st)) (map g (take n D))) = n).
  { rewrite !length_map, length_take. lia. }
  rewrite HE1len.
  split.
  { rewrite !expansion_active by lia. rewrite Hco, Hcb, Hrem.
    rewrite map_app, <- app_assoc. do 2 f_equal.
    apply rows_to_come_signature. rewrite Hfns', Hsplit at 1.
    rewrite !map_app. done. }
  split; [done |]. split; [lia |].
  split.
  { split; [congruence |]. split; [| split].
    - intros i Hi. rewrite map_app, !map_map. simpl.
      destruct (decide (i = last)) as [-> | Hne].
      + rewrite Hclast, Hfn by lia. f_equal.
        transitivity (map (fun v : Field => v) (take n D));
          [by rewrite map_id |].
        apply map_ext. intros v.
        unfold g. rewrite lookup_total_app_r by (rewrite length_map; lia).
        rewrite length_map, Hprelen, Nat.sub_diag. done.
      + rewrite Hcmid by lia.
        change (get_value (_fns st !!! last) ?c ?m)
          with (ValueFunction.emit l c m).
        rewrite Hemit. simpl.
        change (get_same_many_values ?f ?c ?m)
          with (ValueFunction.emit_repeated f c m).
        unfold ValueFunction.emit_repeated. rewrite Hfn by lia. f_equal.
        rewrite Nat2Z.id.
        rewrite (ValueFunctionFacts.current_value_current _ (_cur_child_offset st))
          by (apply Hbound' || apply Hnoeos' || apply Hat; lia).
        rewrite <- (length_take_le D n) at 1 by done.
        rewrite <- map_const_replicate. apply map_ext. intros v.
        unfold g. rewrite lookup_total_app_l by (rewrite length_map; lia).
        change (map current pre) with (current <$> pre).
        rewrite (list_lookup_total_fmap current pre i) by lia.
        unfold pre. rewrite lookup_total_take_lt by lia. done.
    - intros k Hk Hneedk. rewrite Hlow, Ht, Hco by done.
      rewrite Z2Nat.inj_add, Nat2Z.id, replicate_add by lia.
      rewrite app_assoc, Hneed by done.
      rewrite map_app. f_equal. rewrite !map_map. simpl.
      rewrite map_const_replicate, length_take_le by done. done.
    - intros k Hk Hno. rewrite Hlow by done. by apply Huse. }
  split.
  { split; [split; [rewrite Hfns, length_insert; congruence | done] |].
    split; [lia |]. split; [by rewrite Hcb |].
    split; [by rewrite Hco, Hcb |]. rewrite Hco. split.
    - rewrite Hfns. apply Forall_insert; done.
    - left. rewrite Hfns, length_insert. fold last.
      rewrite take_insert_ge by done. by apply Forall_take. }
  split; [congruence |]. split; [done |].
  intros row. rewrite Hcalls, rows_emitted_app. f_equal. simpl.
  rewrite rows_emitted_quiet.
  - rewrite count_row_pair, length_map, length_take_le by done.
    destruct (_ =? _); lia.
  - apply Forall_forall. intros c Hc.
    apply list_elem_of_fmap in Hc as (j & -> & _). done.
Qed.

End ExpansionFacts.

(** *** One pass of the inner loop *)

Section PassFacts.

Implicit Types st : TableFunctionLocalState ValueFunction.

Lemma assembled_size p (B : list Column) st (columns : list Column)
    (out : list OutRow) :
  1 <= _fn_num p -> assembled p B st columns out ->
  size (columns !!! _child_slots p) = Z.of_nat (length out).
Proof.
  intros Hpos (_ & Hfn & _). specialize (Hfn 0%nat).
  rewrite Nat.add_0_r in Hfn. rewrite Hfn by lia.
  unfold size. by rewrite length_map.
Qed.

Lemma find_last_fn_eos_idx_all_eos p st :
  fns_ok p st -> Forall (fun f => fn_eos f = true) (_fns st) ->
  _find_last_fn_eos_idx p st = 0.
Proof.
  intros [Hn Hpos] Hall. unfold _find_last_fn_eos_idx.
  destruct (find_last_fn_eos_loop_spec p (_fns st) (Z.to_nat (_fn_num p)))
    as [[Hr _] | (m & Hm & Hem & _)]; [done |].
  simpl in Hem.
  rewrite (proj1 (Forall_lookup_total _ _) Hall) in Hem by lia. done.
Qed.

Lemma inner_and_empty_remaining p st :
  fns_ok p st -> _is_inner_and_empty p st = true -> remaining (_fns st) = [].
Proof.
  intros Hok He. apply (is_inner_and_empty_spec p st Hok) in He
    as (j & Hj & Ho & Hc).
  apply remaining_no_values.
  destruct (lookup_lt_is_Some_2 (_fns st) j Hj) as [f Hf].
  rewrite (list_lookup_total_correct _ _ _ Hf) in Ho, Hc.
  apply list_elem_of_fmap. exists f. split.
  - symmetry. by apply ValueFunctionFacts.values_of_nil.
  - by eapply list_elem_of_lookup_2.
Qed.

Lemma all_eos_remaining p st :
  fns_ok p st -> Forall (fun f => fn_eos f = true) (_fns st) ->
  remaining (_fns st) = [].
Proof.
  intros [Hn Hpos] Hall. destruct (_fns st) as [|f fns] eqn:Hfns.
  - simpl in Hn. lia.
  - apply Forall_cons in Hall as [Hf _]. apply remaining_exhausted.
    by rewrite ValueFunctionFacts.eos_position.
Qed.

(** The test and the emission on a cursor whose functions are all short
    of their end. *)
Lemma emit_or_skip_spec p bs (B : list Column) st (columns : list Column)
    (out : list OutRow) :
  active p st ->
  _child_block st = B ->
  Forall (fun f => fn_eos f = false) (_fns st) ->
  assembled p B st columns out ->
  0 <= bs < 2 ^ 31 ->
  Z.of_nat (length out) < bs ->
  let r := emit_or_skip p bs st columns in
  exists E1 : list OutRow,
    expansion st = E1 ++ expansion r.1.1
    /\ Z.of_nat (length out + length E1) <= bs
    /\ assembled p B r.1.1 r.1.2 (out ++ E1)
    /\ (forall row, rows_emitted row (calls r.1.1)
                    = rows_emitted row (calls st) + count_row row E1)
    /\ active p r.1.1
    /\ _child_block r.1.1 = B
    /\ _cur_child_offset r.1.1 = _cur_child_offset st
    /\ (r.2 = true -> _is_inner_and_empty p r.1.1 = true)
    /\ (r.2 = true \/ (1 <= length E1)%nat).
Proof.
  intros Hact HB Hnoeos Hasm Hbs Hroom. unfold emit_or_skip.
  destruct (_is_inner_and_empty p st) eqn:Hinner; simpl.
  - exists []. rewrite !app_nil_r, Nat.add_0_r. simpl.
    split; [done |]. split; [lia |]. split; [done |].
    split; [intros row; lia |]. do 4 (split; [done |]). by left.
  - destruct (emit_state_spec p bs B st columns out Hact HB Hnoeos Hinner
                Hasm Hbs Hroom)
      as (E1 & Hexp & Hone & Hcap & Hasm' & Hact' & HB' & Hoff' & Hrows).
    exists E1. do 8 (split; [done |]). by right.
Qed.

(** One pass of the body, let in by the guard: the rows it emits are
    the next rows of what was to come; either it leaves the loop with no
    row bound, or it goes round with a row bound and a smaller budget. *)
Lemma inner_body_spec p bs (B : list Column) st (columns : list Column)
    (skip : bool) (out : list OutRow) :
  active p st ->
  _child_block st = B ->
  (skip = true -> _is_inner_and_empty p st = true) ->
  assembled p B st columns out ->
  0 <= bs < 2 ^ 31 ->
  has_room p bs columns = true ->
  let r := inner_body p bs st columns skip in
  exists E1 : list OutRow,
    expansion st = E1 ++ expansion r.2.1.1
    /\ Z.of_nat (length out + length E1) <= bs
    /\ assembled p B r.2.1.1 r.2.1.2 (out ++ E1)
    /\ (forall row, rows_emitted row (calls r.2.1.1)
                    = rows_emitted row (calls st) + count_row row E1)
    /\ ((r.1 = flow_break
         /\ _cur_child_offset r.2.1.1 = -1
         /\ state_ok p r.2.1.1)
        \/ (r.1 = flow_continue
            /\ active p r.2.1.1
            /\ _child_block r.2.1.1 = B
            /\ (r.2.2 = true -> _is_inner_and_empty p r.2.1.1 = true)
            /\ (budget p bs r.2.1.1 r.2.1.2 r.2.2
                < budget p bs st columns skip)%nat)).
Proof.
  intros Hact <- Hskip Hasm Hbs Hroom.
  pose proof Hact as (Hok & Htimes & Hrows & Hoff & Hbound & Hcur).
  pose proof Hok as [Hn Hpos].
  pose proof (assembled_size p _ st columns out Hpos Hasm) as Hsize.
  assert (Hlt : Z.of_nat (length out) < bs).
  { unfold has_room in Hroom. apply Z.ltb_lt in Hroom.
    rewrite to_size_t_small in Hroom by lia. lia. }
  (* the second half of the body, from a state all short of the end *)
  assert (Hsecond : forall st1 c1,
    active p st1 -> _child_block st1 = _child_block st ->
    Forall (fun f => fn_eos f = false) (_fns st1) ->
    assembled p (_child_block st) st1 c1 out ->
    expansion st = expansion st1 ->
    (forall row, rows_emitted row (calls st1) = rows_emitted row (calls st)) ->
    (2 * Z.to_nat (rows (_child_block st) - _cur_child_offset st1)
     + 2 * Z.to_nat (bs - Z.of_nat (length out)) + 1
     <= budget p bs st columns skip)%nat ->
    let r := emit_or_skip p bs st1 c1 in
    exists E1 : list OutRow,
      expansion st = E1 ++ expansion r.1.1
      /\ Z.of_nat (length out + length E1) <= bs
      /\ assembled p (_child_block st) r.1.1 r.1.2 (out ++ E1)
      /\ (forall row, rows_emitted row (calls r.1.1)
                      = rows_emitted row (calls st) + count_row row E1)
      /\ active p r.1.1
      /\ _child_block r.1.1 = _child_block st
      /\ (r.2 = true -> _is_inner_and_empty p r.1.1 = true)
      /\ (budget p bs r.1.1 r.1.2 r.2 < budget p bs st columns skip)%nat).
  { intros st1 c1 Hact1 HB1 Hnoeos1 Hasm1 Hexp1 Hrows1 Hbudget.
    destruct (emit_or_skip_spec p bs _ st1 c1 out Hact1 HB1 Hnoeos1 Hasm1
                Hbs Hlt)
      as (E1 & Hexp & Hcap & Hasm' & Hrows' & Hact' & HB' & Hoff' & Hsk & Hprog).
    simpl. exists E1. rewrite Hexp1.
    split; [done |]. split; [done |]. split; [done |].
    split; [intros row; by rewrite Hrows', Hrows1 |].
    split; [done |]. split; [done |]. split; [done |].
    unfold budget at 1.
    rewrite (assembled_size p _ _ _ _ Hpos Hasm'), HB', Hoff'.
    rewrite length_app.
    destruct Hprog as [Htrue | Hone].
    - rewrite Htrue, orb_true_r. lia.
    - destruct (_ || _); lia. }
  unfold inner_body, advance.
  destruct (find_last_fn_eos_idx_cursor p st Hok Hcur)
    as [[Hidx Hall] | [[Hidx Hnone] | (Hidx & Hn2 & Hfront & Hlast)]].
  - (* every function at its end *)
    rewrite Hidx. simpl.
    pose proof (all_eos_remaining p st Hok Hall) as Hrem.
    pose proof (next_row_spec p _ st columns out Hact eq_refl Hasm Hrem)
      as (Hexp & Hasm' & Hq & Hcol & Hnext).
    destruct (_copy_output_slots p st columns) as [st1 c1]. simpl in *.
    destruct Hq as (new & Hnew & Hquiet).
    assert (Hsame : forall row,
      rows_emitted row (calls (process_next_child_row st1))
      = rows_emitted row (calls st)).
    { intros row. rewrite Hnew, rows_emitted_app, (rows_emitted_quiet row new) by done. lia. }
    destruct Hnext as [[Hidle Hstate] | (Hoff' & Hact' & HB' & Hnoeos')].
    + rewrite Hidle. simpl. exists [].
      rewrite app_nil_r, Nat.add_0_r. simpl.
      split; [done |]. split; [lia |]. split; [done |].
      split; [intros row; rewrite Hsame; lia |]. left. done.
    + destruct (Z.eqb_spec (_cur_child_offset (process_next_child_row st1)) (-1));
        [lia |].
      destruct (Hsecond (process_next_child_row st1) c1)
        as (E1 & H1 & H2 & H3 & H4 & H5 & H6 & H7 & H8); try done.
      { unfold budget. rewrite Hidx, Hoff', Hsize. simpl. lia. }
      exists E1. do 4 (split; [done |]). right. done.
  - (* the last function short of its end *)
    rewrite Hidx.
    destruct skip.
    + simpl.
      pose proof (inner_and_empty_remaining p st Hok (Hskip eq_refl)) as Hrem.
      pose proof (next_row_spec p _ st columns out Hact eq_refl Hasm Hrem)
        as (Hexp & Hasm' & Hq & Hcol & Hnext).
      destruct (_copy_output_slots p st columns) as [st1 c1]. simpl in *.
      destruct Hq as (new & Hnew & Hquiet).
      assert (Hsame : forall row,
        rows_emitted row (calls (process_next_child_row st1))
        = rows_emitted row (calls st)).
      { intros row. rewrite Hnew, rows_emitted_app, (rows_emitted_quiet row new) by done. lia. }
      destruct Hnext as [[Hidle Hstate] | (Hoff' & Hact' & HB' & Hnoeos')].
      * rewrite Hidle. simpl. exists [].
        rewrite app_nil_r, Nat.add_0_r. simpl.
        split; [done |]. split; [lia |]. split; [done |].
        split; [intros row; rewrite Hsame; lia |]. left. done.
      * destruct (Z.eqb_spec (_cur_child_offset (process_next_child_row st1)) (-1));
          [lia |].
        destruct (Hsecond (process_next_child_row st1) c1)
          as (E1 & H1 & H2 & H3 & H4 & H5 & H6 & H7 & H8); try done.
        { unfold budget. rewrite Hidx, Hoff', Hsize. simpl. lia. }
        exists E1. do 4 (split; [done |]). right. done.
    + simpl. rewrite andb_false_r. simpl.
      destruct (Hsecond st columns)
        as (E1 & H1 & H2 & H3 & H4 & H5 & H6 & H7 & H8); try done; try lia.
      { unfold budget. rewrite Hidx, Hsize. simpl. lia. }
      exists E1. do 4 (split; [done |]). right. done.
  - (* the last function alone at its end *)
    rewrite Hidx.
    destruct skip.
    + assert (Hor : (_fn_num p - 1 =? 0) || true = true) by apply orb_true_r.
      rewrite Hor.
      pose proof (inner_and_empty_remaining p st Hok (Hskip eq_refl)) as Hrem.
      pose proof (next_row_spec p _ st columns out Hact eq_refl Hasm Hrem)
        as (Hexp & Hasm' & Hq & Hcol & Hnext).
      destruct (_copy_output_slots p st columns) as [st1 c1]. simpl in *.
      destruct Hq as (new & Hnew & Hquiet).
      assert (Hsame : forall row,
        rows_emitted row (calls (process_next_child_row st1))
        = rows_emitted row (calls st)).
      { intros row. rewrite Hnew, rows_emitted_app, (rows_emitted_quiet row new) by done. lia. }
      destruct Hnext as [[Hidle Hstate] | (Hoff' & Hact' & HB' & Hnoeos')].
      * rewrite Hidle. simpl. exists [].
        rewrite app_nil_r, Nat.add_0_r. simpl.
        split; [done |]. split; [lia |]. split; [done |].
        split; [intros row; rewrite Hsame; lia |]. left. done.
      * destruct (Z.eqb_spec (_cur_child_offset (process_next_child_row st1)) (-1));
          [lia |].
        destruct (Hsecond (process_next_child_row st1) c1)
          as (E1 & H1 & H2 & H3 & H4 & H5 & H6 & H7 & H8); try done.
        { unfold budget. rewrite Hidx, Hor, Hoff', Hsize. lia. }
        exists E1. do 4 (split; [done |]). right. done.
    + destruct (Z.eqb_spec (_fn_num p - 1) 0); [lia |].
      destruct (Z.ltb_spec (_fn_num p - 1) (_fn_num p)); [| lia].
      destruct (Z.eqb_spec (_fn_num p - 1) (-1)); [lia |]. simpl.
      pose proof (roll_state_spec p st Hact Hn2 Hfront Hlast)
        as (Hexp & Hq & Hb' & Ho' & Ht' & Hact' & Hfalse & Htrue).
      destruct (_roll_table_functions p st (_fn_num p - 1)) as [st1 ok].
      simpl in *.
      destruct Hq as (new & Hnew & Hquiet).
      assert (Hsame : forall row,
        rows_emitted row (calls st1) = rows_emitted row (calls st)).
      { intros row. rewrite Hnew, rows_emitted_app, (rows_emitted_quiet row new) by done. lia. }
      assert (Hasm1 : assembled p (_child_block st) st1 columns out).
      { destruct Hasm as (Hl & Hfn & Hneed & Huse).
        split; [done |]. split; [done |]. split; [| done].
        intros k Hk Hneedk. rewrite Ht', Ho'. by apply Hneed. }
      destruct ok; simpl.
      * destruct (Hsecond st1 columns)
          as (E1 & H1 & H2 & H3 & H4 & H5 & H6 & H7 & H8); try done;
          try congruence; try lia; auto.
        { unfold budget. rewrite Hidx, Ho', Hsize.
          destruct (Z.eqb_spec (_fn_num p - 1) 0); [lia |]. simpl. lia. }
        exists E1. do 4 (split; [done |]). right. done.
      * exists []. rewrite app_nil_r, Nat.add_0_r. simpl.
        split; [done |]. split; [lia |]. split; [done |].
        split; [intros row; rewrite Hsame; lia |]. right.
        split; [done |]. split; [done |]. split; [congruence |].
        split; [done |].
        unfold budget. rewrite Hidx, Hb', Ho'.
        rewrite (find_last_fn_eos_idx_all_eos p st1) by (apply Hact' || auto).
        destruct (Z.eqb_spec (_fn_num p - 1) 0); [lia |]. simpl. lia.
Qed.

End PassFacts.

(** *** A larger budget changes nothing *)

Section FuelFacts.

Context {F : Type} `{TableFunction F}.

Implicit Types st : TableFunctionLocalState F.

Lemma inner_loop_mono p bs fuel fuel' st (columns : list Column) skip x :
  inner_loop p bs fuel st columns skip = Done x ->
  (fuel <= fuel')%nat ->
  inner_loop p bs fuel' st columns skip = Done x.
Proof.
  revert fuel' st columns skip.
  induction fuel as [|fuel IH]; intros fuel' st columns skip Hdone Hle;
    simpl in Hdone; [done |].
  destruct fuel' as [|fuel']; [lia |]. simpl.
  destruct (has_room p bs columns); [| done].
  destruct (inner_body p bs st columns skip) as [fl [[st1 c1] skip1]].
  destruct fl; try done; apply IH; (done || lia).
Qed.

Lemma outer_loop_mono p bs cancelled fuel fuel' st (columns : list Column) x :
  outer_loop p bs cancelled fuel st columns = Done x ->
  (fuel <= fuel')%nat ->
  outer_loop p bs cancelled fuel' st columns = Done x.
Proof.
  revert cancelled fuel' st columns.
  induction fuel as [|fuel IH]; intros cancelled fuel' st columns Hdone Hle;
    simpl in Hdone; [done |].
  destruct fuel' as [|fuel']; [lia |]. simpl.
  destruct (has_room p bs columns); [| done].
  destruct (cancelled 0%nat); [| done].
  destruct (rows (_child_block st) =? 0); [done |].
  destruct (inner_loop p bs fuel st columns false) as [[st1 c1] | y | e y]
    eqn:Hin; [| done | done].
  rewrite (inner_loop_mono p bs fuel fuel' st columns false _ Hin) by lia.
  apply IH; (done || lia).
Qed.

Lemma get_expanded_block_mono p bs cancelled fuel fuel' st
    (columns : list Column) x :
  get_expanded_block p bs cancelled fuel st columns = Done x ->
  (fuel <= fuel')%nat ->
  get_expanded_block p bs cancelled fuel' st columns = Done x.
Proof.
  unfold get_expanded_block, assemble. intros Hdone Hle.
  destruct (outer_loop p bs cancelled fuel _ columns)
    as [[st1 c1] | [st1 c1] | e [st1 c1]] eqn:Hout; [| done | done].
  by rewrite (outer_loop_mono p bs cancelled fuel fuel' _ columns _ Hout Hle).
Qed.

End FuelFacts.

(** *** The loops *)

Section FillFacts.

Implicit Types st : TableFunctionLocalState ValueFunction.

Lemma active_state_ok p st : active p st -> state_ok p st.
Proof.
  intros (Hok & Htimes & Hrows & Hbound). do 3 (split; [done |]). by right.
Qed.

Lemma state_ok_active p st :
  state_ok p st -> rows (_child_block st) <> 0 -> active p st.
Proof.
  intros (Hok & Htimes & Hrows & [(_ & Hz & _) | Hbound]) Hsome; [done |].
  by do 3 (split; [done |]).
Qed.

(** The inner loop, entered with a row bound and a budget to spare,
    leaves with the block holding the next rows of what was to come: the
    block is full or the child block is used up. *)
Lemma inner_loop_spec p bs (B : list Column) fuel :
  forall st (columns : list Column) (skip : bool) (out : list OutRow),
  active p st ->
  _child_block st = B ->
  (skip = true -> _is_inner_and_empty p st = true) ->
  assembled p B st columns out ->
  0 <= bs < 2 ^ 31 ->
  Z.of_nat (length out) <= bs ->
  (budget p bs st columns skip < fuel)%nat ->
  exists st' columns' (E : list OutRow),
    inner_loop p bs fuel st columns skip = Done (st', columns')
    /\ expansion st = E ++ expansion st'
    /\ Z.of_nat (length out + length E) <= bs
    /\ assembled p B st' columns' (out ++ E)
    /\ (forall row, rows_emitted row (calls st')
                    = rows_emitted row (calls st) + count_row row E)
    /\ state_ok p st'
    /\ (Z.of_nat (length out + length E) = bs \/ _cur_child_offset st' = -1)
    /\ (_child_block st' = B \/ _cur_child_offset st' = -1).
Proof.
  induction fuel as [|fuel IH];
    intros st columns skip out Hact HB Hskip Hasm Hbs Hcap Hfuel; [lia |].
  simpl. destruct (has_room p bs columns) eqn:Hroom.
  - destruct (inner_body_spec p bs B st columns skip out Hact HB Hskip Hasm
                Hbs Hroom)
      as (E1 & Hexp & Hcap1 & Hasm1 & Hrows1 & Hcase).
    destruct (inner_body p bs st columns skip) as [fl [[st1 c1] skip1]].
    simpl in *.
    destruct Hcase as [(-> & Hidle & Hstate)
                      | (-> & Hact1 & HB1 & Hskip1 & Hbudget)].
    + exists st1, c1, E1. do 6 (split; [done |]). split; by right.
    + destruct (IH st1 c1 skip1 (out ++ E1) Hact1 HB1 Hskip1 Hasm1 Hbs)
        as (st' & c' & E2 & Hdone & Hexp2 & Hcap2 & Hasm2 & Hrows2 & Hstate
            & Hfull & HB2); [by rewrite length_app | lia |].
      exists st', c', (E1 ++ E2).
      rewrite length_app in *. rewrite app_assoc.
      split; [done |]. split; [by rewrite Hexp, Hexp2, app_assoc |].
      split; [lia |]. split; [done |]. split.
      { intros row. rewrite Hrows2, Hrows1, count_row_app. lia. }
      split; [done |]. split; [| done].
      destruct Hfull as [Hfull | ?]; [left; lia | by right].
  - exists st, columns, []. rewrite app_nil_r, Nat.add_0_r. simpl.
    split; [done |]. split; [done |]. split; [done |]. split; [done |].
    split; [intros row; lia |].
    split; [by apply active_state_ok |].
    destruct Hact as (Hok & Htimes & Hrows & Hbound).
    split; [| by left]. left.
    unfold has_room in Hroom. apply Z.ltb_ge in Hroom.
    rewrite to_size_t_small in Hroom by lia.
    rewrite (assembled_size p B st columns out) in Hroom by (apply Hok || done).
    lia.
Qed.

Lemma outer_loop_spec p bs cancelled (B : list Column) fuel st
    (columns : list Column) (out : list OutRow) :
  state_ok p st ->
  _child_block st = B ->
  assembled p B st columns out ->
  0 <= bs < 2 ^ 31 ->
  Z.of_nat (length out) <= bs ->
  (budget p bs st columns false + 2 <= fuel)%nat ->
  (forall k, cancelled k = OK) ->
  exists st' columns' (E : list OutRow),
    outer_loop p bs cancelled fuel st columns = Done (st', columns')
    /\ expansion st = E ++ expansion st'
    /\ Z.of_nat (length out + length E) <= bs
    /\ assembled p B st' columns' (out ++ E)
    /\ (forall row, rows_emitted row (calls st')
                    = rows_emitted row (calls st) + count_row row E)
    /\ state_ok p st'
    /\ (Z.of_nat (length out + length E) = bs \/ _cur_child_offset st' = -1)
    /\ (_child_block st' = B \/ _cur_child_offset st' = -1).
Proof.
  intros Hstate HB Hasm Hbs Hcap Hfuel Hrun.
  pose proof Hstate as (Hok & Htimes & Hrows & Hrow).
  assert (Hstay : exists st' columns' (E : list OutRow),
    Done (st, columns) = Done (st', columns')
    /\ expansion st = E ++ expansion st'
    /\ Z.of_nat (length out + length E) <= bs
    /\ assembled p B st' columns' (out ++ E)
    /\ (forall row, rows_emitted row (calls st')
                    = rows_emitted row (calls st) + count_row row E)
    /\ state_ok p st'
    /\ ((Z.of_nat (length out) = bs \/ _cur_child_offset st = -1) ->
        Z.of_nat (length out + length E) = bs \/ _cur_child_offset st' = -1)
    /\ (_child_block st' = B \/ _cur_child_offset st' = -1)).
  { exists st, columns, []. rewrite app_nil_r, Nat.add_0_r. simpl.
    do 4 (split; [done |]). split; [intros row; lia |].
    split; [done |]. split; [done | by left]. }
  destruct fuel as [|fuel]; [lia |]. simpl. rewrite (Hrun 0%nat).
  destruct (has_room p bs columns) eqn:Hroom.
  - destruct (Z.eqb_spec (rows (_child_block st)) 0) as [Hzero | Hsome].
    + destruct Hstay as (st' & c' & E & Hd & H1 & H2 & H3 & H4 & H5 & H6 & H7).
      exists st', c', E. do 6 (split; [done |]). split; [| done].
      apply H6. right.
      destruct Hrow as [(Hoff & _) | (Hoff & _)]; [done | lia].
    + assert (Hact : active p st) by by apply state_ok_active.
      destruct (inner_loop_spec p bs B fuel st columns false out Hact HB)
        as (st1 & c1 & E & Hdone & Hexp & Hcap1 & Hasm1 & Hrows1 & Hstate1
            & Hfull & HB1); try done; try lia.
      rewrite Hdone.
      exists st1, c1, E. split; [| done].
      destruct fuel as [|fuel]; [lia |]. simpl. rewrite (Hrun 1%nat).
      destruct (has_room p bs c1) eqn:Hroom1; [| done].
      destruct (Z.eqb_spec (rows (_child_block st1)) 0) as [? | Hsome1]; [done |].
      exfalso.
      unfold has_room in Hroom1. apply Z.ltb_lt in Hroom1.
      rewrite to_size_t_small in Hroom1 by lia.
      rewrite (assembled_size p B st1 c1 (out ++ E)) in Hroom1
        by (apply Hok || done).
      rewrite length_app in Hroom1.
      destruct Hfull as [Hfull | Hidle]; [lia |].
      destruct Hstate1 as (_ & _ & _ & [(_ & Hz & _) | (Hoff & _)]); lia.
  - destruct Hstay as (st' & c' & E & Hd & H1 & H2 & H3 & H4 & H5 & H6 & H7).
    exists st', c', E. do 6 (split; [done |]). split; [| done].
    apply H6. left.
    unfold has_room in Hroom. apply Z.ltb_ge in Hroom.
    rewrite to_size_t_small in Hroom by lia.
    rewrite (assembled_size p B st columns out) in Hroom by (apply Hok || done).
    lia.
Qed.

End FillFacts.

(** *** The block handed on *)

Section BlockFacts.

Implicit Types st : TableFunctionLocalState ValueFunction.

Lemma render_column_cells p (child : list Column) (out : list OutRow) k :
  render_column p child out k = map (output_cell p child k) out.
Proof.
  unfold render_column, output_cell.
  destruct (k <? _child_slots p)%nat; [| done].
  destruct (_slot_need_copy p k); [done |].
  by rewrite map_const_replicate.
Qed.

Lemma render_length p (child : list Column) (out : list OutRow) :
  length (render p child out)
  = (_child_slots p + Z.to_nat (_fn_num p))%nat.
Proof. unfold render. by rewrite length_map, length_seq. Qed.

Lemma render_lookup p (child : list Column) (out : list OutRow) k :
  (k < _child_slots p + Z.to_nat (_fn_num p))%nat ->
  render p child out !! k = Some (render_column p child out k).
Proof.
  intros Hk. unfold render.
  change (map ?f ?l) with (f <$> l).
  rewrite list_lookup_fmap, lookup_seq_lt by done. done.
Qed.

Lemma render_nil p (child child' : list Column) :
  render p child [] = render p child' [].
Proof.
  unfold render. apply map_ext. intros k. by rewrite !render_column_cells.
Qed.

(** After the last flush and the padding the block is the rendering of
    the rows assembled. *)
Lemma flush_and_pad_render p (B : list Column) st (columns : list Column)
    (out : list OutRow) :
  state_ok p st ->
  assembled p B st columns out ->
  _child_block st = B \/ _cur_child_offset st = -1 ->
  Z.of_nat (length out) < 2 ^ 64 ->
  (flush_and_pad p st columns).2 = render p B out
  /\ _fns (flush_and_pad p st columns).1 = _fns st
  /\ _child_block (flush_and_pad p st columns).1 = _child_block st
  /\ _cur_child_offset (flush_and_pad p st columns).1 = _cur_child_offset st
  /\ _current_row_insert_times (flush_and_pad p st columns).1 = 0
  /\ _child_eos (flush_and_pad p st columns).1 = _child_eos st
  /\ calls (flush_and_pad p st columns).1 = calls st.
Proof.
  intros (Hok & Htimes & Hrows & Hrow) (Hlen & Hfn & Hneed & Huse) HB Hsmall.
  pose proof Hok as [Hn Hpos].
  unfold flush_and_pad.
  pose proof (copy_output_slots_frame p st columns) as (Hf & Hb & Ho & Ht & He & Hc).
  pose proof (copy_output_slots_length p st columns) as Hlen1.
  pose proof (copy_output_slots_lookup p st columns) as Hlook.
  destruct (_copy_output_slots p st columns) as [st1 c1]. simpl in *.
  split; [| done].
  assert (Hflushed : forall k, (k < _child_slots p)%nat ->
            _slot_need_copy p k = true ->
            insert_many_from (columns !!! k) (_child_block st !!! k)
              (_cur_child_offset st) (_current_row_insert_times st)
            = map (fun o : OutRow => (B !!! k) !!! Z.to_nat o.1) out).
  { intros k Hk Hneedk. rewrite <- Hneed by done. unfold insert_many_from.
    destruct HB as [-> | Hidle]; [done |].
    destruct Hrow as [(_ & _ & Hzero) | (Hoff & _)]; [| lia].
    rewrite Hzero. done. }
  assert (Hrow0 : size (c1 !!! _child_slots p) = Z.of_nat (length out)).
  { rewrite Hlook by lia. rewrite decide_False by lia.
    specialize (Hfn 0%nat). rewrite Nat.add_0_r in Hfn. rewrite Hfn by lia.
    unfold size. by rewrite length_map. }
  apply (list_eq_same_length _ _ (_child_slots p + Z.to_nat (_fn_num p))%nat).
  - apply render_length.
  - rewrite pad_useless_slots_length. lia.
  - intros k x y Hk Hx Hy.
    rewrite render_lookup in Hy by done. injection Hy as <-.
    apply list_lookup_total_correct in Hx. rewrite <- Hx.
    rewrite pad_useless_slots_lookup by lia.
    rewrite Hrow0, (Hlook k) by lia.
    unfold render_column.
    destruct (Nat.ltb_spec k (_child_slots p)) as [Hlow | Hhigh].
    + destruct (_slot_need_copy p k) eqn:Hneedk.
      * rewrite decide_False by (intros [_ ?]; done).
        rewrite decide_True by done. by apply Hflushed.
      * rewrite decide_True by done.
        rewrite decide_False by (intros [_ ?]; done).
        rewrite Huse by done. unfold insert_many_defaults, size. simpl.
        rewrite Z.sub_0_r, to_size_t_small by lia. by rewrite Nat2Z.id.
    + rewrite !decide_False by lia.
      replace k with (_child_slots p + (k - _child_slots p))%nat at 1 by lia.
      apply Hfn. lia.
Qed.

Lemma assembled_empty_block p (B : list Column) st :
  _current_row_insert_times st = 0 ->
  assembled p B st (empty_block p) [].
Proof.
  intros Ht. unfold empty_block. split; [by rewrite length_replicate |].
  split; [| split].
  - intros i Hi. by rewrite lookup_total_replicate_2 by lia.
  - intros k Hk _. rewrite Ht. simpl.
    by rewrite lookup_total_replicate_2 by lia.
  - intros k Hk _. by rewrite lookup_total_replicate_2 by lia.
Qed.

Lemma prefix_take {A} (X E X' : list A) (n : nat) :
  X = E ++ X' -> (length E <= n)%nat -> length E = n \/ X' = [] ->
  E = take n X /\ X' = drop n X.
Proof.
  intros -> Hle [Hn | ->].
  - subst n. by rewrite take_app_length, drop_app_length.
  - rewrite app_nil_r. by rewrite take_ge, drop_ge.
Qed.

(** A fill call on an empty block, with budget to spare: the block
    handed on holds the next [batch_size] rows of what was to come,
    filtered, and these rows are taken off what is to come. *)
(** With functions that follow the contract the loop at the head of the
    call only adds to the log. *)
Lemma set_nullable_loop_value p st (i cnt : nat) :
  set_nullable_loop p st i cnt
  = log st (map call_set_nullable
              (List.filter (fun j => _output_nullable p (j + _child_slots p)%nat)
                 (seq i cnt))).
Proof.
  revert st i. induction cnt as [|cnt IH]; intros st i; simpl.
  - unfold log. rewrite app_nil_r. by destruct st.
  - rewrite IH. destruct (_output_nullable p (i + _child_slots p)%nat); [| done].
    unfold fn_set_nullable, log, set_fns. simpl.
    rewrite list_alter_id by done. by rewrite <- app_assoc.
Qed.

Lemma set_nullable_calls_quiet p (i cnt : nat) :
  Forall quiet
    (map call_set_nullable
       (List.filter (fun j => _output_nullable p (j + _child_slots p)%nat)
          (seq i cnt))).
Proof.
  apply Forall_forall. intros c Hc.
  by apply list_elem_of_fmap in Hc as (j & -> & _).
Qed.

Lemma get_expanded_block_spec p bs cancelled st fuel :
  state_ok p st ->
  _current_row_insert_times st = 0 ->
  0 <= bs < 2 ^ 31 ->
  (budget p bs st (empty_block p) false + 2 <= fuel)%nat ->
  (forall k, cancelled k = OK) ->
  _conjuncts_status p
    (render p (_child_block st) (take (Z.to_nat bs) (expansion st))) = OK ->
  exists st',
    get_expanded_block p bs cancelled fuel st (empty_block p)
    = Done (st',
            filter_block (_conjuncts p)
              (render p (_child_block st)
                 (take (Z.to_nat bs) (expansion st))),
            Some (_child_eos st' && (_cur_child_offset st' =? -1)))
    /\ expansion st' = drop (Z.to_nat bs) (expansion st)
    /\ state_ok p st'
    /\ _current_row_insert_times st' = 0
    /\ (forall row,
          rows_emitted row (calls st') + count_row row (expansion st')
          = rows_emitted row (calls st) + count_row row (expansion st))
    /\ (_child_block st' = _child_block st \/ expansion st' = [])
    /\ (Z.of_nat (length (expansion st)) < bs \/ _cur_child_offset st = -1 ->
        _cur_child_offset st' = -1).
Proof.
  intros Hstate Ht Hbs Hfuel Hrun Hfilter.
  unfold get_expanded_block, assemble.
  rewrite set_nullable_loop_value.
  set (head := map call_set_nullable _).
  assert (Hquiet : Forall quiet head) by apply set_nullable_calls_quiet.
  set (st0 := log st head).
  assert (Hstate0 : state_ok p st0) by exact Hstate.
  destruct (outer_loop_spec p bs cancelled (_child_block st) fuel st0
              (empty_block p) [])
    as (st1 & c1 & E & Hdone & Hexp & Hcap & Hasm & Hrows & Hstate1 & Hfull & HB);
    try done; [by apply assembled_empty_block | simpl; lia |].
  change (expansion st0) with (expansion st) in Hexp.
  simpl in Hcap, Hasm, Hfull.
  destruct (flush_and_pad_render p (_child_block st) st1 c1 E Hstate1 Hasm HB)
    as (Hrender & Hf & Hb & Ho & Ht2 & He & Hc); [lia |].
  assert (Hnil : _cur_child_offset st1 = -1 -> expansion st1 = [])
    by apply expansion_no_row.
  destruct (prefix_take (expansion st) E (expansion st1) (Z.to_nat bs) Hexp)
    as [HE Hrest]; [lia | destruct Hfull; [left; lia | right; auto] |].
  assert (Hexp2 : expansion (flush_and_pad p st1 c1).1 = expansion st1).
  { unfold expansion. by rewrite Ho, Hf, Hb. }
  exists (flush_and_pad p st1 c1).1.
  rewrite Hdone.
  destruct (flush_and_pad p st1 c1) as [st2 c2] eqn:Hfp. simpl in *.
  rewrite Hrender, HE, Hfilter.
  split; [done |].
  split; [by rewrite Hexp2 |].
  split.
  { destruct Hstate1 as (Hok1 & Ht1 & Hrows1 & Hrow1).
    split; [unfold fns_ok in *; by rewrite Hf |].
    split; [lia |]. split; [by rewrite Hb |].
    destruct Hrow1 as [(H1 & H2 & H3) | (H1 & H2 & H3)].
    - left. unfold no_row. by rewrite Ho, Hb.
    - right. unfold row_bound. by rewrite Ho, Hb, Hf. }
  split; [done |]. split.
  { intros row. rewrite Hexp2, Hc, Hrows, Hexp, count_row_app.
    unfold st0. simpl. rewrite rows_emitted_app.
    rewrite (rows_emitted_quiet row head) by done. lia. }
  split.
  { rewrite Hb, Hexp2. destruct HB as [? | Hidle]; [by left | right; auto]. }
  intros Hdrain. rewrite Ho.
  destruct Hfull as [Hfull | ?]; [| done].
  destruct HB as [HB | ?]; [| done].
  destruct Hdrain as [Hless | Hidle].
  { rewrite HE, length_take in Hfull. lia. }
  destruct Hstate as (_ & _ & _ & [(_ & Hz & _) | (Hin & _)]); [| lia].
  destruct Hstate1 as (_ & _ & _ & [(Hoff1 & _) | (Hin1 & _)]); [done |].
  rewrite HB in Hin1. lia.
Qed.

End BlockFacts.

(** *** Rows per child row *)

Section CountFacts.

Implicit Types st : TableFunctionLocalState ValueFunction.

Lemma bound_values_length (f : ValueFunction) (row : Z) :
  Z.of_nat (length (values_of (ValueFunction.bind f row)))
  = row_factor (length (fn_values f !!! Z.to_nat row)) (fn_outer f).
Proof.
  unfold values_of, ValueFunction.empty, row_factor. simpl.
  destruct (fn_values f !!! Z.to_nat row) as [|v vs]; simpl.
  - by destruct (fn_outer f).
  - lia.
Qed.

Lemma expansion_of_row_length (fns : list ValueFunction) (row : nat) :
  Z.of_nat (length (expansion_of_row fns row))
  = expected_rows fns (Z.of_nat row).
Proof.
  unfold expansion_of_row, expected_rows.
  rewrite length_map, product_length, map_map. f_equal.
  apply map_ext. intros f. apply bound_values_length.
Qed.

Lemma remaining_fresh_length (fns : list ValueFunction) (row : Z) :
  Forall (fn_bound row) fns ->
  Forall (fun f => fn_eos f = false /\ fn_offset f = 0%nat) fns ->
  Z.of_nat (length (remaining fns)) = expected_rows fns row.
Proof.
  intros Hb Hfresh. rewrite remaining_fresh.
  - unfold expected_rows. rewrite product_length, map_map. f_equal.
    apply Forall_fmap_ext_1. eapply Forall_impl; [exact Hb |].
    intros f (Hcur & _). simpl.
    rewrite <- bound_values_length.
    unfold values_of, ValueFunction.empty. simpl. by rewrite Hcur.
  - eapply Forall_impl; [exact Hfresh |].
    intros f [Heos Hoff]. unfold position. by rewrite Heos.
Qed.

Lemma count_row_flat_map (fns : list ValueFunction) (row : Z) (a n : nat) :
  count_row row (flat_map (expansion_of_row fns) (seq a n))
  = if (Z.of_nat a <=? row) && (row <? Z.of_nat (a + n))
    then expected_rows fns row else 0.
Proof.
  revert a. induction n as [|n IH]; intros a; simpl.
  - destruct (Z.leb_spec (Z.of_nat a) row), (Z.ltb_spec row (Z.of_nat (a + 0)));
      simpl; (done || lia).
  - rewrite count_row_app, IH.
    unfold expansion_of_row at 1. rewrite count_row_pair.
    pose proof (expansion_of_row_length fns a) as Hlen.
    unfold expansion_of_row in Hlen. rewrite length_map in Hlen. rewrite Hlen.
    destruct (Z.eqb_spec (Z.of_nat a) row) as [<- | Hne].
    + destruct (Z.leb_spec (Z.of_nat (S a)) (Z.of_nat a)); [lia |]. simpl.
      destruct (Z.leb_spec (Z.of_nat a) (Z.of_nat a)); [| lia].
      destruct (Z.ltb_spec (Z.of_nat a) (Z.of_nat (a + S n))); [| lia].
      simpl. lia.
    + destruct (Z.leb_spec (Z.of_nat (S a)) row),
               (Z.leb_spec (Z.of_nat a) row),
               (Z.ltb_spec row (Z.of_nat (S a + n))),
               (Z.ltb_spec row (Z.of_nat (a + S n))); simpl; lia.
Qed.

(** Nothing is to come for a child row the operator has left. *)
Lemma count_row_expansion_left p st (row : Z) :
  state_ok p st ->
  _cur_child_offset st = -1 \/ row < _cur_child_offset st ->
  count_row row (expansion st) = 0.
Proof.
  intros (_ & _ & _ & Hrow) Hleft.
  destruct (Z.eq_dec (_cur_child_offset st) (-1)) as [Hidle | Hon].
  { by rewrite expansion_no_row. }
  destruct Hleft as [? | Hlt]; [done |].
  destruct Hrow as [(? & _) | (Hoff & _)]; [done |].
  rewrite expansion_active by lia.
  rewrite count_row_app, count_row_pair. unfold rows_to_come.
  rewrite count_row_flat_map.
  destruct (Z.eqb_spec (_cur_child_offset st) row); [lia |].
  destruct (Z.leb_spec (Z.of_nat (Z.to_nat (_cur_child_offset st + 1))) row);
    [lia | done].
Qed.

(** Everything is to come for a child row the operator has just bound
    or has not reached yet. *)
Lemma count_row_expansion_ahead p st (row : Z) :
  state_ok p st ->
  fresh st ->
  0 <= row ->
  _cur_child_offset st <= row < rows (_child_block st) ->
  count_row row (expansion st) = expected_rows (_fns st) row.
Proof.
  intros (_ & _ & _ & Hrow) Hfresh Hrow0 Hrange.
  destruct Hrow as [(_ & Hz & _) | (Hoff & Hbound & _)]; [lia |].
  rewrite expansion_active by lia.
  rewrite count_row_app, count_row_pair. unfold rows_to_come.
  rewrite count_row_flat_map.
  destruct (Z.eqb_spec (_cur_child_offset st) row) as [Heq | Hne].
  - rewrite (remaining_fresh_length _ (_cur_child_offset st)) by done.
    destruct (Z.leb_spec (Z.of_nat (Z.to_nat (_cur_child_offset st + 1))) row);
      [lia |]. simpl. rewrite Heq. lia.
  - destruct (Z.leb_spec (Z.of_nat (Z.to_nat (_cur_child_offset st + 1))) row);
      [| lia].
    destruct (Z.ltb_spec row
                (Z.of_nat (Z.to_nat (_cur_child_offset st + 1)
                           + Z.to_nat (rows (_child_block st)
                                       - (_cur_child_offset st + 1)))));
      [| lia].
    simpl. lia.
Qed.

Lemma expected_rows_zero (fns : list ValueFunction) (row : Z) :
  (exists f, f ∈ fns /\ fn_outer f = false
             /\ fn_values f !!! Z.to_nat row = []) ->
  expected_rows fns row = 0.
Proof.
  intros (f & Hin & Ho & Hv). unfold expected_rows.
  induction fns as [|g fns IH]; [by apply elem_of_nil in Hin |].
  simpl. apply elem_of_cons in Hin as [<- | Hin].
  - rewrite Ho, Hv. change (row_factor (length []) false) with 0. lia.
  - rewrite IH by done. lia.
Qed.

(** Fill calls keep, for every child row, the rows reported so far plus
    the rows to come. *)
Lemma values_of_bound (f : ValueFunction) (row : Z) :
  fn_bound row f -> values_of (ValueFunction.bind f row) = values_of f.
Proof.
  intros (Hcur & _). unfold values_of, ValueFunction.empty. simpl.
  by rewrite <- Hcur.
Qed.

(** When a row was just bound, what is to come is the product of the
    value lists of every row from that row on. *)
Lemma expansion_fresh p st :
  state_ok p st -> fresh st -> 0 <= _cur_child_offset st ->
  expansion st
  = flat_map (expansion_of_row (_fns st))
      (seq (Z.to_nat (_cur_child_offset st))
           (Z.to_nat (rows (_child_block st) - _cur_child_offset st))).
Proof.
  intros (_ & _ & _ & Hrow) Hfresh Hoff.
  destruct Hrow as [(Hno & _) | (Hin & Hbound & _)]; [lia |].
  rewrite expansion_active by done. unfold rows_to_come.
  replace (Z.to_nat (rows (_child_block st) - _cur_child_offset st))
    with (S (Z.to_nat (rows (_child_block st) - (_cur_child_offset st + 1))))
    by lia.
  simpl. replace (S (Z.to_nat (_cur_child_offset st)))
    with (Z.to_nat (_cur_child_offset st + 1)) by lia.
  f_equal. unfold expansion_of_row. rewrite Z2Nat.id by lia. f_equal.
  rewrite remaining_fresh.
  - f_equal. apply map_ext_in. intros f Hf.
    symmetry. apply values_of_bound.
    apply (proj1 (Forall_forall _ _) Hbound). by apply list_elem_of_In.
  - eapply Forall_impl; [exact Hfresh |].
    intros f [Heos Hpos]. unfold position. by rewrite Heos.
Qed.

Lemma segments_nil {A} (sizes : list Z) :
  segments sizes ([] : list A) = map (fun _ => []) sizes.
Proof.
  induction sizes as [|n sizes IH]; simpl; [done |].
  by rewrite take_nil, drop_nil, IH.
Qed.

(** Fill calls one after the other, none cancelled, with conjuncts whose
    evaluation does not fail: the calls hand on, filtered, consecutive
    segments of what was to come. *)
Lemma fill_calls_spec p (runs : list (Z * (nat -> Status))) :
  forall st,
  state_ok p st ->
  _current_row_insert_times st = 0 ->
  Forall (fun run => 0 <= run.1 < 2 ^ 31 /\ forall k, run.2 k = OK) runs ->
  (forall b, _conjuncts_status p b = OK) ->
  exists fuel0 : nat, forall fuel, (fuel0 <= fuel)%nat ->
    exists st',
      fill_calls p fuel runs st
      = Done (st',
              map (fun seg => filter_block (_conjuncts p)
                                (render p (_child_block st) seg))
                  (segments (map fst runs) (expansion st)))
      /\ expansion st
         = concat (segments (map fst runs) (expansion st)) ++ expansion st'
      /\ state_ok p st'
      /\ (forall row,
            rows_emitted row (calls st') + count_row row (expansion st')
            = rows_emitted row (calls st) + count_row row (expansion st))
      /\ (Z.of_nat (length (expansion st)) < foldr Z.add 0 (map fst runs)
          \/ _cur_child_offset st = -1 ->
          _cur_child_offset st' = -1).
Proof.
  induction runs as [|[bs cancelled] runs IH];
    intros st Hstate Ht Hruns Hfilter.
  - exists 0%nat. intros fuel _. exists st. simpl.
    split; [done |]. split; [done |]. split; [done |].
    split; [done |]. intros [? | ?]; [lia | done].
  - apply Forall_cons in Hruns as [[Hbs Hrun] Hruns]. simpl in Hbs, Hrun.
    set (fuel1 := (budget p bs st (empty_block p) false + 2)%nat).
    destruct (get_expanded_block_spec p bs cancelled st fuel1 Hstate Ht Hbs)
      as (st1 & Hdone & Hexp1 & Hstate1 & Ht1 & Hrows1 & HB1 & Hdrain1);
      [done | done | apply Hfilter |].
    destruct (IH st1 Hstate1 Ht1 Hruns Hfilter) as (fuel2 & Hrest).
    exists (Nat.max fuel1 fuel2). intros fuel Hfuel.
    destruct (Hrest fuel) as (st' & Hdone' & Hexp' & Hstate' & Hrows' & Hdrain');
      [lia |].
    exists st'. simpl.
    rewrite (get_expanded_block_mono p bs cancelled fuel1 fuel st _ _ Hdone)
      by lia.
    rewrite Hdone'. split.
    { do 3 f_equal. rewrite Hexp1.
      destruct HB1 as [-> | Hnil]; [done |].
      rewrite Hexp1 in Hnil. rewrite Hnil, segments_nil, !map_map.
      apply map_ext. intros _.
      by rewrite (render_nil p (_child_block st1) (_child_block st)). }
    split.
    { rewrite <- app_assoc, <- Hexp1, <- Hexp'. rewrite Hexp1.
      by rewrite take_drop. }
    split; [done |]. split.
    { intros row. rewrite Hrows', Hrows1. done. }
    intros Hdrain. apply Hdrain'.
    destruct (decide (Z.of_nat (length (expansion st)) < bs)) as [Hless | Hmore].
    + right. apply Hdrain1. by left.
    + destruct Hdrain as [Hsum | Hidle].
      * left. rewrite Hexp1, length_drop. lia.
      * right. apply Hdrain1. by right.
Qed.

(** C1. From a child row just bound, through any number of fill calls of
    any capacities, none of them cancelled, with conjuncts whose
    evaluation does not fail.  [E] lists what is to come, an output row
    after the other with the child row it comes from: in [E] every child
    row from the bound one on has as many output rows as the product,
    over the functions, of the size of the value set, or 1 for an outer
    function without values, or 0 for any other function without values;
    so none when a function that is not outer has no value for the row.
    The calls return and the blocks they hand on are, filtered by the
    conjuncts, the consecutive segments of [E] of the lengths of their
    capacities, rendered as blocks.  When the capacities add up to more
    than the length of [E], the operator has left every child row; and a
    child row the operator has left has all its output rows in the
    segments handed on, as many as [get_value] reported for it. *)
Theorem rows_per_child_row p (runs : list (Z * (nat -> Status)))
    (st : TableFunctionLocalState ValueFunction) :
  state_ok p st ->
  _current_row_insert_times st = 0 ->
  fresh st ->
  0 <= _cur_child_offset st ->
  Forall (fun run => 0 <= run.1 < 2 ^ 31 /\ forall k, run.2 k = OK) runs ->
  (forall b, _conjuncts_status p b = OK) ->
  let E := flat_map (expansion_of_row (_fns st))
             (seq (Z.to_nat (_cur_child_offset st))
                  (Z.to_nat (rows (_child_block st) - _cur_child_offset st))) in
  let segs := segments (map fst runs) E in
  (forall row, _cur_child_offset st <= row < rows (_child_block st) ->
     count_row row E = expected_rows (_fns st) row
     /\ ((exists f, f ∈ _fns st /\ fn_outer f = false
                    /\ fn_values f !!! Z.to_nat row = []) ->
         count_row row E = 0))
  /\ exists fuel0 : nat, forall fuel, (fuel0 <= fuel)%nat ->
       exists st',
         fill_calls p fuel runs st
         = Done (st',
                 map (fun seg => filter_block (_conjuncts p)
                                   (render p (_child_block st) seg)) segs)
         /\ (Z.of_nat (length E) < foldr Z.add 0 (map fst runs) ->
             _cur_child_offset st' = -1)
         /\ forall row,
              _cur_child_offset st <= row < rows (_child_block st) ->
              _cur_child_offset st' = -1 \/ row < _cur_child_offset st' ->
              count_row row (concat segs) = expected_rows (_fns st) row
              /\ rows_emitted row (calls st') - rows_emitted row (calls st)
                 = expected_rows (_fns st) row.
Proof.
  intros Hstate Ht Hfresh Hoff Hruns Hfilter E segs.
  assert (HE : expansion st = E) by (by apply (expansion_fresh p)).
  assert (Hcount : forall row,
            _cur_child_offset st <= row < rows (_child_block st) ->
            count_row row E = expected_rows (_fns st) row).
  { intros row Hrange. rewrite <- HE.
    apply (count_row_expansion_ahead p); (done || lia). }
  split.
  { intros row Hrange. split; [by apply Hcount |].
    intros Hzero. rewrite Hcount by done. by apply expected_rows_zero. }
  destruct (fill_calls_spec p runs st Hstate Ht Hruns Hfilter) as (fuel0 & Hrun).
  exists fuel0. intros fuel Hfuel.
  destruct (Hrun fuel Hfuel) as (st' & Hdone & Hexp & Hstate' & Hrows & Hdrain).
  rewrite HE in Hdone, Hexp, Hdrain. fold segs in Hdone, Hexp.
  exists st'. split; [done |]. split; [intros Hsum; apply Hdrain; by left |].
  intros row Hrange Hleft.
  specialize (Hrows row).
  pose proof (count_row_expansion_left p st' row Hstate' Hleft) as Hnone.
  rewrite HE in Hrows.
  assert (Hsplit : count_row row E
                   = count_row row (concat segs) + count_row row (expansion st')).
  { rewrite Hexp at 1. apply count_row_app. }
  rewrite Hcount in Hrows, Hsplit by done. lia.
Qed.

End CountFacts.

(** *** Sample states *)

Lemma sample_st_AB_ok : state_ok Sample.p2 Sample.st_AB.
Proof.
  split; [split; arith |]. split; [arith |]. split; [arith |]. right.
  split; [split; arith |]. split.
  - repeat constructor; simpl; try lia; intros; try discriminate; simpl in *; lia.
  - left. repeat constructor.
Qed.

Lemma sample_st_AB_fresh : fresh Sample.st_AB.
Proof. repeat constructor. Qed.

Lemma sample_runs_ok (sizes : list Z) :
  Forall (fun bs => 0 <= bs < 2 ^ 31) sizes ->
  Forall (fun run : Z * (nat -> Status) =>
            0 <= run.1 < 2 ^ 31 /\ forall k, run.2 k = OK)
         (map (fun bs => (bs, Sample.running)) sizes).
Proof.
  intros Hsizes. apply Forall_fmap. eapply Forall_impl; [exact Hsizes |].
  intros bs Hbs. by split.
Qed.

(** The sample block through a call of capacity 4 and one of capacity
    100: a block of four rows, then one of three; six rows come from the
    first child row (two values times three) and one from the second (one
    value times an outer function without values); when the calls are
    over no row is bound. *)
Lemma rows_per_child_row_witness :
  state_ok Sample.p2 Sample.st_AB
  /\ _current_row_insert_times Sample.st_AB = 0
  /\ fresh Sample.st_AB
  /\ 0 <= _cur_child_offset Sample.st_AB
  /\ Forall (fun run : Z * (nat -> Status) =>
               0 <= run.1 < 2 ^ 31 /\ forall k, run.2 k = OK)
            [(4, Sample.running); (100, Sample.running)]
  /\ (forall b, _conjuncts_status Sample.p2 b = OK)
  /\ exists fuel0 : nat, forall fuel, (fuel0 <= fuel)%nat ->
       exists st',
         fill_calls Sample.p2 fuel
           [(4, Sample.running); (100, Sample.running)] Sample.st_AB
         = Done (st',
                 [[[Value 100; Value 100; Value 100; Value 100];
                   [Null; Null; Null; Null];
                   [Value 1; Value 1; Value 1; Value 2];
                   [Value 7; Value 8; Value 9; Value 7]];
                  [[Value 100; Value 100; Value 200];
                   [Null; Null; Null];
                   [Value 2; Value 2; Value 3];
                   [Value 8; Value 9; Null]]])
         /\ _cur_child_offset st' = -1
         /\ rows_emitted 0 (calls st') - rows_emitted 0 (calls Sample.st_AB) = 6
         /\ rows_emitted 1 (calls st') - rows_emitted 1 (calls Sample.st_AB) = 1.
Proof.
  assert (Hruns : Forall (fun run : Z * (nat -> Status) =>
                            0 <= run.1 < 2 ^ 31 /\ forall k, run.2 k = OK)
                         [(4, Sample.running); (100, Sample.running)]).
  { apply (sample_runs_ok [4; 100]). repeat constructor; arith. }
  assert (Hoff : 0 <= _cur_child_offset Sample.st_AB) by arith.
  assert (Hfilter : forall b, _conjuncts_status Sample.p2 b = OK) by done.
  split; [exact sample_st_AB_ok |]. split; [reflexivity |].
  split; [exact sample_st_AB_fresh |]. split; [exact Hoff |].
  split; [exact Hruns |]. split; [exact Hfilter |].
  pose proof (rows_per_child_row Sample.p2
                [(4, Sample.running); (100, Sample.running)] Sample.st_AB
                sample_st_AB_ok eq_refl sample_st_AB_fresh Hoff Hruns Hfilter)
    as Hrows.
  cbv zeta in Hrows. destruct Hrows as (_ & fuel0 & Hrun).
  exists fuel0. intros fuel Hfuel.
  destruct (Hrun fuel Hfuel) as (st' & Hdone & Hdrain & Hleft).
  assert (Hidle : _cur_child_offset st' = -1) by (apply Hdrain; arith).
  exists st'. split; [exact Hdone |]. split; [exact Hidle |].
  split.
  - refine (proj2 (Hleft 0 _ (or_introl Hidle))). arith.
  - refine (proj2 (Hleft 1 _ (or_introl Hidle))). arith.
Defined.

(** *** The filter on a rendered block *)

Section FilterFacts.

Implicit Types st : TableFunctionLocalState ValueFunction.

Lemma select_map {A} (keep : A -> bool) (g : A -> Field) (l : list A) :
  select (map keep l) (map g l) = map g (List.filter keep l).
Proof.
  induction l as [|x l IH]; simpl; [done |].
  destruct (keep x); simpl; by rewrite IH.
Qed.

Lemma map_seq_lookup_total {A B} `{Inhabited A} (f : A -> B) (l : list A) :
  map (fun j => f (l !!! j)) (seq 0 (length l)) = map f l.
Proof.
  induction l as [|x l IH] using rev_ind; [done |].
  rewrite length_app, Nat.add_1_r, seq_S, !map_app. simpl. f_equal.
  - rewrite <- IH. apply map_ext_in. intros j Hj. apply in_seq in Hj.
    by rewrite lookup_total_app_l by lia.
  - rewrite lookup_total_app_r by lia. by rewrite Nat.sub_diag.
Qed.

Lemma rows_render p (child : list Column) (out : list OutRow) :
  1 <= _fn_num p -> rows (render p child out) = Z.of_nat (length out).
Proof.
  intros Hpos. unfold render.
  replace (_child_slots p + Z.to_nat (_fn_num p))%nat
    with (S (_child_slots p + Z.to_nat (_fn_num p) - 1)) by lia.
  simpl. unfold size. by rewrite render_column_cells, length_map.
Qed.

Lemma block_row_render p (child : list Column) (out : list OutRow) (j : nat) :
  block_row (render p child out) j = output_row p child (out !!! j)
  \/ (length out <= j)%nat.
Proof.
  destruct (decide (j < length out)%nat) as [Hj | ?]; [left | right; lia].
  unfold block_row, render, output_row. rewrite map_map.
  apply map_ext. intros k. rewrite render_column_cells.
  change (map (output_cell p child k) out) with (output_cell p child k <$> out).
  by rewrite (list_lookup_total_fmap (output_cell p child k) out j).
Qed.

(** The filter on a rendered block renders the rows that stay. *)
Lemma filter_block_render p (child : list Column) (out : list OutRow) :
  1 <= _fn_num p ->
  filter_block (_conjuncts p) (render p child out)
  = render p child (List.filter (kept p child) out).
Proof.
  intros Hpos. unfold filter_block. rewrite rows_render, Nat2Z.id by done.
  assert (Hmask : map (fun j => _conjuncts p (block_row (render p child out) j))
                      (seq 0 (length out))
                  = map (kept p child) out).
  { rewrite <- (map_seq_lookup_total (kept p child) out).
    apply map_ext_in. intros j Hj. apply in_seq in Hj.
    destruct (block_row_render p child out j) as [-> | ?]; [done | lia]. }
  rewrite Hmask. unfold render. rewrite map_map.
  apply map_ext. intros k.
  rewrite !render_column_cells. apply select_map.
Qed.

Lemma render_app p (child : list Column) (out1 out2 : list OutRow) :
  render p child (out1 ++ out2)
  = block_app (render p child out1) (render p child out2).
Proof.
  unfold render, block_app.
  induction (seq 0 (_child_slots p + Z.to_nat (_fn_num p))) as [|k l IH];
    simpl; [done |].
  rewrite IH. f_equal. by rewrite !render_column_cells, map_app.
Qed.

(** C5. A fill call of capacity [bs1] followed by one of capacity [bs2],
    each on an empty block, hand on, one block after the other, exactly
    the block that a single fill call of capacity [bs1 + bs2] hands on
    from the same state: when no poll of the three calls sees the query
    cancelled and the evaluation of the conjuncts does not fail, the
    three calls return OK, with these blocks, and leave the same rows to
    come. *)
Theorem split_fill_same_rows p (st : TableFunctionLocalState ValueFunction)
    (bs1 bs2 : Z) (cancelled1 cancelled2 cancelled : nat -> Status) :
  state_ok p st ->
  _current_row_insert_times st = 0 ->
  0 <= bs1 -> 0 <= bs2 -> bs1 + bs2 < 2 ^ 31 ->
  (forall k, cancelled1 k = OK) ->
  (forall k, cancelled2 k = OK) ->
  (forall k, cancelled k = OK) ->
  (forall b, _conjuncts_status p b = OK) ->
  exists fuel0 : nat, forall fuel, (fuel0 <= fuel)%nat ->
    exists st1 b1 e1 st2 b2 e2 st' b e,
      get_expanded_block p bs1 cancelled1 fuel st (empty_block p)
      = Done (st1, b1, Some e1)
      /\ get_expanded_block p bs2 cancelled2 fuel st1 (empty_block p)
         = Done (st2, b2, Some e2)
      /\ get_expanded_block p (bs1 + bs2) cancelled fuel st (empty_block p)
         = Done (st', b, Some e)
      /\ b = block_app b1 b2
      /\ expansion st' = expansion st2.
Proof.
  intros Hstate Ht Hbs1 Hbs2 Hsum Hrun1 Hrun2 Hrun Hfilter.
  pose proof Hstate as ([_ Hpos] & _).
  set (f1 := (budget p bs1 st (empty_block p) false + 2)%nat).
  destruct (get_expanded_block_spec p bs1 cancelled1 st f1 Hstate Ht)
    as (st1 & Hdone1 & Hexp1 & Hstate1 & Ht1 & _ & HB1 & _);
    [lia | done | done | apply Hfilter |].
  set (f2 := (budget p bs2 st1 (empty_block p) false + 2)%nat).
  destruct (get_expanded_block_spec p bs2 cancelled2 st1 f2 Hstate1 Ht1)
    as (st2 & Hdone2 & Hexp2 & _); [lia | done | done | apply Hfilter |].
  set (f := (budget p (bs1 + bs2) st (empty_block p) false + 2)%nat).
  destruct (get_expanded_block_spec p (bs1 + bs2) cancelled st f Hstate Ht)
    as (st' & Hdone & Hexp & _); [lia | done | done | apply Hfilter |].
  exists (Nat.max f1 (Nat.max f2 f)). intros fuel Hfuel.
  do 9 eexists.
  split; [apply (get_expanded_block_mono p bs1 _ f1 fuel _ _ _ Hdone1); lia |].
  split; [apply (get_expanded_block_mono p bs2 _ f2 fuel _ _ _ Hdone2); lia |].
  split; [apply (get_expanded_block_mono p (bs1 + bs2) _ f fuel _ _ _ Hdone);
          lia |].
  split.
  - rewrite !filter_block_render by done.
    assert (Hsecond : render p (_child_block st1)
                        (List.filter (kept p (_child_block st1))
                           (take (Z.to_nat bs2) (expansion st1)))
                      = render p (_child_block st)
                          (List.filter (kept p (_child_block st))
                             (take (Z.to_nat bs2) (expansion st1)))).
    { destruct HB1 as [-> | Hnil]; [done |].
      rewrite Hnil, take_nil. simpl. apply render_nil. }
    rewrite Hsecond, <- render_app, <- List.filter_app. do 2 f_equal.
    rewrite Hexp1, Z2Nat.inj_add by lia.
    symmetry. apply take_take_drop.
  - rewrite Hexp, Hexp2, Hexp1, drop_drop. f_equal. lia.
Qed.

End FilterFacts.

Lemma split_fill_same_rows_witness :
  state_ok Sample.p2 Sample.st_AB
  /\ _current_row_insert_times Sample.st_AB = 0
  /\ 0 <= 4 /\ 0 <= 2 /\ 4 + 2 < 2 ^ 31
  /\ (forall k, Sample.running k = OK)
  /\ (forall b, _conjuncts_status Sample.p2 b = OK)
  /\ exists fuel0 : nat, forall fuel, (fuel0 <= fuel)%nat ->
       exists st1 b1 e1 st2 b2 e2 st' b e,
         get_expanded_block Sample.p2 4 Sample.running fuel Sample.st_AB
           (empty_block Sample.p2) = Done (st1, b1, Some e1)
         /\ get_expanded_block Sample.p2 2 Sample.running fuel st1
              (empty_block Sample.p2) = Done (st2, b2, Some e2)
         /\ get_expanded_block Sample.p2 (4 + 2) Sample.running fuel
              Sample.st_AB (empty_block Sample.p2) = Done (st', b, Some e)
         /\ b = block_app b1 b2
         /\ expansion st' = expansion st2.
Proof.
  assert (Hrun : forall k, Sample.running k = OK) by done.
  assert (Hfilter : forall b, _conjuncts_status Sample.p2 b = OK) by done.
  split; [exact sample_st_AB_ok |]. split; [reflexivity |].
  split; [arith |]. split; [arith |]. split; [arith |].
  split; [exact Hrun |]. split; [exact Hfilter |].
  exact (split_fill_same_rows Sample.p2 Sample.st_AB 4 2 Sample.running
           Sample.running Sample.running sample_st_AB_ok
           eq_refl ltac:(arith) ltac:(arith) ltac:(arith) Hrun Hrun Hrun
           Hfilter).
Defined.

(** On the sample block: four rows, then two, against six at once. *)
Example split_fill_sample :
  let first := outcome_value (get_expanded_block Sample.p2 4 Sample.running 20 Sample.st_AB
                                (empty_block Sample.p2)) in
  let second := outcome_value (get_expanded_block Sample.p2 2 Sample.running 20 first.1.1
                                 (empty_block Sample.p2)) in
  let whole := outcome_value (get_expanded_block Sample.p2 6 Sample.running 20 Sample.st_AB
                                (empty_block Sample.p2)) in
  whole.1.2 = block_app first.1.2 second.1.2
  /\ whole.1.2
     = [[Value 100; Value 100; Value 100; Value 100; Value 100; Value 100];
        [Null; Null; Null; Null; Null; Null];
        [Value 1; Value 1; Value 1; Value 2; Value 2; Value 2];
        [Value 7; Value 8; Value 9; Value 7; Value 8; Value 9]].
Proof. repeat split. Qed.

(** ** Setting the operator up *)

(** *** The bitmap of the output slot ids *)

Lemma max_slot_id_from (ids : list Z) (m : Z) :
  let r := fold_left
             (fun max_id slot_id => if slot_id >? max_id then slot_id else max_id)
             ids m in
  m <= r /\ Forall (fun id => id <= r) ids /\ (r = m \/ r ∈ ids).
Proof.
  revert m. induction ids as [|id ids IH]; intros m; simpl.
  - split; [lia |]. split; [constructor | by left].
  - destruct (IH (if id >? m then id else m)) as (Hle & Hall & Hin).
    destruct (Z.gtb_spec id m) as [Hgt | Hngt].
    + split; [lia |]. split; [constructor; [lia | done] |].
      right. destruct Hin as [-> | Hin]; [apply list_elem_of_here |].
      by apply list_elem_of_further.
    + split; [lia |]. split; [constructor; [lia | done] |].
      destruct Hin as [-> | Hin]; [by left | right].
      by apply list_elem_of_further.
Qed.

Lemma set_slots_length (ids : list Z) (v : list bool) :
  length (fold_left
            (fun v slot_id =>
               if slot_id <? 0 then v else <[Z.to_nat slot_id := true]> v)
            ids v)
  = length v.
Proof.
  revert v. induction ids as [|id ids IH]; intros v; simpl; [done |].
  rewrite IH. destruct (id <? 0); [done | apply length_insert].
Qed.

Lemma set_slots_lookup (ids : list Z) (v : list bool) (i : nat) :
  Forall (fun id => 0 <= id < Z.of_nat (length v)) ids ->
  fold_left
    (fun v slot_id =>
       if slot_id <? 0 then v else <[Z.to_nat slot_id := true]> v)
    ids v !! i = Some true
  <-> Z.of_nat i ∈ ids \/ v !! i = Some true.
Proof.
  revert v. induction ids as [|id ids IH]; intros v Hall; simpl.
  - split; [by right |]. intros [Hin | Hv]; [| done].
    by apply elem_of_nil in Hin.
  - apply Forall_cons in Hall as [Hid Hall].
    destruct (Z.ltb_spec id 0) as [? | _]; [lia |].
    rewrite IH by (by rewrite length_insert).
    destruct (decide (Z.to_nat id = i)) as [<- | Hne].
    + rewrite list_lookup_insert_eq by lia. rewrite Z2Nat.id by lia.
      split; [intros _; left; apply list_elem_of_here | by right].
    + rewrite list_lookup_insert_ne by done. split.
      * intros [Hin | Hv]; [left; by apply list_elem_of_further | by right].
      * intros [Hin | Hv]; [| by right].
        apply elem_of_cons in Hin as [Heq | Hin]; [lia | by left].
Qed.

(** X1. [_prepare_output_slot_ids] on slot ids that are not negative
    and below the largest [int], so that [max_id + 1] is an [int]: the
    bitmap has one bit per id up to the largest one (none without ids),
    and bit [i] is set exactly when [i] is one of the ids. *)
Theorem prepare_output_slot_ids_spec (ids : list Z) :
  Forall (fun id => 0 <= id < 2 ^ 31 - 1) ids ->
  (ids = [] -> _prepare_output_slot_ids ids = [])
  /\ (forall id, id ∈ ids ->
        (Z.to_nat id < length (_prepare_output_slot_ids ids))%nat)
  /\ (ids <> [] ->
      exists id, id ∈ ids
        /\ length (_prepare_output_slot_ids ids) = S (Z.to_nat id))
  /\ (forall i : nat,
        _prepare_output_slot_ids ids !! i = Some true <-> Z.of_nat i ∈ ids).
Proof.
  intros Hpos. unfold _prepare_output_slot_ids.
  pose proof (max_slot_id_from ids (-1)) as Hmax. cbv zeta in Hmax.
  fold (max_slot_id ids) in Hmax. destruct Hmax as (Hge & Hall & Hin).
  assert (Hlen : forall id, id ∈ ids -> 0 <= id <= max_slot_id ids).
  { intros id Hid. split.
    - by eapply (proj1 (Forall_forall _ _) Hpos).
    - by eapply (proj1 (Forall_forall _ _) Hall). }
  assert (Hint : max_slot_id ids < 2 ^ 31 - 1).
  { destruct Hin as [-> | Hm]; [lia |].
    by eapply (proj1 (Forall_forall _ _) Hpos). }
  rewrite to_int_small, to_size_t_small by lia.
  split; [by intros -> |]. split.
  - intros id Hid. rewrite set_slots_length, length_replicate.
    specialize (Hlen id Hid). lia.
  - split.
    + intros Hne. destruct Hin as [Hm | Hm].
      * destruct ids as [|id ids]; [done |].
        specialize (Hlen id (list_elem_of_here _ _)). lia.
      * exists (max_slot_id ids). split; [done |].
        rewrite set_slots_length, length_replicate.
        specialize (Hlen _ Hm). lia.
    + intros i. rewrite set_slots_lookup.
      * split; [| by left]. intros [Hi | Hi]; [done |].
        apply lookup_replicate in Hi as [Hi _]. done.
      * rewrite length_replicate. apply Forall_forall. intros id Hid.
        specialize (Hlen id Hid). lia.
Qed.

Lemma prepare_output_slot_ids_spec_witness :
  Forall (fun id => 0 <= id < 2 ^ 31 - 1) [3; 0; 3]
  /\ _prepare_output_slot_ids [3; 0; 3] = [true; false; false; true]
  /\ (forall i : nat,
        _prepare_output_slot_ids [3; 0; 3] !! i = Some true
        <-> Z.of_nat i ∈ [3; 0; 3]).
Proof.
  assert (Hpos : Forall (fun id => 0 <= id < 2 ^ 31 - 1) [3; 0; 3]).
  { repeat constructor; lia. }
  split; [exact Hpos |]. split; [reflexivity |].
  exact (proj2 (proj2 (proj2 (prepare_output_slot_ids_spec [3; 0; 3] Hpos)))).
Defined.

(** *** The partition of the child slots *)

Lemma filter_ascending (f : nat -> bool) (a n : nat) :
  forall i j x y, (i < j)%nat ->
    List.filter f (seq a n) !! i = Some x ->
    List.filter f (seq a n) !! j = Some y -> (x < y)%nat.
Proof.
  revert a. induction n as [|n IH]; intros a i j x y Hij Hi Hj; simpl in *.
  - by rewrite lookup_nil in Hi.
  - assert (Hrest : forall k z, List.filter f (seq (S a) n) !! k = Some z ->
                                (a < z)%nat).
    { intros k z Hk. apply list_elem_of_lookup_2, list_elem_of_In in Hk.
      apply filter_In in Hk as [Hk _]. apply in_seq in Hk. lia. }
    destruct (f a).
    + destruct i as [|i], j as [|j]; simpl in *; try lia.
      * injection Hi as <-. by eapply Hrest.
      * eapply (IH (S a) i j); [lia | done | done].
    + by eapply (IH (S a) i j).
Qed.

Lemma filter_partition (f : nat -> bool) (l : list nat) :
  List.filter f l ++ List.filter (fun i => negb (f i)) l ≡ₚ l.
Proof.
  induction l as [|x l IH]; simpl; [done |].
  destruct (f x); simpl.
  - by rewrite IH.
  - rewrite <- Permutation_middle. by rewrite IH.
Qed.

(** X2. The loop at the end of [prepare]: the two index lists together
    hold every child slot index exactly once, [_output_slot_indexs] those
    that need a copy and [_useless_slot_indexs] the others, each list in
    ascending order. *)
Theorem slot_indexs_partition (p : TableFunctionOperatorX) :
  _output_slot_indexs p ++ _useless_slot_indexs p ≡ₚ seq 0 (_child_slots p)
  /\ (forall k, k ∈ _output_slot_indexs p
        <-> (k < _child_slots p)%nat /\ _slot_need_copy p k = true)
  /\ (forall k, k ∈ _useless_slot_indexs p
        <-> (k < _child_slots p)%nat /\ _slot_need_copy p k = false)
  /\ (forall i j x y, (i < j)%nat ->
        _output_slot_indexs p !! i = Some x ->
        _output_slot_indexs p !! j = Some y -> (x < y)%nat)
  /\ (forall i j x y, (i < j)%nat ->
        _useless_slot_indexs p !! i = Some x ->
        _useless_slot_indexs p !! j = Some y -> (x < y)%nat).
Proof.
  split; [apply filter_partition |]. split; [apply slot_indexs_spec |].
  split.
  - intros k. unfold _useless_slot_indexs. rewrite slot_indexs_spec.
    by rewrite negb_true_iff.
  - split; apply filter_ascending.
Qed.

(** *** [init] *)

Section InitFacts.

Context {TExpr Ctx F : Type} `{ExprTreeFactory TExpr Ctx}
        `{TableFunctionFactory Ctx F}.

Lemma init_loop_spec (exprs : list TExpr) :
  forall op : OperatorX.State Ctx F,
  let r := OperatorX.init_loop exprs op in
  OperatorX._fn_num r.2 = OperatorX._fn_num op
  /\ OperatorX._output_slot_ids r.2 = OperatorX._output_slot_ids op
  /\ exists ctxs fns,
       OperatorX._vfn_ctxs r.2 = OperatorX._vfn_ctxs op ++ ctxs
       /\ OperatorX._fns r.2 = OperatorX._fns op ++ fns
       /\ Forall2 (fun t c => create_expr_tree t = Success c)
            (take (length ctxs) exprs) ctxs
       /\ Forall2 (made_for) (take (length fns) ctxs) fns
       /\ match r.1 with
          | OK => length ctxs = length exprs /\ length fns = length exprs
          | Error e =>
              exists t, exprs !! length fns = Some t
                /\ ((create_expr_tree t = Failure e
                     /\ length ctxs = length fns)
                    \/ (exists c, create_expr_tree t = Success c
                          /\ get_fn c = Failure e
                          /\ ctxs !! length fns = Some c
                          /\ length ctxs = S (length fns)))
          end.
Proof.
  induction exprs as [|t exprs IH]; intros op; simpl.
  - split; [done |]. split; [done |]. exists [], [].
    rewrite !app_nil_r. repeat split; constructor.
  - destruct (create_expr_tree t) as [c | e] eqn:Hc; simpl.
    + destruct (get_fn c) as [f | e] eqn:Hf; simpl.
      * match goal with
        | |- context [OperatorX.init_loop exprs ?op1] =>
            destruct (IH op1) as (Hn & Hids & ctxs & fns & Hctxs & Hfns
                                  & Hmade & Hgot & Hend)
        end.
        simpl in *. split; [done |]. split; [done |].
        exists (c :: ctxs), (set_expr_context f c :: fns).
        rewrite Hctxs, Hfns, <- !app_assoc. simpl.
        split; [done |]. split; [done |].
        split; [by constructor |].
        split; [constructor; [by exists f | done] |].
        destruct (OperatorX.init_loop exprs _).1 as [|e].
        -- lia.
        -- destruct Hend as (t' & Ht' & Hcase). exists t'. split; [done |].
           destruct Hcase as [[Hfail Hlen] | (c' & Hc' & Hf' & Hlook & Hlen)].
           ++ left. split; [done | lia].
           ++ right. exists c'. repeat split; try done. lia.
      * split; [done |]. split; [done |]. exists [c], [].
        rewrite app_nil_r. simpl. split; [done |]. split; [done |].
        split; [by repeat constructor |]. split; [constructor |].
        exists t. split; [done |]. right. by exists c.
    + split; [done |]. split; [done |]. exists [], [].
      rewrite !app_nil_r. simpl. split; [done |]. split; [done |].
      split; [constructor |]. split; [constructor |].
      exists t. split; [done |]. by left.
Qed.

Lemma init_ok_counts (base : Status) (exprs : list TExpr) (ids : list Z)
    (op : OperatorX.State Ctx F) :
  (OperatorX.init base exprs ids op).1 = OK ->
  length (OperatorX._vfn_ctxs (OperatorX.init base exprs ids op).2)
  = (length (OperatorX._vfn_ctxs op) + length exprs)%nat
  /\ length (OperatorX._fns (OperatorX.init base exprs ids op).2)
     = (length (OperatorX._fns op) + length exprs)%nat
  /\ OperatorX._fn_num (OperatorX.init base exprs ids op).2
     = to_int (Z.of_nat (length (OperatorX._fns op) + length exprs)).
Proof.
  unfold OperatorX.init. destruct base as [|e0]; simpl; [| done].
  pose proof (init_loop_spec exprs op) as Hloop. cbv zeta in Hloop.
  destruct (OperatorX.init_loop exprs op) as [[|e1] op1]; simpl in *; [| done].
  destruct Hloop as (_ & _ & ctxs & fns & -> & -> & _ & _ & Hlc & Hlf).
  intros _. rewrite !length_app. rewrite Hlc, Hlf. done.
Qed.

(** X3. [TableFunctionOperatorX::init].  When it returns OK, [Base::init]
    and, for every expression, the expression tree and the function
    lookup succeeded; the operator holds one context and one function
    more per expression, in the order of the expressions; [_fn_num] is
    the number of functions and the slot bitmap is set.  When it returns
    an error, it is that of [Base::init] or of the first expression that
    fails, the operator holds the functions of the expressions before
    that one (and the context of the failing one if the function lookup
    failed), and [_fn_num] and the slot bitmap are as they were. *)
Theorem init_spec (base : Status) (exprs : list TExpr) (ids : list Z)
    (op : OperatorX.State Ctx F) :
  let r := OperatorX.init base exprs ids op in
  (r.1 = OK ->
   base = OK
   /\ exists ctxs fns,
        Forall2 (fun t c => create_expr_tree t = Success c) exprs ctxs
        /\ Forall2 (made_for) ctxs fns
        /\ OperatorX._vfn_ctxs r.2 = OperatorX._vfn_ctxs op ++ ctxs
        /\ OperatorX._fns r.2 = OperatorX._fns op ++ fns
        /\ OperatorX._fn_num r.2
           = to_int (Z.of_nat (length (OperatorX._fns op) + length exprs))
        /\ OperatorX._output_slot_ids r.2 = _prepare_output_slot_ids ids)
  /\ (forall e, r.1 = Error e ->
      OperatorX._fn_num r.2 = OperatorX._fn_num op
      /\ OperatorX._output_slot_ids r.2 = OperatorX._output_slot_ids op
      /\ ((base = Error e /\ r.2 = op)
          \/ (base = OK
              /\ exists ctxs fns t,
                   OperatorX._vfn_ctxs r.2 = OperatorX._vfn_ctxs op ++ ctxs
                   /\ OperatorX._fns r.2 = OperatorX._fns op ++ fns
                   /\ Forall2 (fun t c => create_expr_tree t = Success c)
                        (take (length ctxs) exprs) ctxs
                   /\ Forall2 (made_for) (take (length fns) ctxs) fns
                   /\ exprs !! length fns = Some t
                   /\ ((create_expr_tree t = Failure e
                        /\ length ctxs = length fns)
                       \/ (exists c, create_expr_tree t = Success c
                             /\ get_fn c = Failure e
                             /\ ctxs !! length fns = Some c
                             /\ length ctxs = S (length fns)))))).
Proof.
  unfold OperatorX.init. destruct base as [|e0]; simpl.
  - pose proof (init_loop_spec exprs op) as Hloop. cbv zeta in Hloop.
    destruct (OperatorX.init_loop exprs op) as [[|e1] op1]; simpl in *.
    + destruct Hloop as (_ & _ & ctxs & fns & Hctxs & Hfns & Hmade & Hgot
                         & Hlc & Hlf).
      split; [| intros e He; discriminate He]. intros _. split; [done |].
      exists ctxs, fns.
      rewrite take_ge in Hmade by lia.
      rewrite take_ge in Hgot by lia.
      repeat split; try done.
      rewrite Hfns, length_app, Hlf. done.
    + destruct Hloop as (Hn & Hids & ctxs & fns & Hctxs & Hfns & Hmade & Hgot
                         & t & Ht & Hcase).
      split; [intros He; discriminate He |]. intros e He.
      injection He as <-. split; [done |]. split; [done |]. right.
      split; [done |]. by exists ctxs, fns, t.
  - split; [intros He; discriminate He |]. intros e He. injection He as <-.
    split; [done |]. split; [done |]. by left.
Qed.

End InitFacts.

(** Three expressions: the operator holds three functions, made for the
    contexts 1, 2 and 3. *)
Lemma init_spec_witness :
  (OperatorX.init OK [1; 2; 3] [0; 2] SampleFactory.operator0).1 = OK
  /\ OperatorX._fn_num
       (OperatorX.init OK [1; 2; 3] [0; 2] SampleFactory.operator0).2 = 3
  /\ exists ctxs fns,
       Forall2 (fun t c => create_expr_tree t = Success c) [1; 2; 3] ctxs
       /\ OperatorX._fns
            (OperatorX.init OK [1; 2; 3] [0; 2] SampleFactory.operator0).2
          = fns.
Proof.
  split; [reflexivity |]. split; [reflexivity |].
  pose proof (init_spec OK [1; 2; 3] [0; 2] SampleFactory.operator0) as Hinit.
  cbv zeta in Hinit.
  destruct (proj1 Hinit eq_refl) as (_ & ctxs & fns & Hmade & _ & _ & Hfns & _).
  exists ctxs, fns. split; [exact Hmade | exact Hfns].
Defined.

(** The second of three expressions has no tree, the lookup fails for the
    second of three: one function is kept, and in the second case the
    context of the failing expression as well. *)
Example init_failure_sample :
  let r1 := OperatorX.init OK [1; -2; 3] [0; 2] SampleFactory.operator0 in
  let r2 := OperatorX.init OK [1; 10; 3] [0; 2] SampleFactory.operator0 in
  r1.1 = Error 1
  /\ OperatorX._vfn_ctxs r1.2 = [1]
  /\ length (OperatorX._fns r1.2) = 1%nat
  /\ r2.1 = Error 2
  /\ OperatorX._vfn_ctxs r2.2 = [1; 10]
  /\ length (OperatorX._fns r2.2) = 1%nat
  /\ OperatorX._fn_num r2.2 = 0
  /\ OperatorX._output_slot_ids r2.2 = [].
Proof. repeat split. Qed.

(** *** [_clone_table_function] and [open] *)

Section LocalSetupFacts.

Context {Ctx F : Type} `{TableFunctionFactory Ctx F}.

Lemma length_resize_ctxs (n : nat) (ctxs : list (option Ctx)) :
  length (resize_ctxs n ctxs) = n.
Proof. unfold resize_ctxs. rewrite length_app, length_take, length_replicate. lia. Qed.

Lemma clone_loop_spec (parent : list Ctx) :
  forall (i : nat) (ctxs : list (option Ctx)) (fns : list F),
  (i + length parent <= length ctxs)%nat ->
  let r := clone_loop parent i ctxs fns in
  exists clones new,
    r.2.2 = fns ++ new
    /\ r.2.1 = take i ctxs ++ (Some <$> clones)
               ++ drop (i + length clones) ctxs
    /\ Forall2 (fun c c' => clone c = Success c')
         (take (length clones) parent) clones
    /\ Forall2 made_for (take (length new) clones) new
    /\ match r.1 with
       | OK => length clones = length parent /\ length new = length parent
       | Error e =>
           exists c, parent !! length new = Some c
             /\ ((clone c = Failure e /\ length clones = length new)
                 \/ (exists c', clone c = Success c'
                       /\ get_fn c' = Failure e
                       /\ clones !! length new = Some c'
                       /\ length clones = S (length new)))
       end.
Proof.
  induction parent as [|c parent IH]; intros i ctxs fns Hlen; simpl in *.
  - exists [], []. rewrite app_nil_r, Nat.add_0_r. simpl.
    rewrite take_drop. repeat split; constructor.
  - destruct (clone c) as [c' | e] eqn:Hc; simpl.
    + assert (Hins : <[i := Some c']> ctxs
                     = take i ctxs ++ Some c' :: drop (S i) ctxs).
      { apply insert_take_drop. lia. }
      destruct (get_fn c') as [f | e] eqn:Hf; simpl.
      * destruct (IH (S i) (<[i := Some c']> ctxs)
                    (fns ++ [set_expr_context f c']))
          as (clones & new & Hfns & Hctxs & Hcl & Hmade & Hend).
        { rewrite length_insert. lia. }
        exists (c' :: clones), (set_expr_context f c' :: new).
        rewrite Hfns, <- app_assoc. simpl. split; [done |]. split.
        { rewrite Hctxs, Hins.
          rewrite (cons_middle (Some c')), (app_assoc (take i ctxs)).
          rewrite take_app_length'
            by (rewrite length_app, length_take; simpl; lia).
          rewrite drop_app_add'
            by (rewrite length_app, length_take; simpl; lia).
          rewrite drop_drop.
          replace (i + S (length clones))%nat
            with (S i + length clones)%nat by lia.
          by rewrite <- app_assoc. }
        split; [by constructor |].
        split; [constructor; [by exists f | done] |].
        destruct (clone_loop parent _ _ _).1 as [|e].
        -- lia.
        -- destruct Hend as (c0 & Hc0 & Hcase). exists c0. split; [done |].
           destruct Hcase as [[Hfail Hl] | (c1 & Hc1 & Hf1 & Hlook & Hl)].
           ++ left. split; [done | lia].
           ++ right. exists c1. repeat split; try done. lia.
      * exists [c'], []. rewrite app_nil_r. simpl. split; [done |]. split.
        { rewrite Hins. by rewrite Nat.add_1_r. }
        split; [by repeat constructor |]. split; [constructor |].
        exists c. split; [done |]. right. by exists c'.
    + exists [], []. rewrite app_nil_r, Nat.add_0_r. simpl.
      rewrite take_drop. split; [done |]. split; [done |].
      split; [constructor |]. split; [constructor |].
      exists c. split; [done |]. by left.
Qed.

Lemma clone_table_function_fns (parent_ctxs : list Ctx)
    (ctxs : list (option Ctx)) (st : TableFunctionLocalState F) :
  let r := _clone_table_function parent_ctxs ctxs st in
  r.2.2 = set_fns st (_fns r.2.2)
  /\ (r.1 = OK ->
      length (_fns r.2.2) = (length (_fns st) + length parent_ctxs)%nat).
Proof.
  unfold _clone_table_function.
  pose proof (clone_loop_spec parent_ctxs 0
                (resize_ctxs (length parent_ctxs) ctxs) (_fns st)) as Hloop.
  rewrite length_resize_ctxs in Hloop. specialize (Hloop (le_n _)).
  cbv zeta in Hloop.
  destruct (clone_loop parent_ctxs 0 _ (_fns st)) as [s [ctxs1 fns1]].
  simpl in *.
  destruct Hloop as (clones & new & -> & _ & _ & _ & Hend).
  split; [done |]. intros ->. destruct Hend as [_ Hln].
  rewrite length_app. lia.
Qed.

(** X4. [_clone_table_function].  When it returns OK, every context of
    the operator was cloned and a function was found for every clone;
    the local state holds the clones, and one function more per context,
    in the order of the contexts.  When it returns an error, it is that
    of the first context for which the clone or the function lookup
    fails, and the local state holds the functions of the contexts before
    that one.  Nothing else of the local state changes. *)
Theorem clone_table_function_spec (parent_ctxs : list Ctx)
    (ctxs : list (option Ctx)) (st : TableFunctionLocalState F) :
  let r := _clone_table_function parent_ctxs ctxs st in
  r.2.2 = set_fns st (_fns r.2.2)
  /\ length r.2.1 = length parent_ctxs
  /\ (r.1 = OK ->
      exists clones fns,
        Forall2 (fun c c' => clone c = Success c') parent_ctxs clones
        /\ Forall2 made_for clones fns
        /\ r.2.1 = Some <$> clones
        /\ _fns r.2.2 = _fns st ++ fns)
  /\ (forall e, r.1 = Error e ->
      exists clones fns c,
        _fns r.2.2 = _fns st ++ fns
        /\ Forall2 (fun c c' => clone c = Success c')
             (take (length clones) parent_ctxs) clones
        /\ Forall2 made_for (take (length fns) clones) fns
        /\ parent_ctxs !! length fns = Some c
        /\ ((clone c = Failure e /\ length clones = length fns)
            \/ (exists c', clone c = Success c'
                  /\ get_fn c' = Failure e
                  /\ clones !! length fns = Some c'
                  /\ length clones = S (length fns)))).
Proof.
  unfold _clone_table_function.
  pose proof (clone_loop_spec parent_ctxs 0
                (resize_ctxs (length parent_ctxs) ctxs) (_fns st)) as Hloop.
  rewrite length_resize_ctxs in Hloop. specialize (Hloop (le_n _)).
  cbv zeta in Hloop.
  destruct (clone_loop parent_ctxs 0 _ (_fns st)) as [s [ctxs1 fns1]].
  simpl in *.
  destruct Hloop as (clones & new & -> & -> & Hcl & Hmade & Hend).
  split; [done |]. split.
  { rewrite length_app, length_fmap, length_drop, length_resize_ctxs.
    apply Forall2_length in Hcl. rewrite length_take in Hcl. lia. }
  split.
  - intros ->. destruct Hend as [Hlc Hln]. exists clones, new.
    rewrite take_ge in Hcl by lia. rewrite take_ge in Hmade by lia.
    split; [done |]. split; [done |]. split; [| done].
    rewrite drop_ge by (rewrite length_resize_ctxs; lia).
    by rewrite app_nil_r.
  - intros e ->. destruct Hend as (c & Hc & Hcase).
    by exists clones, new, c.
Qed.

Lemma open_loop_spec (fns : list F) :
  let r := open_loop fns in
  length r.2 = length fns
  /\ match r.1 with
     | OK => Forall2 (fun f f' => fn_open f = (OK, f')) fns r.2
     | Error e =>
         exists (n : nat) f f',
           fns !! n = Some f /\ fn_open f = (Error e, f')
           /\ r.2 !! n = Some f'
           /\ Forall2 (fun f f' => fn_open f = (OK, f')) (take n fns) (take n r.2)
           /\ drop (S n) r.2 = drop (S n) fns
     end.
Proof.
  induction fns as [|f fns IH]; simpl.
  - split; [done | constructor].
  - destruct (fn_open f) as [[|e] f'] eqn:Hf; simpl.
    + cbv zeta in IH. destruct (open_loop fns) as [[|e] rest]; simpl in *.
      * destruct IH as [Hlen Hall]. split; [lia | by constructor].
      * destruct IH as (Hlen & n & g & g' & Hg & Hopen & Hg' & Hpre & Hpost).
        split; [lia |]. exists (S n), g, g'. simpl.
        repeat split; first [done | by constructor].
    + split; [done |]. exists 0%nat, f, f'. simpl.
      repeat split; first [done | constructor].
Qed.

Lemma open_ok_counts (base : Status) (parent_ctxs : list Ctx)
    (ctxs : list (option Ctx)) (st : TableFunctionLocalState F) :
  (open base parent_ctxs ctxs st).1 = OK ->
  length (_fns (open base parent_ctxs ctxs st).2.2)
  = (length (_fns st) + length parent_ctxs)%nat
  /\ _cur_child_offset (open base parent_ctxs ctxs st).2.2 = -1.
Proof.
  unfold open. destruct base as [|e0]; simpl; [| done].
  pose proof (clone_table_function_fns parent_ctxs ctxs st) as [_ Hclone].
  destruct (_clone_table_function parent_ctxs ctxs st)
    as [[|e1] [ctxs1 st1]]; simpl in *; [| done].
  pose proof (open_loop_spec (_fns st1)) as [Hlen _].
  destruct (open_loop (_fns st1)) as [[|e2] fns']; simpl in *; [| done].
  intros _. split; [| done]. rewrite Hlen. by apply Hclone.
Qed.

(** X5. [open] of the local state.  When it returns OK, the base open,
    the clone of the functions and the [open] of every function of the
    local state succeeded, and [_cur_child_offset] is [-1]: no child row
    is bound.  When it returns an error, [_cur_child_offset] is as it
    was.  In both cases the number of functions is what
    [_clone_table_function] left, and the child block, the pending count
    and the end flag of the child are untouched. *)
Theorem open_spec (base : Status) (parent_ctxs : list Ctx)
    (ctxs : list (option Ctx)) (st : TableFunctionLocalState F) :
  let r := open base parent_ctxs ctxs st in
  _child_block r.2.2 = _child_block st
  /\ _current_row_insert_times r.2.2 = _current_row_insert_times st
  /\ _child_eos r.2.2 = _child_eos st
  /\ (r.1 = OK ->
      base = OK
      /\ (_clone_table_function parent_ctxs ctxs st).1 = OK
      /\ r.2.1 = (_clone_table_function parent_ctxs ctxs st).2.1
      /\ Forall2 (fun f f' => fn_open f = (OK, f'))
           (_fns (_clone_table_function parent_ctxs ctxs st).2.2)
           (_fns r.2.2)
      /\ length (_fns r.2.2) = (length (_fns st) + length parent_ctxs)%nat
      /\ _cur_child_offset r.2.2 = -1)
  /\ (forall e, r.1 = Error e ->
      _cur_child_offset r.2.2 = _cur_child_offset st
      /\ (base = OK ->
          length (_fns r.2.2)
          = length (_fns (_clone_table_function parent_ctxs ctxs st).2.2))).
Proof.
  pose proof (open_ok_counts base parent_ctxs ctxs st) as Hcounts.
  revert Hcounts. unfold open. destruct base as [|e0]; simpl.
  - pose proof (clone_table_function_fns parent_ctxs ctxs st) as [Hst1 _].
    destruct (_clone_table_function parent_ctxs ctxs st)
      as [[|e1] [ctxs1 st1]]; simpl in *.
    + pose proof (open_loop_spec (_fns st1)) as Hopen. cbv zeta in Hopen.
      destruct (open_loop (_fns st1)) as [[|e2] fns']; simpl in *.
      * intros Hcounts. destruct (Hcounts eq_refl) as [Hlen _].
        destruct Hopen as [_ Hall]. rewrite Hst1. simpl.
        do 3 (split; [done |]). split; [| intros e He; discriminate He].
        intros _. by do 5 (split; [done |]).
      * intros _. destruct Hopen as (Hlen & _). rewrite Hst1. simpl.
        do 3 (split; [done |]). split; [intros He; discriminate He |].
        intros e _. split; [done |]. intros _. done.
    + intros _. rewrite Hst1. simpl.
      do 3 (split; [done |]). split; [intros He; discriminate He |].
      intros e _. done.
  - intros _. do 3 (split; [done |]). split; [intros He; discriminate He |].
    intros e _. split; [done |]. intros Hb; discriminate Hb.
Qed.

(** X6. After an [init] of a new operator and an [open] of a new local
    state that both return OK, for fewer than 2^31 expressions: the local
    state holds exactly [_fn_num] functions, one per expression, and no
    row is bound. *)
Theorem open_after_init {TExpr : Type} `{ExprTreeFactory TExpr Ctx}
    (exprs : list TExpr) (ids : list Z) (op : OperatorX.State Ctx F)
    (ctxs : list (option Ctx)) (st : TableFunctionLocalState F) :
  OperatorX._vfn_ctxs op = [] ->
  OperatorX._fns op = [] ->
  _fns st = [] ->
  Z.of_nat (length exprs) < 2 ^ 31 ->
  let op' := (OperatorX.init OK exprs ids op).2 in
  let r := open OK (OperatorX._vfn_ctxs op') ctxs st in
  (OperatorX.init OK exprs ids op).1 = OK ->
  r.1 = OK ->
  OperatorX._fn_num op' = Z.of_nat (length exprs)
  /\ Z.of_nat (length (_fns r.2.2)) = OperatorX._fn_num op'
  /\ length (OperatorX._fns op') = length (_fns r.2.2)
  /\ _cur_child_offset r.2.2 = -1.
Proof.
  intros Hctxs0 Hfns0 Hst0 Hsmall op' r Hinit Hopen.
  destruct (init_ok_counts OK exprs ids op Hinit) as (Hlc & Hlf & Hn).
  destruct (open_ok_counts OK (OperatorX._vfn_ctxs op') ctxs st Hopen)
    as [Hlen Hoff].
  fold op' in Hlc, Hlf, Hn. fold r in Hlen, Hoff.
  rewrite Hfns0 in Hn, Hlf. rewrite Hctxs0 in Hlc. simpl in *.
  rewrite to_int_small in Hn by lia.
  rewrite Hst0, Hlc in Hlen. simpl in Hlen.
  rewrite Hn, Hlf, Hlen. split; [done |]. split; [lia |].
  split; [lia | done].
Qed.

End LocalSetupFacts.

Lemma clone_table_function_spec_witness :
  (_clone_table_function [1; 2; 3] [] SampleFactory.local0).1 = OK
  /\ (_clone_table_function [1; 2; 3] [] SampleFactory.local0).2.1
     = [Some 11; Some 12; Some 13]
  /\ length (_clone_table_function [1; 2; 3] [] SampleFactory.local0).2.1
     = length [1; 2; 3].
Proof.
  split; [reflexivity |]. split; [reflexivity |].
  pose proof (clone_table_function_spec [1; 2; 3] [] SampleFactory.local0) as Hc.
  cbv zeta in Hc. exact (proj1 (proj2 Hc)).
Defined.

(** The clone of the second of three contexts has no function: one
    function is kept, and the clone that failed stays in its slot. *)
Example clone_failure_sample :
  let r := _clone_table_function [1; 10; 3] [] SampleFactory.local0 in
  r.1 = Error 2
  /\ r.2.1 = [Some 11; Some 20; None]
  /\ length (_fns r.2.2) = 1%nat.
Proof. repeat split. Qed.

Lemma open_spec_witness :
  (open OK [1; 2; 3] [] SampleFactory.local0).1 = OK
  /\ _cur_child_offset SampleFactory.local0 = 0
  /\ _cur_child_offset (open OK [1; 2; 3] [] SampleFactory.local0).2.2 = -1.
Proof.
  split; [reflexivity |]. split; [reflexivity |].
  pose proof (open_spec OK [1; 2; 3] [] SampleFactory.local0) as Ho.
  cbv zeta in Ho. destruct Ho as (_ & _ & _ & Hok & _).
  exact (proj2 (proj2 (proj2 (proj2 (proj2 (Hok eq_refl)))))).
Defined.

(** A failing open leaves the row offset alone. *)
Example open_failure_sample :
  let r := open OK [1; 10; 3] [] SampleFactory.local0 in
  r.1 = Error 2 /\ _cur_child_offset r.2.2 = 0
  /\ (open (Error 5) [1; 2; 3] [] SampleFactory.local0).1 = Error 5.
Proof. repeat split. Qed.

Lemma open_after_init_witness :
  OperatorX._vfn_ctxs SampleFactory.operator0 = []
  /\ OperatorX._fns SampleFactory.operator0 = []
  /\ _fns SampleFactory.local0 = []
  /\ Z.of_nat (length [1; 2; 3]) < 2 ^ 31
  /\ (OperatorX.init OK [1; 2; 3] [0; 2] SampleFactory.operator0).1 = OK
  /\ Z.of_nat
       (length
          (_fns (open OK
                   (OperatorX._vfn_ctxs
                      (OperatorX.init OK [1; 2; 3] [0; 2]
                         SampleFactory.operator0).2)
                   [] SampleFactory.local0).2.2))
     = 3.
Proof.
  do 3 (split; [reflexivity |]). split; [arith |]. split; [reflexivity |].
  pose proof (open_after_init [1; 2; 3] [0; 2] SampleFactory.operator0 []
                SampleFactory.local0 eq_refl eq_refl eq_refl
                ltac:(arith)) as Hoi.
  cbv zeta in Hoi. destruct (Hoi eq_refl eq_refl) as (Hn & Hlen & _).
  rewrite Hlen. exact Hn.
Defined.

(** ** The fill call for any table function *)

Section FillCallFacts.

Context {F : Type} `{TableFunction F}.

Implicit Types st : TableFunctionLocalState F.

(** *** The index of the scan *)

Lemma find_last_fn_eos_idx_bounds p st :
  fns_ok p st -> -1 <= _find_last_fn_eos_idx p st < _fn_num p.
Proof.
  intros [Hn Hpos]. unfold _find_last_fn_eos_idx.
  destruct (find_last_fn_eos_loop_spec p (_fns st) (Z.to_nat (_fn_num p)))
    as [[Hr _] | (m & Hm & _ & _ & Hr)]; rewrite Hr; [lia |].
  destruct (Z.eqb_spec (Z.of_nat m) (_fn_num p - 1)); lia.
Qed.

(** X7. [_find_last_fn_eos_idx] never returns [_fn_num] or more, so the
    test [idx < p._fn_num] of [get_expanded_block] always holds; it
    returns [-1] only when the last function is not at its end, and [0]
    only when every function is at its end. *)
Theorem find_last_fn_eos_idx_range p st :
  fns_ok p st ->
  -1 <= _find_last_fn_eos_idx p st < _fn_num p
  /\ (_find_last_fn_eos_idx p st = -1
      <-> eos (_fns st !!! Z.to_nat (_fn_num p - 1)) = false)
  /\ (_find_last_fn_eos_idx p st = 0
      <-> forall j, 0 <= j < _fn_num p -> eos (_fns st !!! Z.to_nat j) = true).
Proof.
  intros Hok. split; [by apply find_last_fn_eos_idx_bounds |].
  destruct Hok as [Hn Hpos]. unfold _find_last_fn_eos_idx.
  destruct (find_last_fn_eos_loop_spec p (_fns st) (Z.to_nat (_fn_num p)))
    as [[Hr Hall] | (m & Hm & Hem & Hall & Hr)]; rewrite Hr.
  - split.
    + split; [lia |]. intros Hlast. rewrite Hall in Hlast by lia. done.
    + split; [| done]. intros _ j Hj. apply Hall. lia.
  - assert (Hnot : ~ forall j, 0 <= j < _fn_num p ->
                       eos (_fns st !!! Z.to_nat j) = true).
    { intros Hall'. specialize (Hall' (Z.of_nat m)).
      rewrite Nat2Z.id, Hem in Hall'. discriminate Hall'. lia. }
    destruct (Z.eqb_spec (Z.of_nat m) (_fn_num p - 1)) as [Hlast | Hne].
    + split.
      * split; [| done]. intros _.
        by replace (Z.to_nat (_fn_num p - 1)) with m by lia.
      * split; [lia | by intros ?].
    + split.
      * split; [lia |]. intros Hlast.
        rewrite Hall in Hlast by lia. done.
      * split; [lia | by intros ?].
Qed.

(** *** The flush *)

(** X8. [_copy_output_slots] with a pending count that is not negative:
    every needed pass-through column takes that many copies of its cell
    of the current child row, no other column changes, the count drops to
    zero and nothing else of the state changes. *)
Theorem copy_output_slots_content p st (columns : list Column) :
  0 <= _current_row_insert_times st ->
  let r := _copy_output_slots p st columns in
  length r.2 = length columns
  /\ (forall k, (k < length columns)%nat -> (k < _child_slots p)%nat ->
        _slot_need_copy p k = true ->
        r.2 !!! k
        = columns !!! k
          ++ replicate (Z.to_nat (_current_row_insert_times st))
               ((_child_block st !!! k) !!! Z.to_nat (_cur_child_offset st)))
  /\ (forall k, (k < length columns)%nat ->
        (_child_slots p <= k)%nat \/ _slot_need_copy p k = false ->
        r.2 !!! k = columns !!! k)
  /\ r.1 = set_times st 0.
Proof.
  intros Hpos. cbv zeta.
  split; [apply copy_output_slots_length |]. split; [| split].
  - intros k Hk Hslot Hneed. rewrite copy_output_slots_lookup by done.
    by rewrite decide_True.
  - intros k Hk Hother. rewrite copy_output_slots_lookup by done.
    rewrite decide_False; [done |].
    intros [Hslot Hneed]. destruct Hother as [? | Hno]; [lia | congruence].
  - unfold _copy_output_slots.
    destruct (Z.eqb_spec (_current_row_insert_times st) 0) as [Hz | _];
      [| done].
    destruct st. simpl in *. by subst.
Qed.

(** *** The functions the calls go to *)

Lemma process_next_child_row_in_range st :
  extends (call_in_range (length (_fns st))) st (process_next_child_row st).
Proof.
  unfold process_next_child_row. destruct (_ >=? _); simpl;
    eexists; (split; [done |]);
    apply Forall_forall; intros c Hc;
    apply list_elem_of_fmap in Hc as (i & -> & Hi);
    apply elem_of_seq in Hi; simpl; lia.
Qed.

Lemma roll_table_functions_in_range p st k :
  fns_ok p st -> 0 < k < _fn_num p ->
  extends (call_in_range (length (_fns st))) st (_roll_table_functions p st k).1.
Proof.
  intros Hok Hk. pose proof Hok as [Hn Hpos].
  pose proof (roll_table_functions_cases p st k Hok Hk) as Hroll.
  cbv zeta in Hroll.
  destruct Hroll as [(_ & _ & _ & Hcalls) | (i & Hi & _ & _ & _ & _ & Hcalls)];
    eexists; (split; [exact Hcalls |]).
  - apply Forall_forall. intros c Hc.
    apply list_elem_of_fmap in Hc as (j & -> & Hj).
    apply list_elem_of_In in Hj. rewrite <- in_rev in Hj.
      apply in_seq in Hj. simpl. lia.
  - apply Forall_app. split; apply Forall_forall; intros c Hc;
      apply list_elem_of_fmap in Hc as (j & -> & Hj).
    + apply list_elem_of_In in Hj. rewrite <- in_rev in Hj.
      apply in_seq in Hj. simpl. lia.
    + apply elem_of_seq in Hj. simpl. lia.
Qed.

Lemma emit_in_range p bs st (columns : list Column) :
  fns_ok p st ->
  extends (call_in_range (length (_fns st))) st (emit p bs st columns).1.
Proof.
  intros [Hn Hpos]. eexists. split; [apply emit_calls |].
  constructor.
  - simpl. lia.
  - apply Forall_forall. intros c Hc.
    apply list_elem_of_fmap in Hc as (j & -> & Hj).
    apply elem_of_seq in Hj. simpl. lia.
Qed.

Lemma inner_body_in_range p bs st (columns : list Column) skip :
  fns_ok p st ->
  fns_ok p (inner_body p bs st columns skip).2.1.1
  /\ extends (call_in_range (length (_fns st))) st
       (inner_body p bs st columns skip).2.1.1.
Proof.
  intros Hok. pose proof Hok as [Hn Hpos].
  pose proof (find_last_fn_eos_idx_bounds p st Hok) as Hidx.
  assert (Hadv : fns_ok p (advance p st columns skip).1.2
                 /\ extends (call_in_range (length (_fns st))) st
                      (advance p st columns skip).1.2).
  { pose proof (advance_frame p st columns skip) as (_ & Hl & _).
    cbv zeta in Hl. split; [split; [congruence | done] |].
    unfold advance.
    destruct ((_find_last_fn_eos_idx p st =? 0) || skip).
    - pose proof (copy_output_slots_frame p st columns)
        as (Hf & _ & _ & _ & _ & Hc).
      destruct (_copy_output_slots p st columns) as [st1 c1]. simpl in *.
      pose proof (process_next_child_row_in_range st1) as Hnext.
      rewrite Hf in Hnext.
      assert (extends (call_in_range (length (_fns st))) st
                (process_next_child_row st1)).
      { eapply extends_trans; [by apply extends_same | done]. }
      by destruct (_ =? -1).
    - destruct ((_find_last_fn_eos_idx p st <? _fn_num p)
                && negb (_find_last_fn_eos_idx p st =? -1)) eqn:Hroll.
      + apply andb_true_iff in Hroll as [_ Hne].
        apply negb_true_iff, Z.eqb_neq in Hne.
        destruct (Z.eq_dec (_find_last_fn_eos_idx p st) 0) as [Hz | Hnz].
        * rewrite Hz. unfold _roll_table_functions. simpl.
          apply extends_refl.
        * assert (Hk : 0 < _find_last_fn_eos_idx p st < _fn_num p).
          { lia. }
          pose proof (roll_table_functions_in_range p st
                        (_find_last_fn_eos_idx p st) Hok Hk) as Hr.
          destruct (_roll_table_functions p st _) as [st1 ok]. simpl in *.
          by destruct ok.
      + simpl. apply extends_refl. }
  unfold inner_body.
  destruct (advance p st columns skip) as [[fl st1] c1]. simpl in Hadv.
  destruct Hadv as [Hok1 Hx1].
  destruct fl; simpl; try done.
  unfold emit_or_skip. destruct (_is_inner_and_empty p st1); simpl; [done |].
  pose proof (emit_length p bs st1 c1) as [Hl _].
  pose proof (emit_in_range p bs st1 c1 Hok1) as Hx2.
  destruct Hok1 as [Hn1 _].
  split; [split; [congruence | done] |].
  eapply extends_trans; [exact Hx1 |].
  replace (length (_fns st)) with (length (_fns st1)) by lia. done.
Qed.

(** X9. Every call [get_expanded_block] makes, however far the loops
    get, goes to one of the [_fn_num] functions: [get_value] to the last
    one only, [get_same_many_values] to the others only, and
    [process_row], [process_close], [forward], [reset] and
    [set_nullable] to an index below [_fn_num]. *)
Theorem calls_in_range p bs cancelled fuel st (columns : list Column) :
  fns_ok p st ->
  extends (call_in_range (Z.to_nat (_fn_num p))) st
    (outcome_value (get_expanded_block p bs cancelled fuel st columns)).1.1.
Proof.
  intros Hok. pose proof Hok as [Hn Hpos].
  pose proof (get_expanded_block_state p bs cancelled fuel st columns)
    as (_ & _ & _ & _ & Hcalls & _).
  cbv zeta in Hcalls. eapply extends_calls; [exact Hcalls |].
  set (st0 := set_nullable_loop p st 0 (Z.to_nat (_fn_num p))).
  assert (Hhead : extends (call_in_range (Z.to_nat (_fn_num p))) st st0)
    by (by apply set_nullable_loop_extends).
  assert (Hok0 : fns_ok p st0).
  { destruct (set_nullable_loop_spec p st 0 (Z.to_nat (_fn_num p)))
      as (_ & _ & _ & _ & Hl & _).
    fold st0 in Hl. split; [lia | done]. }
  replace (Z.to_nat (_fn_num p)) with (length (_fns st)) in * by lia.
  pose proof (outer_loop_invariant p bs
    (fun s _ => fns_ok p s
                /\ extends (call_in_range (length (_fns st))) st s)) as Hloop.
  destruct Hloop with (fuel := fuel) (cancelled := cancelled) (st := st0)
                      (columns := columns)
    as [Hok' Hx]; [| by split | done].
  intros s c skip [Hs Hxs] _.
  destruct (inner_body_in_range p bs s c skip Hs) as [Hs' Hx'].
  split; [done |]. eapply extends_trans; [exact Hxs |].
  destruct Hs as [Hns _].
  replace (length (_fns st)) with (length (_fns s)) by lia. done.
Qed.

(** *** What the fill call leaves alone *)

Lemma process_next_child_row_block st :
  _child_block (process_next_child_row st) = _child_block st
  \/ _child_block (process_next_child_row st)
     = clear_column_data (_child_block st).
Proof. unfold process_next_child_row. destruct (_ >=? _); simpl; auto. Qed.

Lemma clear_column_data_twice (b : list Column) :
  clear_column_data (clear_column_data b) = clear_column_data b.
Proof. unfold clear_column_data. by rewrite map_map. Qed.

Lemma inner_body_frame p bs st (columns : list Column) skip :
  let r := inner_body p bs st columns skip in
  _child_eos r.2.1.1 = _child_eos st
  /\ length (_fns r.2.1.1) = length (_fns st)
  /\ length r.2.1.2 = length columns
  /\ (_child_block r.2.1.1 = _child_block st
      \/ _child_block r.2.1.1 = clear_column_data (_child_block st)).
Proof.
  cbv zeta.
  assert (Hadv : let a := advance p st columns skip in
                 _child_eos a.1.2 = _child_eos st
                 /\ (_child_block a.1.2 = _child_block st
                     \/ _child_block a.1.2
                        = clear_column_data (_child_block st))).
  { unfold advance.
    destruct ((_find_last_fn_eos_idx p st =? 0) || skip).
    - pose proof (copy_output_slots_frame p st columns)
        as (_ & Hb & _ & _ & He & _).
      destruct (_copy_output_slots p st columns) as [st1 c1]. simpl in *.
      pose proof (process_next_child_row_frame st1) as (_ & He' & _).
      pose proof (process_next_child_row_block st1) as Hb'.
      rewrite Hb in Hb'.
      destruct (_ =? -1); simpl; split; (done || congruence).
    - destruct (_ && _).
      + pose proof (roll_table_functions_frame p st
                      (_find_last_fn_eos_idx p st)) as (Hb & _ & _ & He & _).
        destruct (_roll_table_functions p st _) as [st1 ok]. simpl in *.
        destruct ok; simpl; auto.
      + simpl. auto. }
  pose proof (advance_frame p st columns skip) as (_ & Hl & Hlc & _).
  cbv zeta in Hadv, Hl, Hlc. unfold inner_body.
  destruct (advance p st columns skip) as [[fl st1] c1]. simpl in *.
  destruct Hadv as [He Hb].
  destruct fl; simpl; try done.
  unfold emit_or_skip. destruct (_is_inner_and_empty p st1); simpl; [done |].
  pose proof (emit_length p bs st1 c1) as [Hl' Hlc'].
  pose proof (emit_calls p bs st1 c1) as _.
  unfold emit in *.
  destruct (get_value _ _ _) as [[f c] n].
  match goal with
  | |- context [get_same_many_values_loop p ?s ?cols n 0 ?cnt] =>
      pose proof (get_same_many_values_loop_spec p s cols n 0 cnt)
        as (_ & Hb2 & _ & _ & He2 & _)
  end.
  cbv zeta in Hb2, He2. simpl in Hb2, He2.
  rewrite He2, Hb2. split; [done |]. split; [congruence |].
  split; [congruence | done].
Qed.

Lemma outer_loop_frame p bs cancelled fuel st (columns : list Column) :
  let r := outcome_value (outer_loop p bs cancelled fuel st columns) in
  _child_eos r.1 = _child_eos st
  /\ length (_fns r.1) = length (_fns st)
  /\ length r.2 = length columns
  /\ (_child_block r.1 = _child_block st
      \/ _child_block r.1 = clear_column_data (_child_block st)).
Proof.
  pose proof (outer_loop_invariant p bs
    (fun s c => _child_eos s = _child_eos st
                /\ length (_fns s) = length (_fns st)
                /\ length c = length columns
                /\ (_child_block s = _child_block st
                    \/ _child_block s = clear_column_data (_child_block st))))
    as Hloop.
  apply Hloop.
  - intros s c skip (Hes & Hls & Hlcs & Hbs) _.
    pose proof (inner_body_frame p bs s c skip) as (He' & Hl' & Hlc' & Hb').
    cbv zeta in He', Hl', Hlc', Hb'.
    split; [congruence |]. split; [congruence |]. split; [congruence |].
    destruct Hb' as [-> | ->]; [done |].
    destruct Hbs as [-> | ->]; [by right |].
    right. apply clear_column_data_twice.
  - by repeat split; auto.
Qed.

(** X10. However far the loops of [get_expanded_block] get, the fill call
    leaves the end flag of the child and the number of functions as they
    were, adds no column to the block and removes none, and the child
    block is either untouched or cleared. *)
Theorem get_expanded_block_frame p bs cancelled fuel st
    (columns : list Column) :
  let r := outcome_value (get_expanded_block p bs cancelled fuel st columns) in
  _child_eos r.1.1 = _child_eos st
  /\ length (_fns r.1.1) = length (_fns st)
  /\ length r.1.2 = length columns
  /\ (_child_block r.1.1 = _child_block st
      \/ _child_block r.1.1 = clear_column_data (_child_block st)).
Proof.
  pose proof (get_expanded_block_state p bs cancelled fuel st columns)
    as (Hf & Hb & _ & He & _ & Hlc).
  destruct (set_nullable_loop_spec p st 0 (Z.to_nat (_fn_num p)))
    as (Hb0 & _ & _ & He0 & Hl0 & _).
  pose proof (outer_loop_frame p bs cancelled fuel
                (set_nullable_loop p st 0 (Z.to_nat (_fn_num p))) columns)
    as (He1 & Hl1 & Hlc1 & Hb1).
  cbv zeta in *. rewrite He, Hf, Hb, Hlc.
  rewrite He1, Hl1, Hlc1, He0, Hl0.
  split; [done |]. split; [done |]. split; [done |].
  rewrite <- Hb0. exact Hb1.
Qed.

(** *** A child block without rows *)

Lemma alter_replicate_id {A} (g : A -> A) (x : A) (i n : nat) :
  g x = x -> alter g i (replicate n x) = replicate n x.
Proof.
  intros Hg. revert i. induction n as [|n IH]; intros i; simpl; [done |].
  destruct i as [|i]; simpl; [by rewrite Hg | f_equal; apply IH].
Qed.

Lemma pad_useless_slots_empty p (n : nat) :
  pad_useless_slots p (replicate n []) = replicate n [].
Proof.
  unfold pad_useless_slots.
  assert (Hrow : size (replicate n ([] : list Field) !!! _child_slots p) = 0).
  { destruct (decide (_child_slots p < n)%nat).
    - by rewrite lookup_total_replicate_2.
    - rewrite list_lookup_total_alt, lookup_ge_None_2; [done |].
      rewrite length_replicate. lia. }
  rewrite Hrow. induction (_useless_slot_indexs p) as [|k l IH]; simpl; [done |].
  rewrite alter_replicate_id; [done |].
  unfold insert_many_defaults. simpl. done.
Qed.

Lemma filter_block_empty (conjuncts : list Field -> bool) (n : nat) :
  filter_block conjuncts (replicate n []) = replicate n [].
Proof.
  unfold filter_block.
  assert (Hrows : rows (replicate n ([] : list Field)) = 0)
    by (by destruct n).
  rewrite Hrows. simpl. clear Hrows.
  induction n as [|n IH]; simpl; [done | by rewrite IH].
Qed.

(** X11. A fill call on a local state whose child block has no rows, with
    nothing pending, on an empty output block, when the first poll does
    not see the query cancelled and the conjuncts evaluate on the empty
    block: the call returns OK, the block comes back empty, and the end
    of the stream is reported exactly when the child is at its end and no
    row is bound.  The only calls on the table functions are the
    [set_nullable] calls at the head of the call, one on every function
    whose column is nullable, in the order of the functions; the child
    block, the row offset, the pending count, the end flag of the child
    and the number of functions are as they were. *)
Theorem fill_without_child_rows p bs cancelled fuel st :
  rows (_child_block st) = 0 ->
  _current_row_insert_times st = 0 ->
  cancelled 0%nat = OK ->
  _conjuncts_status p (empty_block p) = OK ->
  let st0 := set_nullable_loop p st 0 (Z.to_nat (_fn_num p)) in
  get_expanded_block p bs cancelled (S fuel) st (empty_block p)
  = Done (st0, empty_block p,
          Some (_child_eos st && (_cur_child_offset st =? -1)))
  /\ _child_block st0 = _child_block st
  /\ _cur_child_offset st0 = _cur_child_offset st
  /\ _current_row_insert_times st0 = 0
  /\ _child_eos st0 = _child_eos st
  /\ length (_fns st0) = length (_fns st)
  /\ calls st0
     = calls st
       ++ map call_set_nullable
            (List.filter (fun j => _output_nullable p (j + _child_slots p)%nat)
               (seq 0 (Z.to_nat (_fn_num p)))).
Proof.
  intros Hrows Htimes Hrun Hfilter st0.
  destruct (set_nullable_loop_spec p st 0 (Z.to_nat (_fn_num p)))
    as (Hb & Ho & Ht & He & Hl & Hc).
  fold st0 in Hb, Ho, Ht, He, Hl, Hc.
  split; [| by rewrite Ht].
  unfold get_expanded_block, assemble. fold st0. simpl.
  rewrite Hrun, Hb, Hrows. simpl.
  assert (Hloops : (if has_room p bs (empty_block p)
                    then Done (st0, empty_block p)
                    else Done (st0, empty_block p))
                   = Done (st0, empty_block p)) by (by destruct (has_room _ _ _)).
  rewrite Hloops. unfold flush_and_pad, _copy_output_slots.
  rewrite Ht, Htimes. simpl. unfold empty_block in *.
  rewrite pad_useless_slots_empty, Hfilter, filter_block_empty.
  by rewrite He, Ho.
Qed.

End FillCallFacts.

Lemma find_last_fn_eos_idx_range_witness :
  fns_ok Sample.p2 Sample.st_AB
  /\ -1 <= _find_last_fn_eos_idx Sample.p2 Sample.st_AB < _fn_num Sample.p2.
Proof.
  assert (Hok : fns_ok Sample.p2 Sample.st_AB) by (split; arith).
  split; [exact Hok |].
  exact (proj1 (find_last_fn_eos_idx_range Sample.p2 Sample.st_AB Hok)).
Defined.

(** The state after the first pass on the sample: three rows are
    pending. *)
Lemma copy_output_slots_content_witness :
  let r := inner_body Sample.p2 10 Sample.st_AB (empty_block Sample.p2) false in
  0 <= _current_row_insert_times r.2.1.1
  /\ (_copy_output_slots Sample.p2 r.2.1.1 r.2.1.2).2 !!! 0%nat
     = [Value 100; Value 100; Value 100]
  /\ (_copy_output_slots Sample.p2 r.2.1.1 r.2.1.2).1 = set_times r.2.1.1 0.
Proof.
  cbv zeta. split; [arith |]. split; [reflexivity |].
  refine (proj2 (proj2 (proj2
    (copy_output_slots_content Sample.p2
       (inner_body Sample.p2 10 Sample.st_AB (empty_block Sample.p2) false).2.1.1
       (inner_body Sample.p2 10 Sample.st_AB (empty_block Sample.p2) false).2.1.2
       _)))).
  arith.
Defined.

Lemma calls_in_range_witness :
  fns_ok Sample.p2 Sample.st_AB
  /\ extends (call_in_range 2) Sample.st_AB
       (outcome_value
          (get_expanded_block Sample.p2 4 Sample.running 10 Sample.st_AB
             (empty_block Sample.p2))).1.1.
Proof.
  assert (Hok : fns_ok Sample.p2 Sample.st_AB) by (split; arith).
  split; [exact Hok |].
  exact (calls_in_range Sample.p2 4 Sample.running 10 Sample.st_AB (empty_block Sample.p2) Hok).
Defined.

(** The state the sample is left in when its child block is used up:
    the next call tells the second function that its column is nullable
    and returns an empty block and the end of the stream. *)
Lemma fill_without_child_rows_witness :
  let st := (outcome_value
               (get_expanded_block Sample.p2 100 Sample.running 20 Sample.st_AB
                  (empty_block Sample.p2))).1.1 in
  rows (_child_block st) = 0
  /\ _current_row_insert_times st = 0
  /\ Sample.running 0%nat = OK
  /\ _conjuncts_status Sample.p2 (empty_block Sample.p2) = OK
  /\ get_expanded_block Sample.p2 100 Sample.running 1 st
       (empty_block Sample.p2)
     = Done (log st [call_set_nullable 1], empty_block Sample.p2, Some true).
Proof.
  cbv zeta. do 4 (split; [reflexivity |]).
  exact (proj1 (fill_without_child_rows Sample.p2 100 Sample.running 0
                  (outcome_value
                     (get_expanded_block Sample.p2 100 Sample.running 20
                        Sample.st_AB (empty_block Sample.p2))).1.1
                  eq_refl eq_refl eq_refl eq_refl)).
Defined.

(** *** The capacity of the block *)

Section CapacityFacts.

Context {F : Type} `{TableFunctionShape F}.

Implicit Types st : TableFunctionLocalState F.

(** X12. With table functions that append what they report and report
    no more than they are asked for: from a block whose function columns
    hold [n0 <= batch_size] rows, however far the loops get, the columns
    of the functions all hold the same number of rows, between [n0] and
    [batch_size]: a fill call never puts more than [batch_size] rows
    into the block. *)
Theorem block_within_capacity p bs cancelled fuel st (columns : list Column)
    (n0 : Z) :
  1 <= _fn_num p ->
  0 <= bs < 2 ^ 31 ->
  pending_shape p st columns n0 ->
  n0 <= bs ->
  let r := outcome_value (assemble p bs cancelled fuel st columns) in
  exists n,
    n0 <= n <= bs
    /\ forall i, (i < Z.to_nat (_fn_num p))%nat ->
         size (r.2 !!! (_child_slots p + i)%nat) = n.
Proof.
  intros Hn Hbs Hshape Hn0.
  pose proof (outer_loop_invariant p bs
    (fun s c => exists n, pending_shape p s c n /\ n0 <= n <= bs)) as Hloop.
  destruct (Hloop) with (fuel := fuel) (cancelled := cancelled) (st := st)
                        (columns := columns)
    as (n & Hshape' & Hbound).
  { intros s c skip (m & Hm & Hmb) Hroom.
    destruct (inner_body_shape p bs s c skip m Hn Hm)
      as (m' & Hm' & Hle & Hcap & _).
    exists m'. split; [done |]. specialize (Hcap Hbs Hroom). lia. }
  { by exists n0. }
  cbv zeta. exists n. split; [done |]. intros i Hi.
  destruct Hshape' as (Hlen & _ & Hfn & _).
  unfold assemble.
  destruct (outer_loop p bs cancelled fuel st columns)
    as [[st1 c1] | [st1 c1] | e [st1 c1]];
    simpl in *; [| by apply Hfn | by apply Hfn].
  unfold flush_and_pad.
  pose proof (copy_output_slots_length p st1 c1) as Hlen2.
  pose proof (copy_output_slots_other p st1 c1 (_child_slots p + i)%nat) as Ho.
  destruct (_copy_output_slots p st1 c1) as [st2 c2]. simpl in *.
  rewrite pad_useless_slots_lookup by lia.
  rewrite decide_False by lia. rewrite Ho by lia. by apply Hfn.
Qed.

End CapacityFacts.

Lemma block_within_capacity_witness :
  1 <= _fn_num Sample.p2
  /\ 0 <= 4 < 2 ^ 31
  /\ pending_shape Sample.p2 Sample.st_AB (empty_block Sample.p2) 0
  /\ 0 <= 4
  /\ exists n,
       0 <= n <= 4
       /\ forall i, (i < Z.to_nat (_fn_num Sample.p2))%nat ->
            size ((outcome_value
                     (assemble Sample.p2 4 Sample.running 10 Sample.st_AB
                        (empty_block Sample.p2))).2
                  !!! (_child_slots Sample.p2 + i)%nat) = n.
Proof.
  assert (Hshape : pending_shape Sample.p2 Sample.st_AB
                     (empty_block Sample.p2) 0).
  { split; [reflexivity |]. split; [arith |]. split.
    - intros i Hi. simpl in Hi.
      destruct i as [|[|i]]; [reflexivity | reflexivity | lia].
    - intros k Hk _. simpl in Hk.
      destruct k as [|[|k]]; [reflexivity | reflexivity | lia]. }
  split; [arith |]. split; [arith |]. split; [exact Hshape |].
  split; [arith |].
  exact (block_within_capacity Sample.p2 4 Sample.running 10 Sample.st_AB
           (empty_block Sample.p2) 0 ltac:(arith) ltac:(arith) Hshape
           ltac:(arith)).
Defined.

(** ** The fill call for functions that follow the contract *)

Section FillContentFacts.

Implicit Types st : TableFunctionLocalState ValueFunction.

Lemma get_expanded_block_child_eos {F : Type} `{TableFunction F} p bs
    cancelled fuel (s : TableFunctionLocalState F) (columns : list Column) :
  _child_eos (outcome_value
                (get_expanded_block p bs cancelled fuel s columns)).1.1
  = _child_eos s.
Proof.
  pose proof (get_expanded_block_state p bs cancelled fuel s columns)
    as (_ & _ & _ & He & _).
  destruct (set_nullable_loop_spec p s 0 (Z.to_nat (_fn_num p)))
    as (_ & _ & _ & He0 & _).
  pose proof (outer_loop_frame p bs cancelled fuel
                (set_nullable_loop p s 0 (Z.to_nat (_fn_num p))) columns)
    as (He1 & _).
  cbv zeta in *. by rewrite He, He1, He0.
Qed.

(** The loops and the tail of the call, before the conjuncts. *)
Lemma assemble_run p bs cancelled st fuel :
  state_ok p st ->
  _current_row_insert_times st = 0 ->
  0 <= bs < 2 ^ 31 ->
  (budget p bs st (empty_block p) false + 2 <= fuel)%nat ->
  (forall k, cancelled k = OK) ->
  exists st1 c1 st',
    outer_loop p bs cancelled fuel
      (set_nullable_loop p st 0 (Z.to_nat (_fn_num p))) (empty_block p)
    = Done (st1, c1)
    /\ assembled p (_child_block st) st1 c1 (take (Z.to_nat bs) (expansion st))
    /\ assemble p bs cancelled fuel
         (set_nullable_loop p st 0 (Z.to_nat (_fn_num p))) (empty_block p)
       = Done (st',
               render p (_child_block st) (take (Z.to_nat bs) (expansion st)))
    /\ _cur_child_offset st' = _cur_child_offset st1
    /\ _child_block st' = _child_block st1
    /\ _child_eos st' = _child_eos st
    /\ expansion st' = drop (Z.to_nat bs) (expansion st)
    /\ state_ok p st1
    /\ (_child_block st1 = _child_block st \/ _cur_child_offset st1 = -1).
Proof.
  intros Hstate Ht Hbs Hfuel Hrun.
  pose proof (outer_loop_frame p bs cancelled fuel
                (set_nullable_loop p st 0 (Z.to_nat (_fn_num p)))
                (empty_block p)) as (Heos & _).
  revert Heos. cbv zeta. unfold assemble.
  rewrite set_nullable_loop_value.
  set (head := map call_set_nullable _).
  set (st0 := log st head).
  assert (Hstate0 : state_ok p st0) by exact Hstate.
  destruct (outer_loop_spec p bs cancelled (_child_block st) fuel st0
              (empty_block p) [])
    as (st1 & c1 & E & Hdone & Hexp & Hcap & Hasm & Hrows & Hstate1 & Hfull & HB);
    try done; [by apply assembled_empty_block | simpl; lia |].
  change (expansion st0) with (expansion st) in Hexp.
  simpl in Hcap, Hasm, Hfull.
  destruct (flush_and_pad_render p (_child_block st) st1 c1 E Hstate1 Hasm HB)
    as (Hrender & Hf & Hb & Ho & Ht2 & He & Hc); [lia |].
  assert (Hnil : _cur_child_offset st1 = -1 -> expansion st1 = [])
    by apply expansion_no_row.
  destruct (prefix_take (expansion st) E (expansion st1) (Z.to_nat bs) Hexp)
    as [HE Hrest]; [lia | destruct Hfull; [left; lia | right; auto] |].
  assert (Hexp2 : expansion (flush_and_pad p st1 c1).1 = expansion st1).
  { unfold expansion. by rewrite Ho, Hf, Hb. }
  rewrite Hdone.
  destruct (flush_and_pad p st1 c1) as [st2 c2] eqn:Hfp. simpl in *.
  intros Heos.
  exists st1, c1, st2. subst E c2.
  split; [done |]. split; [done |]. split; [done |].
  split; [done |]. split; [done |]. split; [by rewrite He, Heos |].
  split; [by rewrite Hexp2 |]. split; done.
Qed.

(** The fill call, with what the loops reach. *)
Lemma fill_run p bs cancelled st fuel :
  state_ok p st ->
  _current_row_insert_times st = 0 ->
  0 <= bs < 2 ^ 31 ->
  (budget p bs st (empty_block p) false + 2 <= fuel)%nat ->
  (forall k, cancelled k = OK) ->
  _conjuncts_status p
    (render p (_child_block st) (take (Z.to_nat bs) (expansion st))) = OK ->
  exists st1 c1 st',
    outer_loop p bs cancelled fuel
      (set_nullable_loop p st 0 (Z.to_nat (_fn_num p))) (empty_block p)
    = Done (st1, c1)
    /\ assembled p (_child_block st) st1 c1 (take (Z.to_nat bs) (expansion st))
    /\ get_expanded_block p bs cancelled fuel st (empty_block p)
       = Done (st',
               filter_block (_conjuncts p)
                 (render p (_child_block st)
                    (take (Z.to_nat bs) (expansion st))),
               Some (_child_eos st && (_cur_child_offset st' =? -1)))
    /\ _cur_child_offset st' = _cur_child_offset st1
    /\ _child_block st' = _child_block st1
    /\ expansion st' = drop (Z.to_nat bs) (expansion st)
    /\ state_ok p st1
    /\ (_child_block st1 = _child_block st \/ _cur_child_offset st1 = -1).
Proof.
  intros Hstate Ht Hbs Hfuel Hrun Hfilter.
  destruct (assemble_run p bs cancelled st fuel Hstate Ht Hbs Hfuel Hrun)
    as (st1 & c1 & st' & Houter & Hasm & Hdone & Ho & Hb & He & Hexp & Hstate1
        & HB).
  exists st1, c1, st'.
  split; [done |]. split; [done |]. split; [| done].
  unfold get_expanded_block. cbv zeta. by rewrite Hdone, Hfilter, He.
Qed.

(** X13. The content of a fill call.  From a state between two passes
    with nothing pending, on an empty output block, when no poll sees the
    query cancelled and the conjuncts evaluate on the assembled block,
    the call returns OK; the block it hands on holds, filtered by the
    conjuncts, the first [batch_size] rows of what was to come, and what
    is to come after the call is the rest.  What is to come from a row
    that was just bound is, child row after child row, the product of the
    value lists of the functions for that row, the last function varying
    fastest. *)
Theorem fill_block_content p bs cancelled st :
  state_ok p st ->
  _current_row_insert_times st = 0 ->
  0 <= bs < 2 ^ 31 ->
  (forall k, cancelled k = OK) ->
  _conjuncts_status p
    (render p (_child_block st) (take (Z.to_nat bs) (expansion st))) = OK ->
  (fresh st -> 0 <= _cur_child_offset st ->
   expansion st
   = flat_map (expansion_of_row (_fns st))
       (seq (Z.to_nat (_cur_child_offset st))
            (Z.to_nat (rows (_child_block st) - _cur_child_offset st))))
  /\ exists fuel0 : nat, forall fuel, (fuel0 <= fuel)%nat ->
       exists st',
         get_expanded_block p bs cancelled fuel st (empty_block p)
         = Done (st',
                 filter_block (_conjuncts p)
                   (render p (_child_block st)
                      (take (Z.to_nat bs) (expansion st))),
                 Some (_child_eos st && (_cur_child_offset st' =? -1)))
         /\ expansion st' = drop (Z.to_nat bs) (expansion st)
         /\ state_ok p st'
         /\ _current_row_insert_times st' = 0.
Proof.
  intros Hstate Ht Hbs Hrun Hfilter. split; [by apply (expansion_fresh p) |].
  exists (budget p bs st (empty_block p) false + 2)%nat. intros fuel Hfuel.
  destruct (get_expanded_block_spec p bs cancelled st fuel Hstate Ht Hbs Hfuel
              Hrun Hfilter)
    as (st' & Hdone & Hexp & Hstate' & Ht' & _).
  pose proof (get_expanded_block_child_eos p bs cancelled fuel st
                (empty_block p)) as Heos.
  rewrite Hdone in Heos. simpl in Heos.
  exists st'. rewrite Hdone, Heos. done.
Qed.

(** X14. A fill call whose capacity exceeds what is to come, when no
    poll sees the query cancelled and the conjuncts evaluate on the
    assembled block, uses the child block up: it returns OK, hands on
    everything that was to come, leaves no row bound and the child block
    without rows, and reports the end of the stream exactly when the
    child is at its end. *)
Theorem fill_drains_child_block p bs cancelled st :
  state_ok p st ->
  _current_row_insert_times st = 0 ->
  0 <= bs < 2 ^ 31 ->
  Z.of_nat (length (expansion st)) < bs ->
  (forall k, cancelled k = OK) ->
  _conjuncts_status p (render p (_child_block st) (expansion st)) = OK ->
  exists fuel0 : nat, forall fuel, (fuel0 <= fuel)%nat ->
    exists st',
      get_expanded_block p bs cancelled fuel st (empty_block p)
      = Done (st',
              filter_block (_conjuncts p)
                (render p (_child_block st) (expansion st)),
              Some (_child_eos st))
      /\ _cur_child_offset st' = -1
      /\ rows (_child_block st') = 0
      /\ expansion st' = [].
Proof.
  intros Hstate Ht Hbs Hless Hrun Hfilter.
  exists (budget p bs st (empty_block p) false + 2)%nat. intros fuel Hfuel.
  assert (Htake : take (Z.to_nat bs) (expansion st) = expansion st)
    by (apply take_ge; lia).
  destruct (get_expanded_block_spec p bs cancelled st fuel Hstate Ht Hbs Hfuel
              Hrun)
    as (st' & Hdone & Hexp & Hstate' & _ & _ & _ & Hdrain);
    [by rewrite Htake |].
  pose proof (get_expanded_block_child_eos p bs cancelled fuel st
                (empty_block p)) as Heos.
  rewrite Hdone in Heos. simpl in Heos.
  assert (Hidle : _cur_child_offset st' = -1) by (apply Hdrain; by left).
  exists st'. rewrite Hdone, Htake, Heos, Hidle, andb_true_r.
  split; [done |]. split; [done |]. split.
  - destruct Hstate' as (_ & _ & _ & [(_ & Hz & _) | (Hin & _)]); [done | lia].
  - rewrite Hexp. apply drop_ge. lia.
Qed.

(** *** A block that is filled to its capacity *)

Lemma inner_body_break_room {F : Type} `{TableFunction F} p bs
    (s : TableFunctionLocalState F) (columns : list Column) skip :
  (inner_body p bs s columns skip).1 = flow_break ->
  has_room p bs (inner_body p bs s columns skip).2.1.2
  = has_room p bs columns.
Proof.
  unfold inner_body.
  pose proof (advance_frame p s columns skip) as (_ & _ & _ & Hcol).
  cbv zeta in Hcol.
  destruct (advance p s columns skip) as [[fl s1] c1]. simpl in *.
  destruct fl; simpl; try done.
  intros _. unfold has_room. by rewrite Hcol.
Qed.

Lemma inner_loop_full p bs (B : list Column) fuel :
  forall st (columns : list Column) (skip : bool) (out : list OutRow) st' c',
  active p st ->
  _child_block st = B ->
  (skip = true -> _is_inner_and_empty p st = true) ->
  assembled p B st columns out ->
  0 <= bs < 2 ^ 31 ->
  inner_loop p bs fuel st columns skip = Done (st', c') ->
  has_room p bs c' = false ->
  active p st'.
Proof.
  induction fuel as [|fuel IH];
    intros st columns skip out st' c' Hact HB Hskip Hasm Hbs Hdone Hfull;
    [done |].
  simpl in Hdone. destruct (has_room p bs columns) eqn:Hroom.
  - destruct (inner_body_spec p bs B st columns skip out Hact HB Hskip Hasm
                Hbs Hroom)
      as (E1 & _ & _ & Hasm1 & _ & Hcase).
    pose proof (inner_body_break_room p bs st columns skip) as Hbreak.
    destruct (inner_body p bs st columns skip) as [fl [[st1 c1] skip1]].
    simpl in *.
    destruct Hcase as [(-> & _ & _) | (-> & Hact1 & HB1 & Hskip1 & _)].
    + injection Hdone as <- <-. rewrite Hbreak in Hfull by done. congruence.
    + by eapply (IH st1 c1 skip1 (out ++ E1)).
  - by injection Hdone as <- <-.
Qed.

Lemma outer_loop_full p bs cancelled (B : list Column) fuel st
    (columns : list Column) (out : list OutRow) st' c' :
  state_ok p st ->
  _child_block st = B ->
  assembled p B st columns out ->
  0 <= bs < 2 ^ 31 ->
  Z.of_nat (length out) <= bs ->
  (budget p bs st columns false + 2 <= fuel)%nat ->
  (forall k, cancelled k = OK) ->
  has_room p bs columns = true ->
  outer_loop p bs cancelled fuel st columns = Done (st', c') ->
  has_room p bs c' = false ->
  active p st'.
Proof.
  intros Hstate HB Hasm Hbs Hcap Hfuel Hrun Hroom Hdone Hfull.
  pose proof Hstate as (Hok & Htimes & Hrows & Hrow).
  destruct fuel as [|fuel]; [lia |]. simpl in Hdone.
  rewrite Hroom, (Hrun 0%nat) in Hdone.
  destruct (Z.eqb_spec (rows (_child_block st)) 0) as [Hzero | Hsome].
  { injection Hdone as <- <-. congruence. }
  assert (Hact : active p st) by by apply state_ok_active.
  destruct (inner_loop_spec p bs B fuel st columns false out Hact HB)
    as (st1 & c1 & E & Hin & Hexp & Hcap1 & Hasm1 & Hrows1 & Hstate1
        & Hfull1 & HB1); try done; try lia.
  rewrite Hin in Hdone.
  destruct fuel as [|fuel]; [lia |]. simpl in Hdone.
  rewrite (Hrun 1%nat) in Hdone.
  destruct (has_room p bs c1) eqn:Hroom1.
  - destruct (Z.eqb_spec (rows (_child_block st1)) 0) as [? | Hsome1].
    { injection Hdone as <- <-. congruence. }
    exfalso.
    unfold has_room in Hroom1. apply Z.ltb_lt in Hroom1.
    rewrite to_size_t_small in Hroom1 by lia.
    rewrite (assembled_size p B st1 c1 (out ++ E)) in Hroom1
      by (apply Hok || done).
    rewrite length_app in Hroom1.
    destruct Hfull1 as [Hfull1 | Hidle]; [lia |].
    destruct Hstate1 as (_ & _ & _ & [(_ & Hz & _) | (Hoff & _)]); lia.
  - injection Hdone as <- <-.
    by eapply (inner_loop_full p bs B (S fuel) st columns false out st1 c1).
Qed.

(** X15. A fill call that fills the block to its capacity, when no poll
    sees the query cancelled and the conjuncts evaluate on the assembled
    block, returns OK, stops with the row still bound and does not report
    the end of the stream, even when the child is at its end and nothing
    is left to come: the end is reported by the next call, which hands on
    an empty block. *)
Theorem full_block_keeps_row p bs cancelled st :
  state_ok p st ->
  _current_row_insert_times st = 0 ->
  0 < bs < 2 ^ 31 ->
  bs <= Z.of_nat (length (expansion st)) ->
  (forall k, cancelled k = OK) ->
  _conjuncts_status p
    (render p (_child_block st) (take (Z.to_nat bs) (expansion st))) = OK ->
  exists fuel0 : nat, forall fuel, (fuel0 <= fuel)%nat ->
    exists st',
      get_expanded_block p bs cancelled fuel st (empty_block p)
      = Done (st',
              filter_block (_conjuncts p)
                (render p (_child_block st)
                   (take (Z.to_nat bs) (expansion st))),
              Some false)
      /\ length (take (Z.to_nat bs) (expansion st)) = Z.to_nat bs
      /\ 0 <= _cur_child_offset st'
      /\ _child_block st' = _child_block st
      /\ expansion st' = drop (Z.to_nat bs) (expansion st).
Proof.
  intros Hstate Ht Hbs Hmore Hrun Hfilter.
  exists (budget p bs st (empty_block p) false + 2)%nat. intros fuel Hfuel.
  destruct (fill_run p bs cancelled st fuel Hstate Ht ltac:(lia) Hfuel Hrun
              Hfilter)
    as (st1 & c1 & st' & Houter & Hasm & Hdone & Hoff & Hblock & Hexp & Hstate1
        & HB).
  pose proof Hstate as ((_ & Hpos) & _).
  assert (Hlen : length (take (Z.to_nat bs) (expansion st)) = Z.to_nat bs).
  { rewrite length_take. lia. }
  rewrite set_nullable_loop_value in Houter.
  set (st0 := log st _) in Houter.
  assert (Hstate0 : state_ok p st0) by exact Hstate.
  assert (Ht0 : _current_row_insert_times st0 = 0) by exact Ht.
  assert (Hroom0 : has_room p bs (empty_block p) = true).
  { unfold has_room. apply Z.ltb_lt. rewrite to_size_t_small by lia.
    pose proof (assembled_size p (_child_block st) st (empty_block p) []
                  Hpos (assembled_empty_block p _ st Ht)) as Hsz.
    rewrite Hsz. simpl. lia. }
  assert (Hfull : has_room p bs c1 = false).
  { unfold has_room. apply Z.ltb_ge. rewrite to_size_t_small by lia.
    rewrite (assembled_size p _ st1 c1 _ Hpos Hasm). lia. }
  assert (Hact : active p st1).
  { assert (Hbs' : 0 <= bs < 2 ^ 31) by lia.
    assert (Hcap : Z.of_nat (length ([] : list (Z * list Field))) <= bs)
      by (simpl; lia).
    exact (outer_loop_full p bs cancelled (_child_block st) fuel st0
             (empty_block p) [] st1 c1 Hstate0 eq_refl
             (assembled_empty_block p _ st0 Ht0) Hbs' Hcap Hfuel Hrun Hroom0
             Houter Hfull). }
  destruct Hact as (_ & _ & _ & (Hin & _)).
  exists st'. rewrite Hdone.
  destruct (Z.eqb_spec (_cur_child_offset st') (-1)) as [? | _]; [lia |].
  rewrite andb_false_r. split; [done |]. split; [done |].
  split; [lia |]. split; [| done].
  rewrite Hblock. destruct HB as [? | ?]; [done | lia].
Qed.

(** X18. When the evaluation of the conjuncts fails on the block the
    call assembled, the call returns that error and [*eos] is not
    written; the functions have moved on all the same: the rows of the
    assembled block are no longer to come. *)
Theorem filter_error_fails p bs cancelled st e :
  state_ok p st ->
  _current_row_insert_times st = 0 ->
  0 <= bs < 2 ^ 31 ->
  (forall k, cancelled k = OK) ->
  _conjuncts_status p
    (render p (_child_block st) (take (Z.to_nat bs) (expansion st)))
  = Error e ->
  exists fuel0 : nat, forall fuel, (fuel0 <= fuel)%nat ->
    exists st' b,
      get_expanded_block p bs cancelled fuel st (empty_block p)
      = Failed e (st', b, None)
      /\ expansion st' = drop (Z.to_nat bs) (expansion st).
Proof.
  intros Hstate Ht Hbs Hrun Hfilter.
  exists (budget p bs st (empty_block p) false + 2)%nat. intros fuel Hfuel.
  destruct (assemble_run p bs cancelled st fuel Hstate Ht Hbs Hfuel Hrun)
    as (st1 & c1 & st' & _ & _ & Hdone & _ & _ & _ & Hexp & _).
  eexists st', _. split; [| done].
  unfold get_expanded_block. cbv zeta. by rewrite Hdone, Hfilter.
Qed.

End FillContentFacts.

Lemma fill_block_content_witness :
  state_ok Sample.p2 Sample.st_AB
  /\ _current_row_insert_times Sample.st_AB = 0
  /\ 0 <= 4 < 2 ^ 31
  /\ (forall k, Sample.running k = OK)
  /\ expansion Sample.st_AB
     = [(0, [Value 1; Value 7]); (0, [Value 1; Value 8]);
        (0, [Value 1; Value 9]); (0, [Value 2; Value 7]);
        (0, [Value 2; Value 8]); (0, [Value 2; Value 9]);
        (1, [Value 3; Null])]
  /\ exists fuel0 : nat, forall fuel, (fuel0 <= fuel)%nat ->
       exists st',
         get_expanded_block Sample.p2 4 Sample.running fuel Sample.st_AB
           (empty_block Sample.p2)
         = Done (st',
                 [[Value 100; Value 100; Value 100; Value 100];
                  [Null; Null; Null; Null];
                  [Value 1; Value 1; Value 1; Value 2];
                  [Value 7; Value 8; Value 9; Value 7]],
                 Some (true && (_cur_child_offset st' =? -1))).
Proof.
  assert (Hrun : forall k, Sample.running k = OK) by done.
  split; [exact sample_st_AB_ok |]. split; [reflexivity |].
  split; [arith |]. split; [exact Hrun |]. split; [reflexivity |].
  destruct (fill_block_content Sample.p2 4 Sample.running Sample.st_AB
              sample_st_AB_ok eq_refl ltac:(arith) Hrun eq_refl)
    as (_ & fuel0 & Hfill).
  exists fuel0. intros fuel Hfuel.
  destruct (Hfill fuel Hfuel) as (st' & Hdone & _).
  exists st'. exact Hdone.
Defined.

Lemma fill_drains_child_block_witness :
  state_ok Sample.p2 Sample.st_AB
  /\ _current_row_insert_times Sample.st_AB = 0
  /\ 0 <= 8 < 2 ^ 31
  /\ Z.of_nat (length (expansion Sample.st_AB)) < 8
  /\ (forall k, Sample.running k = OK)
  /\ exists fuel0 : nat, forall fuel, (fuel0 <= fuel)%nat ->
       exists st',
         (get_expanded_block Sample.p2 8 Sample.running fuel Sample.st_AB
            (empty_block Sample.p2)
          = Done (st',
                  [[Value 100; Value 100; Value 100; Value 100; Value 100;
                    Value 100; Value 200];
                   [Null; Null; Null; Null; Null; Null; Null];
                   [Value 1; Value 1; Value 1; Value 2; Value 2; Value 2;
                    Value 3];
                   [Value 7; Value 8; Value 9; Value 7; Value 8; Value 9;
                    Null]],
                  Some true))
         /\ _cur_child_offset st' = -1.
Proof.
  assert (Hrun : forall k, Sample.running k = OK) by done.
  split; [exact sample_st_AB_ok |]. split; [reflexivity |].
  split; [arith |]. split; [arith |]. split; [exact Hrun |].
  destruct (fill_drains_child_block Sample.p2 8 Sample.running Sample.st_AB
              sample_st_AB_ok eq_refl ltac:(arith) ltac:(arith) Hrun eq_refl)
    as (fuel0 & Hfill).
  exists fuel0. intros fuel Hfuel.
  destruct (Hfill fuel Hfuel) as (st' & Hdone & Hoff & _).
  exists st'. split; [exact Hdone | exact Hoff].
Defined.

(** Seven rows are to come and the capacity is seven: the end of the
    stream is not reported, though the child is at its end. *)
Lemma full_block_keeps_row_witness :
  state_ok Sample.p2 Sample.st_AB
  /\ _current_row_insert_times Sample.st_AB = 0
  /\ 0 < 7 < 2 ^ 31
  /\ 7 <= Z.of_nat (length (expansion Sample.st_AB))
  /\ (forall k, Sample.running k = OK)
  /\ _child_eos Sample.st_AB = true
  /\ exists fuel0 : nat, forall fuel, (fuel0 <= fuel)%nat ->
       exists st' b,
         get_expanded_block Sample.p2 7 Sample.running fuel Sample.st_AB
           (empty_block Sample.p2) = Done (st', b, Some false)
         /\ expansion st' = [].
Proof.
  assert (Hrun : forall k, Sample.running k = OK) by done.
  split; [exact sample_st_AB_ok |]. split; [reflexivity |].
  split; [arith |]. split; [arith |]. split; [exact Hrun |].
  split; [reflexivity |].
  destruct (full_block_keeps_row Sample.p2 7 Sample.running Sample.st_AB
              sample_st_AB_ok eq_refl ltac:(arith) ltac:(arith) Hrun eq_refl)
    as (fuel0 & Hfill).
  exists fuel0. intros fuel Hfuel.
  destruct (Hfill fuel Hfuel) as (st' & Hdone & _ & _ & _ & Hexp).
  eexists st', _. split; [exact Hdone | exact Hexp].
Defined.

Lemma sample_st_AB_failing_ok : state_ok Sample.p2_failing Sample.st_AB.
Proof.
  split; [split; arith |]. split; [arith |]. split; [arith |]. right.
  split; [split; arith |]. split.
  - repeat constructor; simpl; try lia; intros; try discriminate; simpl in *; lia.
  - left. repeat constructor.
Qed.

(** The sample with failing conjuncts and capacity 4: the call fails,
    and the four rows it assembled are gone from what is to come. *)
Lemma filter_error_fails_witness :
  state_ok Sample.p2_failing Sample.st_AB
  /\ _current_row_insert_times Sample.st_AB = 0
  /\ 0 <= 4 < 2 ^ 31
  /\ (forall k, Sample.running k = OK)
  /\ exists fuel0 : nat, forall fuel, (fuel0 <= fuel)%nat ->
       exists st' b,
         get_expanded_block Sample.p2_failing 4 Sample.running fuel
           Sample.st_AB (empty_block Sample.p2_failing)
         = Failed 7 (st', b, None)
         /\ expansion st'
            = [(0, [Value 2; Value 8]); (0, [Value 2; Value 9]);
               (1, [Value 3; Null])].
Proof.
  assert (Hrun : forall k, Sample.running k = OK) by done.
  split; [exact sample_st_AB_failing_ok |]. split; [reflexivity |].
  split; [arith |]. split; [exact Hrun |].
  destruct (filter_error_fails Sample.p2_failing 4 Sample.running
              Sample.st_AB 7 sample_st_AB_failing_ok eq_refl ltac:(arith)
              Hrun eq_refl) as (fuel0 & Hfill).
  exists fuel0. intros fuel Hfuel.
  destruct (Hfill fuel Hfuel) as (st' & b & Hfail & Hexp).
  exists st', b. split; [exact Hfail | exact Hexp].
Defined.

(** *** How the call ends *)

Section StatusFacts.

Context {F : Type} `{TableFunction F}.

Implicit Types st : TableFunctionLocalState F.

Lemma outer_loop_failed p bs fuel :
  forall cancelled st (columns : list Column) e x,
  outer_loop p bs cancelled fuel st columns = Failed e x ->
  exists k, cancelled k = Error e.
Proof.
  induction fuel as [|fuel IH]; intros cancelled st columns e x; simpl;
    [done |].
  destruct (has_room p bs columns); [| done].
  destruct (cancelled 0%nat) as [|e0] eqn:Hc.
  - destruct (rows (_child_block st) =? 0); [done |].
    destruct (inner_loop p bs fuel st columns false)
      as [[st1 c1] | [st1 c1] | e1 [st1 c1]] eqn:Hin; [| done |].
    + intros Hf. destruct (IH _ _ _ _ _ Hf) as [k Hk]. by exists (S k).
    + by apply inner_loop_not_failed in Hin.
  - intros [= <- <-]. by exists 0%nat.
Qed.

(** X17. How [get_expanded_block] ends.  When it returns an error,
    [*eos] is not written and the error is the status of one of the
    polls for a cancelled query or of the evaluation of the conjuncts.
    When it returns OK, [*eos] is written: the child was at its end on
    entry and no row is bound on exit.  When the first poll sees the
    query cancelled and the block has room, the call returns the status
    of the poll with the output block as it was, having called nothing
    but [set_nullable]. *)
Theorem failed_fill_status p bs cancelled fuel st (columns : list Column) :
  (forall e x,
     get_expanded_block p bs cancelled fuel st columns = Failed e x ->
     x.2 = None
     /\ ((exists k, cancelled k = Error e)
         \/ (exists b, _conjuncts_status p b = Error e)))
  /\ (forall st' b eos,
        get_expanded_block p bs cancelled fuel st columns
        = Done (st', b, eos) ->
        eos = Some (_child_eos st && (_cur_child_offset st' =? -1)))
  /\ (forall e,
        has_room p bs columns = true ->
        cancelled 0%nat = Error e ->
        get_expanded_block p bs cancelled (S fuel) st columns
        = Failed e
            (set_nullable_loop p st 0 (Z.to_nat (_fn_num p)), columns, None)).
Proof.
  split; [| split].
  - intros e x. unfold get_expanded_block, assemble. cbv zeta.
    destruct (outer_loop p bs cancelled fuel _ columns)
      as [[st1 c1] | [st1 c1] | e1 [st1 c1]] eqn:Hout.
    + destruct (flush_and_pad p st1 c1) as [st2 c2].
      destruct (_conjuncts_status p c2) as [|e2] eqn:Hs; [done |].
      intros [= <- <-]. split; [done |]. right. by exists c2.
    + done.
    + intros [= <- <-]. split; [done |]. left.
      by eapply outer_loop_failed.
  - intros st' b eos Hdone.
    pose proof (get_expanded_block_child_eos p bs cancelled fuel st columns)
      as He.
    rewrite Hdone in He. simpl in He. revert Hdone.
    unfold get_expanded_block, assemble. cbv zeta.
    destruct (outer_loop p bs cancelled fuel _ columns)
      as [[st1 c1] | [st1 c1] | e1 [st1 c1]]; [| done | done].
    destruct (flush_and_pad p st1 c1) as [st2 c2].
    destruct (_conjuncts_status p c2); [| done].
    intros [= <- <- <-]. by rewrite He.
  - intros e Hroom Hc. unfold get_expanded_block, assemble. cbv zeta.
    cbn [outer_loop]. by rewrite Hroom, Hc.
Qed.

End StatusFacts.

(** The sample, cancelled before the call: the call fails with the
    status of the poll, and the log holds the [set_nullable] call on the
    function whose column is nullable and nothing else. *)
Lemma failed_fill_status_witness :
  has_room Sample.p2 4 (empty_block Sample.p2) = true
  /\ Sample.stopped 0%nat = Error 1
  /\ get_expanded_block Sample.p2 4 Sample.stopped 1 Sample.st_AB
       (empty_block Sample.p2)
     = Failed 1
         (log Sample.st_AB [call_set_nullable 1], empty_block Sample.p2, None).
Proof.
  split; [reflexivity |]. split; [reflexivity |].
  exact (proj2 (proj2 (failed_fill_status Sample.p2 4 Sample.stopped 0
                         Sample.st_AB (empty_block Sample.p2)))
           1 eq_refl eq_refl).
Defined.

(** *** When the functions are closed *)

Section CloseFacts.

Context {F : Type} `{TableFunction F}.

Implicit Types st : TableFunctionLocalState F.

Lemma closes_app (cs1 cs2 : list Call) :
  closes (cs1 ++ cs2) = closes cs1 ++ closes cs2.
Proof. apply List.filter_app. Qed.

Lemma closes_map_none {A} (g : A -> Call) (l : list A) :
  (forall a, closes [g a] = []) -> closes (map g l) = [].
Proof.
  intros Hg. induction l as [|a l IH]; [done |].
  change (map g (a :: l)) with ([g a] ++ map g l).
  by rewrite closes_app, Hg, IH.
Qed.

Lemma closes_map_all {A} (g : A -> Call) (l : list A) :
  (forall a, closes [g a] = [g a]) -> closes (map g l) = map g l.
Proof.
  intros Hg. induction l as [|a l IH]; [done |].
  change (map g (a :: l)) with ([g a] ++ map g l).
  by rewrite closes_app, Hg, IH.
Qed.

Lemma emit_frame p bs st (columns : list Column) :
  let r := emit p bs st columns in
  _child_block r.1 = _child_block st
  /\ _cur_child_offset r.1 = _cur_child_offset st
  /\ _child_eos r.1 = _child_eos st
  /\ closes (calls r.1) = closes (calls st).
Proof.
  cbv zeta. pose proof (emit_calls p bs st columns) as Hcalls.
  cbv zeta in Hcalls. rewrite Hcalls, closes_app.
  change (call_get_value ?a ?b ?c ?d :: ?l)
    with ([call_get_value a b c d] ++ l).
  rewrite closes_app, closes_map_none by done. simpl. rewrite app_nil_r.
  unfold emit.
  destruct (get_value _ _ _) as [[f c] n].
  match goal with
  | |- context [get_same_many_values_loop p ?s ?cols n 0 ?cnt] =>
      pose proof (get_same_many_values_loop_spec p s cols n 0 cnt)
        as (_ & Hb & Ho & _ & He & _)
  end.
  cbv zeta in Hb, Ho, He. simpl in Hb, Ho, He. by rewrite Hb, Ho, He.
Qed.

Lemma roll_table_functions_closes p st k :
  fns_ok p st -> 0 < k < _fn_num p ->
  closes (calls (_roll_table_functions p st k).1) = closes (calls st).
Proof.
  intros Hok Hk.
  pose proof (roll_table_functions_cases p st k Hok Hk) as Hroll.
  cbv zeta in Hroll.
  destruct Hroll as [(_ & _ & _ & ->) | (i & _ & _ & _ & _ & _ & ->)];
    rewrite !closes_app, !closes_map_none by done;
    by rewrite ?app_nil_r.
Qed.

(** One pass: the functions are closed exactly in a pass that ends in
    [break]. *)
Lemma inner_body_closes p bs st (columns : list Column) skip :
  fns_ok p st ->
  -1 <= _cur_child_offset st ->
  let r := inner_body p bs st columns skip in
  fns_ok p r.2.1.1
  /\ -1 <= _cur_child_offset r.2.1.1
  /\ ((r.1 <> flow_break /\ closes (calls r.2.1.1) = closes (calls st))
      \/ (r.1 = flow_break
          /\ closes (calls r.2.1.1)
             = closes (calls st)
               ++ map call_process_close (seq 0 (length (_fns st)))
          /\ _cur_child_offset r.2.1.1 = -1
          /\ rows (_child_block r.2.1.1) = 0)).
Proof.
  intros Hok Hoff. cbv zeta.
  destruct (inner_body_in_range p bs st columns skip Hok) as [Hok' _].
  split; [done |]. clear Hok'.
  pose proof (find_last_fn_eos_idx_bounds p st Hok) as Hidx.
  unfold inner_body, advance.
  destruct ((_find_last_fn_eos_idx p st =? 0) || skip).
  - pose proof (copy_output_slots_frame p st columns)
      as (Hf & Hb & Ho & _ & _ & Hc).
    destruct (_copy_output_slots p st columns) as [st1 c1]. simpl in *.
    unfold process_next_child_row.
    destruct (to_size_t (_cur_child_offset st1 + 1) >=? rows (_child_block st1));
      simpl.
    + split; [lia |]. right. split; [done |].
      rewrite closes_app, closes_map_all, Hc, Hf by done.
      split; [done |]. split; [done |]. apply rows_clear_column_data.
    + destruct (Z.eqb_spec (_cur_child_offset st1 + 1) (-1)) as [? | _]; [lia |].
      simpl. unfold emit_or_skip.
      match goal with
      | |- context [_is_inner_and_empty p ?s] =>
          destruct (_is_inner_and_empty p s); simpl;
          [| pose proof (emit_frame p bs s c1) as (_ & Ho2 & _ & Hc2);
             cbv zeta in Ho2, Hc2; simpl in Ho2, Hc2; rewrite Ho2, Hc2]
      end;
        (split; [lia |]); left; (split; [done |]);
        rewrite closes_app, closes_map_none, Hc by done;
        by rewrite app_nil_r.
  - destruct ((_find_last_fn_eos_idx p st <? _fn_num p)
              && negb (_find_last_fn_eos_idx p st =? -1)) eqn:Hroll.
    + apply andb_true_iff in Hroll as [_ Hne].
      apply negb_true_iff, Z.eqb_neq in Hne.
      assert (Hcr : closes (calls (_roll_table_functions p st
                                     (_find_last_fn_eos_idx p st)).1)
                    = closes (calls st)).
      { destruct (Z.eq_dec (_find_last_fn_eos_idx p st) 0) as [Hz | Hnz].
        - rewrite Hz. by unfold _roll_table_functions.
        - apply roll_table_functions_closes; [done | lia]. }
      pose proof (roll_table_functions_frame p st (_find_last_fn_eos_idx p st))
        as (_ & Ho & _).
      cbv zeta in Ho.
      destruct (_roll_table_functions p st _) as [st1 ok]. simpl in *.
      destruct ok; simpl.
      * unfold emit_or_skip.
        destruct (_is_inner_and_empty p st1); simpl.
        -- split; [lia |]. left. by split.
        -- pose proof (emit_frame p bs st1 columns) as (_ & Ho2 & _ & Hc2).
           cbv zeta in Ho2, Hc2. rewrite Ho2, Hc2.
           split; [lia |]. left. by split.
      * split; [lia |]. left. by split.
    + simpl. unfold emit_or_skip.
      destruct (_is_inner_and_empty p st); simpl.
      * split; [lia |]. left. by split.
      * pose proof (emit_frame p bs st columns) as (_ & Ho2 & _ & Hc2).
        cbv zeta in Ho2, Hc2. rewrite Ho2, Hc2.
        split; [lia |]. left. by split.
Qed.

Lemma inner_loop_closes p bs fuel :
  forall st (columns : list Column) skip,
  fns_ok p st ->
  -1 <= _cur_child_offset st ->
  let r := outcome_value (inner_loop p bs fuel st columns skip) in
  fns_ok p r.1
  /\ -1 <= _cur_child_offset r.1
  /\ (closes (calls r.1) = closes (calls st)
      \/ (closes (calls r.1)
          = closes (calls st)
            ++ map call_process_close (seq 0 (length (_fns st)))
          /\ _cur_child_offset r.1 = -1
          /\ rows (_child_block r.1) = 0)).
Proof.
  induction fuel as [|fuel IH]; intros st columns skip Hok Hoff; simpl.
  - split; [done |]. split; [done | by left].
  - destruct (has_room p bs columns); [| split; [done |]; split; [done | by left]].
    pose proof (inner_body_closes p bs st columns skip Hok Hoff)
      as (Hok1 & Hoff1 & Hcase).
    cbv zeta in Hok1, Hoff1, Hcase.
    destruct (inner_body p bs st columns skip) as [fl [[st1 c1] skip1]].
    simpl in *.
    assert (Hsame : closes (calls st1) = closes (calls st) ->
      let r := outcome_value (inner_loop p bs fuel st1 c1 skip1) in
      fns_ok p r.1
      /\ -1 <= _cur_child_offset r.1
      /\ (closes (calls r.1) = closes (calls st)
          \/ (closes (calls r.1)
              = closes (calls st)
                ++ map call_process_close (seq 0 (length (_fns st)))
              /\ _cur_child_offset r.1 = -1
              /\ rows (_child_block r.1) = 0))).
    { intros Hc. destruct (IH st1 c1 skip1 Hok1 Hoff1) as (Hok2 & Hoff2 & Hcase2).
      split; [done |]. split; [done |]. rewrite <- Hc.
      replace (length (_fns st)) with (length (_fns st1)); [done |].
      destruct Hok as [Hn _], Hok1 as [Hn1 _]. lia. }
    destruct Hcase as [[Hfl Hc] | (-> & Hc & Hidle & Hrows)].
    + destruct fl; [done | by apply Hsame | by apply Hsame].
    + simpl. split; [done |]. split; [done |]. by right.
Qed.

Lemma outer_loop_idle p bs cancelled fuel st (columns : list Column) :
  rows (_child_block st) = 0 ->
  outcome_value (outer_loop p bs cancelled fuel st columns) = (st, columns).
Proof.
  intros Hrows. destruct fuel as [|fuel]; simpl; [done |].
  rewrite Hrows. simpl.
  destruct (has_room p bs columns); [| done].
  by destruct (cancelled 0%nat).
Qed.

Lemma outer_loop_closes p bs fuel :
  forall cancelled st (columns : list Column),
  fns_ok p st ->
  -1 <= _cur_child_offset st ->
  let r := outcome_value (outer_loop p bs cancelled fuel st columns) in
  closes (calls r.1) = closes (calls st)
  \/ (closes (calls r.1)
      = closes (calls st)
        ++ map call_process_close (seq 0 (length (_fns st)))
      /\ _cur_child_offset r.1 = -1
      /\ rows (_child_block r.1) = 0).
Proof.
  induction fuel as [|fuel IH]; intros cancelled st columns Hok Hoff; simpl;
    [by left |].
  destruct (has_room p bs columns); [| by left].
  destruct (cancelled 0%nat); [| by left].
  destruct (rows (_child_block st) =? 0); [by left |].
  pose proof (inner_loop_closes p bs fuel st columns false Hok Hoff)
    as (Hok1 & Hoff1 & Hcase).
  cbv zeta in Hok1, Hoff1, Hcase.
  destruct (inner_loop p bs fuel st columns false)
    as [[st1 c1] | [st1 c1] | e [st1 c1]]; simpl in *; [| done | done].
  destruct Hcase as [Hc | (Hc & Hidle & Hrows)].
  - specialize (IH (fun k => cancelled (S k)) st1 c1 Hok1 Hoff1).
    cbv zeta in IH. rewrite <- Hc.
    replace (length (_fns st)) with (length (_fns st1)); [done |].
    destruct Hok as [Hn _], Hok1 as [Hn1 _]. lia.
  - rewrite (outer_loop_idle p bs _ fuel st1 c1 Hrows). simpl. by right.
Qed.

(** X16. However far the loops of [get_expanded_block] get, and whether
    or not the call is cancelled or the evaluation of the conjuncts
    fails, one fill call closes the functions at most once: either it
    makes no [process_close] call, or it makes exactly one on every
    function, in the order of the functions, and then no row is bound and
    the child block has no rows. *)
Theorem closes_at_most_once p bs cancelled fuel st (columns : list Column) :
  fns_ok p st ->
  -1 <= _cur_child_offset st ->
  let r := (outcome_value (get_expanded_block p bs cancelled fuel st columns)).1.1 in
  closes (calls r) = closes (calls st)
  \/ (closes (calls r)
      = closes (calls st)
        ++ map call_process_close (seq 0 (Z.to_nat (_fn_num p)))
      /\ _cur_child_offset r = -1
      /\ rows (_child_block r) = 0).
Proof.
  intros Hok Hoff. cbv zeta.
  pose proof (get_expanded_block_state p bs cancelled fuel st columns)
    as (_ & Hb & Ho & _ & Hc & _).
  destruct (set_nullable_loop_spec p st 0 (Z.to_nat (_fn_num p)))
    as (Hb0 & Ho0 & _ & _ & Hl0 & Hc0).
  cbv zeta in Hb, Ho, Hc. rewrite Hb, Ho, Hc.
  set (st0 := set_nullable_loop p st 0 (Z.to_nat (_fn_num p))) in *.
  assert (Hok0 : fns_ok p st0).
  { destruct Hok as [Hn Hpos]. split; [lia | done]. }
  assert (Hcl : closes (calls st0) = closes (calls st)).
  { rewrite Hc0, closes_app, closes_map_none by done. by rewrite app_nil_r. }
  pose proof (outer_loop_closes p bs fuel cancelled st0 columns Hok0
                ltac:(lia)) as Hloop.
  cbv zeta in Hloop. rewrite Hcl in Hloop.
  destruct Hok as [Hn _], Hok0 as [Hn0 _].
  replace (Z.to_nat (_fn_num p)) with (length (_fns st0)) by lia.
  done.
Qed.

End CloseFacts.

(** On the sample, a call of capacity 4 closes nothing, a call of
    capacity 100 closes both functions. *)
Lemma closes_at_most_once_witness :
  fns_ok Sample.p2 Sample.st_AB
  /\ -1 <= _cur_child_offset Sample.st_AB
  /\ closes (calls (outcome_value
                      (get_expanded_block Sample.p2 4 Sample.running 20 Sample.st_AB
                         (empty_block Sample.p2))).1.1) = []
  /\ closes (calls (outcome_value
                      (get_expanded_block Sample.p2 100 Sample.running 20 Sample.st_AB
                         (empty_block Sample.p2))).1.1)
     = [call_process_close 0; call_process_close 1]
  /\ (closes (calls (outcome_value
                       (get_expanded_block Sample.p2 100 Sample.running 20 Sample.st_AB
                          (empty_block Sample.p2))).1.1)
      = closes (calls Sample.st_AB)
      \/ _cur_child_offset
           (outcome_value
              (get_expanded_block Sample.p2 100 Sample.running 20 Sample.st_AB
                 (empty_block Sample.p2))).1.1 = -1).
Proof.
  assert (Hok : fns_ok Sample.p2 Sample.st_AB) by (split; arith).
  assert (Hoff : -1 <= _cur_child_offset Sample.st_AB) by arith.
  split; [exact Hok |]. split; [exact Hoff |].
  split; [reflexivity |]. split; [reflexivity |].
  destruct (closes_at_most_once Sample.p2 100 Sample.running 20 Sample.st_AB
              (empty_block Sample.p2) Hok Hoff) as [Hsame | (_ & Hidle & _)].
  - left. exact Hsame.
  - right. exact Hidle.
Defined.
